(** * semantic-relevance: a shallow embedding of the signal pipeline

    The embedding follows the JavaScript sources
    - [src/signal/embeddings.js]  (vector cache, similarity engine),
    - [src/signal/novelty.js]     (novelty tracker and storage adapters),
    - [src/signal/scoring.js]     (composite score),
    - [src/signal/filter.js]      (classifier and [filterItems]).

    Conventions.
    - A JavaScript [number] that carries a measurement (similarity, score,
      weight) is a real number, and its arithmetic is exact: the rounding
      of doubles and of a [Float32Array] is not modelled.  Counters,
      character codes and epoch milliseconds are integers.  NaN and the
      infinities are modelled where a division by a baseline of 0 yields
      them ([cappedRatio]) and nowhere else.
    - An object used as a table ([CONFIDENCE_SCORES], the baselines, the
      timestamp fields) is a finite map of its own keys; a key that a
      JavaScript object inherits (such as "constructor") is looked up
      like any other absent key.
    - A string is a [string] of 8-bit characters, read as the code units
      U+0000..U+00FF; [length], [slice], [charCodeAt], [trim] and
      [toLowerCase] are those of such text.
    - An ISO-8601 timestamp string is identified with its epoch
      milliseconds; [None] stands for an absent (or otherwise falsy) field.
    - A thrown exception or rejected promise is [Err]. *)

From Stdlib Require Import ZArith Reals Lra Lia Ascii Sorted.
From stdpp Require Import gmap strings list pretty.

(** ** JavaScript odds and ends *)

Inductive Result (A : Type) : Type :=
  | Ok (a : A)
  | Err (msg : string).
Arguments Ok {A} a.
Arguments Err {A} msg.

Definition is_ok {A} (r : Result A) : bool :=
  match r with Ok _ => true | Err _ => false end.

(** Comparisons of numbers in conditions. *)
#[export] Instance Rle_decision (x y : R) : Decision (x <= y)%R.
Proof. apply Rle_dec. Qed.

#[export] Instance Rlt_decision (x y : R) : Decision (x < y)%R.
Proof. apply Rlt_dec. Qed.

(** ToInt32: reduction modulo 2^32 into [-2^31, 2^31). *)
Definition to_int32 (z : Z) : Z :=
  ((z + 2147483648) mod 4294967296 - 2147483648)%Z.

Definition charCode (c : ascii) : Z := Z.of_nat (nat_of_ascii c).

Definition chars (s : string) : list ascii := String.list_ascii_of_string s.

(** [Number.prototype.toString(36)] on a 32-bit integer. *)
Definition digit36 (d : Z) : ascii :=
  if (d <? 10)%Z then ascii_of_nat (48 + Z.to_nat d)
  else ascii_of_nat (87 + Z.to_nat d).

Fixpoint toString36_digits (fuel : nat) (n : Z) (acc : string) : string :=
  match fuel with
  | O => acc
  | S fuel' =>
      let acc' := String (digit36 (n mod 36)) acc in
      if (n / 36 =? 0)%Z then acc' else toString36_digits fuel' (n / 36)%Z acc'
  end.

Definition toString36 (n : Z) : string :=
  if (n <? 0)%Z then String "-" (toString36_digits 7 (- n) "")
  else toString36_digits 7 n "".

(** [String.prototype.toLowerCase] on the characters U+0000..U+00FF: the
    letters A-Z and the Latin-1 capitals U+00C0..U+00DE, without the
    multiplication sign U+00D7, move up by 32; every other character of
    the range is its own lower case. *)
Definition toLowerChar (c : ascii) : ascii :=
  let n := nat_of_ascii c in
  if ((65 <=? n)%nat && (n <=? 90)%nat)
     || ((192 <=? n)%nat && (n <=? 214)%nat)
     || ((216 <=? n)%nat && (n <=? 222)%nat)
  then ascii_of_nat (n + 32) else c.

Definition toLowerCase (s : string) : string :=
  String.string_of_list_ascii (map toLowerChar (chars s)).

(** The character class [[a-z0-9]] under the flag [i], which both
    [isAlphanumericOnly] and the boundary tests of [hasKeyword] use: no
    character of U+0080..U+00FF has an upper case among A-Z. *)
Definition is_alnum (c : ascii) : bool :=
  let n := nat_of_ascii c in
  ((48 <=? n)%nat && (n <=? 57)%nat)
  || ((65 <=? n)%nat && (n <=? 90)%nat)
  || ((97 <=? n)%nat && (n <=? 122)%nat).

(** [\w] of a JavaScript regular expression. *)
Definition is_word (c : ascii) : bool :=
  is_alnum c || (nat_of_ascii c =? 95)%nat.

(** The white space and line terminators [String.prototype.trim] removes,
    among the characters U+0000..U+00FF: tab, line feed, vertical tab,
    form feed, carriage return, space and the no-break space U+00A0. *)
Definition is_space (c : ascii) : bool :=
  let n := nat_of_ascii c in
  (n =? 32)%nat || ((9 <=? n)%nat && (n <=? 13)%nat) || (n =? 160)%nat.

Fixpoint trimStart (l : list ascii) : list ascii :=
  match l with
  | c :: l' => if is_space c then trimStart l' else l
  | [] => []
  end.

Definition trim (s : string) : string :=
  String.string_of_list_ascii (rev (trimStart (rev (trimStart (chars s))))).

(** [str.slice(i, j)] for [0 <= i <= j]. *)
Definition slice {A} (i j : nat) (l : list A) : list A :=
  take (j - i) (drop i l).

(** ** embeddings.js *)

(** [hashString]: [hash = ((hash << 5) - hash) + char; hash = hash & hash]. *)
Definition hashStep (hash : Z) (c : ascii) : Z :=
  to_int32 (to_int32 (Z.shiftl hash 5) - hash + charCode c).

Definition hashString (str : string) : string :=
  toString36 (fold_left hashStep (chars str) 0%Z).

Definition CHUNK_SIZE : nat := 1800.
Definition CHUNK_OVERLAP : nat := 200.
Definition CHUNK_WEIGHT_DECAY : R := (8 / 10)%R.
Definition DEFAULT_CACHE_SIZE : nat := 1000.

(** A [Float32Array]. *)
Definition Embedding : Type := list R.

Module JsMap.

(** A JavaScript [Map] with string keys.  Iteration follows insertion
    order, which the LRU eviction and [Array.from(map.values())] read:
    an association list, oldest entry first, at most one entry per key. *)
Definition t (V : Type) : Type := list (string * V).

Section Ops.
Context {V : Type}.

Definition get (key : string) (m : t V) : option V :=
  snd <$> find (λ e, bool_decide (e.1 = key)) m.

Definition has (key : string) (m : t V) : bool :=
  bool_decide (key ∈ m.*1).

Definition delete (key : string) (m : t V) : t V :=
  filter (λ e, e.1 ≠ key) m.

(** [Map.prototype.set]: a present key keeps its place. *)
Fixpoint set (key : string) (value : V) (m : t V) : t V :=
  match m with
  | [] => [(key, value)]
  | e :: m' => if bool_decide (e.1 = key) then (key, value) :: m'
               else e :: set key value m'
  end.

Definition keys (m : t V) : list string := m.*1.
Definition values (m : t V) : list V := m.*2.
Definition size (m : t V) : nat := length m.
End Ops.

End JsMap.

Module LRUCache.

Record t : Type := mk {
  maxSize : nat;
  cache : JsMap.t Embedding
}.

Definition new (maxSize : nat) : t := mk maxSize [].

(** [get(key)]: a hit moves the entry to the young end. *)
Definition get (key : string) (c : t) : option Embedding * t :=
  if negb (JsMap.has key (cache c)) then (None, c)
  else
    match JsMap.get key (cache c) with
    | None => (None, c)
    | Some value =>
        (Some value, mk (maxSize c) (JsMap.set key value (JsMap.delete key (cache c))))
    end.

(** [set(key, value)]: a full cache loses its oldest entry. *)
Definition set (key : string) (value : Embedding) (c : t) : t :=
  let m :=
    if JsMap.has key (cache c) then JsMap.delete key (cache c)
    else if (maxSize c <=? JsMap.size (cache c))%nat then
      match JsMap.keys (cache c) with
      | [] => cache c
      | firstKey :: _ => JsMap.delete firstKey (cache c)
      end
    else cache c in
  mk (maxSize c) (JsMap.set key value m).

Definition size (c : t) : nat := JsMap.size (cache c).

Definition clear (c : t) : t := mk (maxSize c) [].

End LRUCache.

(** ** Items

    The uniform item shape of the feed adapters.  [id = ""] stands for a
    missing id, [title]/[description] [""] for a missing text; both are
    falsy in the source.  The metadata fields are the ones scoring.js
    reads. *)
Record Metadata : Type := {
  pushed_at : option Z;
  updated_at : option Z;
  created_at : option Z;
  created_utc : option Z;      (* epoch seconds *)
  published : option Z;
  stars : option R;
  forks : option R;
  points : option R;
  comments : option R;
  score : option R;
  reactions : option R;
  likes : option R;
  downloads : option R;
  votes : option R;
  upvotes : option R
}.

Definition noMetadata : Metadata :=
  Build_Metadata None None None None None None None None None None None None None None None.

(** What [filterItems] attaches to a surviving item. *)
Record FilterResult : Type := {
  signal_type : string;
  confidence : option string;
  keyword_confidence : string;
  matched_keyword : option string;
  is_watched : bool;
  reason : string;
  relevance_score : option R;
  novelty_score : R
}.

Record Item : Type := {
  id : string;
  source : option string;
  title : string;
  description : string;
  metadata : Metadata;
  fetched_at : option Z;
  timestamp : option Z;
  date : option Z;
  filter_result : option FilterResult;
  filtered_at : option Z
}.

(** [`${item.title || ''} ${item.description || ''}`] *)
Definition itemText (item : Item) : string :=
  title item +:+ " " +:+ description item.

(** [cosineSimilarity(a, b)]; an index past the end of [b] reads 0 here. *)
Fixpoint cosineSums (a b : Embedding) (acc : R * R * R) : R * R * R :=
  match a with
  | [] => acc
  | x :: a' =>
      let y := hd 0%R b in
      let '(dotProduct, normA, normB) := acc in
      cosineSums a' (tl b) (dotProduct + x * y, normA + x * x, normB + y * y)%R
  end.

Definition cosineSimilarity (a b : Embedding) : R :=
  let '(dotProduct, normA, normB) := cosineSums a b (0, 0, 0)%R in
  let magnitude := (sqrt normA * sqrt normB)%R in
  if Req_dec_T magnitude 0 then 0%R
  else Rmax (-1) (Rmin 1 (dotProduct / magnitude)).

(** The pieces of the long-text path of [_computeEmbedding]. *)
Definition chunksOf (text : string) : list string :=
  let cs := chars text in
  let step := (CHUNK_SIZE - CHUNK_OVERLAP)%nat in
  (λ k, String.string_of_list_ascii (slice (k * step) (k * step + CHUNK_SIZE) cs))
    <$> seq 0 ((length cs + step - 1) / step).

(** [avgEmbedding[j] += emb[j] * weight], for [j] in range of both. *)
Fixpoint addScaled (weight : R) (emb avg : Embedding) : Embedding :=
  match avg, emb with
  | a :: avg', e :: emb' => (a + e * weight)%R :: addScaled weight emb' avg'
  | _, _ => avg
  end.

Definition weightedAverage (embeddings : list Embedding) : Embedding :=
  let weights := imap (λ idx _, (CHUNK_WEIGHT_DECAY ^ idx)%R) embeddings in
  let totalWeight := fold_left Rplus weights 0%R in
  let avg0 := (λ _, 0%R) <$> hd [] embeddings in
  let avgEmbedding :=
    fold_left (λ avg '(w, emb), addScaled (w / totalWeight) emb avg)
              (zip weights embeddings) avg0 in
  let norm := sqrt (fold_left (λ n x, n + x * x)%R avgEmbedding 0%R) in
  (λ x, x / norm)%R <$> avgEmbedding.

Module EmbeddingContext.

(** [calls] is instrumentation: the texts handed to the shared pipeline
    so far, oldest first. *)
Record t : Type := mk {
  contextEmbedding : option Embedding;
  cache : LRUCache.t;
  calls : list string
}.

(** [new EmbeddingContext({ cacheSize })] *)
Definition new (cacheSize : nat) : t :=
  mk None
     (LRUCache.new (if (cacheSize =? 0)%nat then DEFAULT_CACHE_SIZE else cacheSize))
     [].

(** An asynchronous call runs synchronously up to its first [await] of
    the pipeline and is resumed later.  [Pending] is what a call of
    [embed] has reached when it is suspended (or already finished). *)
Inductive Pending : Type :=
  | Hit (cached : Embedding)
  | Miss (hash : string) (computed : Result Embedding).

Inductive PendingScore : Type :=
  | Rejected (msg : string)
  | Resolved (score : R)
  | Embedding_ (p : Pending).

Section WithPipeline.

(** The shared feature-extraction pipeline (pooled, normalised). *)
Variable sharedPipeline : string → Result Embedding.

(** The chunk loop: one awaited pipeline call per chunk, in order; the
    first failure ends it.  Returns the texts requested as well. *)
Fixpoint embedChunks (chunks : list string) : Result (list Embedding) * list string :=
  match chunks with
  | [] => (Ok [], [])
  | chunk :: rest =>
      match sharedPipeline chunk with
      | Err msg => (Err msg, [chunk])
      | Ok data =>
          let '(r, requested) := embedChunks rest in
          (match r with Ok es => Ok (data :: es) | Err msg => Err msg end,
           chunk :: requested)
      end
  end.

Definition _computeEmbedding (text : string) : Result Embedding * list string :=
  if (String.length text <=? CHUNK_SIZE)%nat then
    (sharedPipeline text, [text])
  else
    let '(r, requested) := embedChunks (chunksOf text) in
    (match r with
     | Ok embeddings => Ok (weightedAverage embeddings)
     | Err msg => Err msg
     end, requested).

(** [embed], up to the suspension.  The pipeline is taken to be loaded.
    The calls for the later chunks of a long text, made one by one after
    the first has returned, are logged here with the first. *)
Definition embed_start (text : string) (c : t) : Pending * t :=
  let hash := hashString text in
  match LRUCache.get hash (cache c) with
  | (Some cached, cache') => (Hit cached, mk (contextEmbedding c) cache' (calls c))
  | (None, _) =>
      let '(computed, requested) := _computeEmbedding text in
      (Miss hash computed, mk (contextEmbedding c) (cache c) (calls c ++ requested))
  end.

(** [embed], from the resumption on. *)
Definition embed_finish (p : Pending) (c : t) : Result Embedding * t :=
  match p with
  | Hit cached => (Ok cached, c)
  | Miss hash (Ok embedding) =>
      (Ok embedding,
       mk (contextEmbedding c) (LRUCache.set hash embedding (cache c)) (calls c))
  | Miss _ (Err msg) => (Err msg, c)
  end.

(** An awaited [embed(text)]. *)
Definition embed (text : string) (c : t) : Result Embedding * t :=
  let '(p, c') := embed_start text c in embed_finish p c'.

Definition setContext (contextText : string) (c : t) : Result Embedding * t :=
  match embed contextText c with
  | (Ok e, c') => (Ok e, mk (Some e) (cache c') (calls c'))
  | (Err msg, c') => (Err msg, c')
  end.

Definition getRelevanceScore_start (item : Item) (c : t) : PendingScore * t :=
  match contextEmbedding c with
  | None => (Rejected "Context embedding not set. Call setContext first.", c)
  | Some _ =>
      let text := trim (itemText item) in
      if bool_decide (text = "") then (Resolved 0, c)
      else let '(p, c') := embed_start text c in (Embedding_ p, c')
  end.

Definition getRelevanceScore_finish (p : PendingScore) (c : t) : Result R * t :=
  match p with
  | Rejected msg => (Err msg, c)
  | Resolved s => (Ok s, c)
  | Embedding_ p =>
      match embed_finish p c with
      | (Ok itemEmbedding, c') =>
          (Ok (cosineSimilarity (default [] (contextEmbedding c')) itemEmbedding), c')
      | (Err msg, c') => (Err msg, c')
      end
  end.

(** An awaited [getRelevanceScore(item)]. *)
Definition getRelevanceScore (item : Item) (c : t) : Result R * t :=
  let '(p, c') := getRelevanceScore_start item c in getRelevanceScore_finish p c'.

(** One [Promise.all] group: [batch.map] starts every call, each runs
    to its suspension; the resumptions follow, taken here in item
    order.  [Promise.all] rejects as soon as one promise does. *)
Fixpoint startAll (batch : list Item) (c : t) : list (string * PendingScore) * t :=
  match batch with
  | [] => ([], c)
  | item :: rest =>
      let '(p, c1) := getRelevanceScore_start item c in
      let '(ps, c2) := startAll rest c1 in
      ((id item, p) :: ps, c2)
  end.

Fixpoint finishAll (ps : list (string * PendingScore)) (c : t) :
    list (string * Result R) * t :=
  match ps with
  | [] => ([], c)
  | (i, p) :: rest =>
      let '(r, c1) := getRelevanceScore_finish p c in
      let '(rs, c2) := finishAll rest c1 in
      ((i, r) :: rs, c2)
  end.

Fixpoint promiseAll (rs : list (string * Result R)) : Result (list (string * R)) :=
  match rs with
  | [] => Ok []
  | (i, Ok s) :: rest =>
      match promiseAll rest with
      | Ok l => Ok ((i, s) :: l)
      | Err msg => Err msg
      end
  | (_, Err msg) :: _ => Err msg
  end.

(** The [for (i = 0; i < items.length; i += concurrency)] loop.  The
    recursion is on [fuel]; [length items] is enough for a positive
    width (a width of 0 never ends in the source). *)
Fixpoint batchLoop (fuel : nat) (concurrency : positive) (items : list Item)
    (scores : gmap string R) (c : t) : Result (gmap string R) * t :=
  match fuel, items with
  | _, [] => (Ok scores, c)
  | O, _ => (Ok scores, c)
  | S fuel', _ =>
      let batch := take (Pos.to_nat concurrency) items in
      let '(ps, c1) := startAll batch c in
      let '(rs, c2) := finishAll ps c1 in
      match promiseAll rs with
      | Err msg => (Err msg, c2)
      | Ok results =>
          batchLoop fuel' concurrency (drop (Pos.to_nat concurrency) items)
            (fold_left (λ m '(i, s), <[i := s]> m) results scores) c2
      end
  end.

Definition batchRelevanceScores (items : list Item) (concurrency : positive) (c : t) :
    Result (gmap string R) * t :=
  batchLoop (length items) concurrency items ∅ c.

End WithPipeline.

End EmbeddingContext.

(** ** novelty.js *)

Definition DEFAULT_HALF_LIFE_DAYS : R := 1.
Definition MIN_NOVELTY_SCORE : R := (1 / 10)%R.
Definition MS_PER_DAY : R := (1000 * 60 * 60 * 24)%R.

(** A novelty record.  A record read back from storage may lack a field,
    hence the options; [markSeen] fills all of them. *)
Record NoveltyRecord : Type := {
  itemId : string;
  firstSeen : option Z;
  lastSeen : option Z;
  seenCount : option Z;
  recTitle : option string;
  recSource : option string
}.

(** The metadata the callers in the repository pass: [{ title, source }],
    either may be absent. *)
Record SeenMetadata : Type := {
  mdTitle : option string;
  mdSource : option string
}.

Definition noSeenMetadata : SeenMetadata := Build_SeenMetadata None None.

(** The [metadata] argument of [markSeen] is any object, and a new record
    is [{ itemId, firstSeen: now, lastSeen: now, seenCount: 1, ...metadata }]:
    a key of the record that the object carries as well replaces the fresh
    value.  [CallerMetadata] is such an object by the keys the code reads
    back; [Some v] is a key that is present, with a value of the type the
    record's field has ([Some None] a present key with a falsy value). *)
Record CallerMetadata : Type := {
  cmTitle : option string;
  cmSource : option string;
  cmItemId : option string;
  cmFirstSeen : option (option Z);
  cmLastSeen : option (option Z);
  cmSeenCount : option (option Z)
}.

(** [{ title, source }] as an argument of [markSeen]. *)
Definition titleAndSource (md : SeenMetadata) : CallerMetadata :=
  {| cmTitle := mdTitle md; cmSource := mdSource md; cmItemId := None;
     cmFirstSeen := None; cmLastSeen := None; cmSeenCount := None |}.

(** The storage port: bulk load by ids, bulk save of records.  [S] is the
    state of the backend. *)
Class StorageAdapter (S : Type) : Type := {
  load : list string → S → Result (gmap string NoveltyRecord) * S;
  save : list NoveltyRecord → S → Result () * S
}.

Module MemoryStorageAdapter.

Record t : Type := mk { data : gmap string NoveltyRecord }.

Definition new : t := mk ∅.

Definition load (itemIds : list string) (s : t) : Result (gmap string NoveltyRecord) * t :=
  (Ok (fold_left (λ result i,
                    match data s !! i with
                    | Some r => <[i := r]> result
                    | None => result
                    end) itemIds ∅), s).

Definition save (records : list NoveltyRecord) (s : t) : Result () * t :=
  (Ok (), mk (fold_left (λ d record, <[itemId record := record]> d) records (data s))).

Definition size (s : t) : nat := size (data s).

Definition clear (s : t) : Result () * t := (Ok (), mk ∅).

End MemoryStorageAdapter.

#[export] Instance memoryStorage : StorageAdapter MemoryStorageAdapter.t :=
  {| load := MemoryStorageAdapter.load; save := MemoryStorageAdapter.save |}.

Module NoveltyTracker.

(** [saves] is instrumentation: the argument of every [storage.save]
    call so far, oldest first. *)
Record t (S : Type) : Type := mk {
  storage : S;
  halfLifeDays : R;
  minScore : R;
  cache : gmap string NoveltyRecord;
  pendingUpdates : JsMap.t NoveltyRecord;
  saves : list (list NoveltyRecord)
}.
Arguments mk {S}.
Arguments storage {S}.
Arguments halfLifeDays {S}.
Arguments minScore {S}.
Arguments cache {S}.
Arguments pendingUpdates {S}.
Arguments saves {S}.

(** [x || d] on an optional number. *)
Definition orR (x : option R) (d : R) : R :=
  match x with
  | Some r => if Req_dec_T r 0 then d else r
  | None => d
  end.

Definition orZ (x : option Z) (d : Z) : Z :=
  match x with
  | Some z => if (z =? 0)%Z then d else z
  | None => d
  end.

(** [{ ...existing, lastSeen: now, seenCount: (existing.seenCount || 1) + 1 }] *)
Definition updatedRecord (now : Z) (existing : NoveltyRecord) : NoveltyRecord :=
  {| itemId := itemId existing;
     firstSeen := firstSeen existing;
     lastSeen := Some now;
     seenCount := Some (orZ (seenCount existing) 1 + 1)%Z;
     recTitle := recTitle existing;
     recSource := recSource existing |}.

(** [{ itemId, firstSeen: now, lastSeen: now, seenCount: 1, ...metadata }] *)
Definition newRecord (now : Z) (itemId : string) (metadata : CallerMetadata) : NoveltyRecord :=
  {| itemId := default itemId (cmItemId metadata);
     firstSeen := default (Some now) (cmFirstSeen metadata);
     lastSeen := default (Some now) (cmLastSeen metadata);
     seenCount := default (Some 1%Z) (cmSeenCount metadata);
     recTitle := cmTitle metadata;
     recSource := cmSource metadata |}.

Section WithStorage.
Context {S : Type} `{!StorageAdapter S}.

(** [new NoveltyTracker({ storage, halfLifeDays, minScore })] *)
Definition new (storage : S) (halfLifeDays minScore : option R) : t S :=
  mk storage (orR halfLifeDays DEFAULT_HALF_LIFE_DAYS) (orR minScore MIN_NOVELTY_SCORE)
     ∅ [] [].

Definition loadBatch (itemIds : list string) (tr : t S) : Result () * t S :=
  match itemIds with
  | [] => (Ok (), tr)
  | _ =>
      match load itemIds (storage tr) with
      | (Err msg, s') =>
          (Err msg, mk s' (halfLifeDays tr) (minScore tr) (cache tr) (pendingUpdates tr) (saves tr))
      | (Ok noveltyData, s') =>
          (Ok (), mk s' (halfLifeDays tr) (minScore tr) (noveltyData ∪ cache tr)
                     (pendingUpdates tr) (saves tr))
      end
  end.

(** [now] is the reading of [new Date()]. *)
Definition getNoveltyScore (now : Z) (itemId : string) (tr : t S) : R :=
  match cache tr !! itemId with
  | None => 1
  | Some data =>
      match firstSeen data with
      | None => 1
      | Some firstSeen =>
          let daysSinceFirstSeen := (IZR (now - firstSeen) / MS_PER_DAY)%R in
          let decayRate := (ln 2 / halfLifeDays tr)%R in
          let novelty := exp (- decayRate * daysSinceFirstSeen) in
          Rmax (minScore tr) novelty
      end
  end.

Definition hasSeen (itemId : string) (tr : t S) : bool :=
  bool_decide (is_Some (cache tr !! itemId)).

Definition markSeen (now : Z) (itemId : string) (metadata : CallerMetadata) (tr : t S) : t S :=
  match cache tr !! itemId with
  | Some existing =>
      let updated := updatedRecord now existing in
      mk (storage tr) (halfLifeDays tr) (minScore tr)
         (<[itemId := updated]> (cache tr))
         (JsMap.set itemId updated (pendingUpdates tr)) (saves tr)
  | None =>
      let newRecord := newRecord now itemId metadata in
      mk (storage tr) (halfLifeDays tr) (minScore tr)
         (<[itemId := newRecord]> (cache tr))
         (JsMap.set itemId newRecord (pendingUpdates tr)) (saves tr)
  end.

Definition flush (tr : t S) : Result () * t S :=
  if (JsMap.size (pendingUpdates tr) =? 0)%nat then (Ok (), tr)
  else
    let records := JsMap.values (pendingUpdates tr) in
    match save records (storage tr) with
    | (Err msg, s') =>
        (Err msg, mk s' (halfLifeDays tr) (minScore tr) (cache tr) (pendingUpdates tr)
                     (saves tr ++ [records]))
    | (Ok _, s') =>
        (Ok (), mk s' (halfLifeDays tr) (minScore tr) (cache tr) [] (saves tr ++ [records]))
    end.

(** [processItems(items)]; the scores come back as a [Map].  [clock k]
    is the k-th reading of the system clock, [tick] the number of readings
    taken so far: [getNoveltyScore] takes one for a record with a first
    sighting, [markSeen] always takes one. *)
Fixpoint processLoop (clock : nat → Z) (items : list Item) (scores : JsMap.t R) (tick : nat)
    (tr : t S) : JsMap.t R * nat * t S :=
  match items with
  | [] => (scores, tick, tr)
  | item :: rest =>
      let novelty := getNoveltyScore (clock tick) (id item) tr in
      let tick1 :=
        match cache tr !! id item ≫= firstSeen with Some _ => Datatypes.S tick | None => tick end in
      let tr' :=
        markSeen (clock tick1) (id item)
          (titleAndSource {| mdTitle := Some (title item); mdSource := source item |}) tr in
      processLoop clock rest (JsMap.set (id item) novelty scores) (Datatypes.S tick1) tr'
  end.

Definition processItems (clock : nat → Z) (tick : nat) (items : list Item) (tr : t S) :
    JsMap.t R * nat * t S :=
  processLoop clock items [] tick tr.

(** [getStats()]; [now] is the reading of [new Date()].  A record without
    a first sighting is counted in the total only. *)
Record Stats : Type := {
  total : nat;
  newToday : nat;
  newThisWeek : nat;
  pendingCount : nat   (* the field [pendingUpdates] *)
}.

Definition firstSeenAfter (cutoff : Z) (data : NoveltyRecord) : bool :=
  match firstSeen data with
  | Some t => bool_decide (cutoff < t)%Z
  | None => false
  end.

Definition getStats (now : Z) (tr : t S) : Stats :=
  let oneDayAgo := (now - 24 * 60 * 60 * 1000)%Z in
  let oneWeekAgo := (now - 7 * 24 * 60 * 60 * 1000)%Z in
  let records := (map_to_list (cache tr)).*2 in
  {| total := size (cache tr);
     newToday := length (List.filter (firstSeenAfter oneDayAgo) records);
     newThisWeek := length (List.filter (firstSeenAfter oneWeekAgo) records);
     pendingCount := JsMap.size (pendingUpdates tr) |}.

End WithStorage.

End NoveltyTracker.

(** ** scoring.js *)

(** [Math.round]: the nearest integer, a tie goes up. *)
Definition Math_round (x : R) : R := IZR (Int_part (x + / 2)).

(** [a || b] on optional values whose present values are truthy. *)
Definition orElse {A} (a b : option A) : option A :=
  match a with Some _ => a | None => b end.

(** The property key an optional source indexes with. *)
Definition sourceKey (source : option string) : string := default "undefined" source.

Definition CONFIDENCE_SCORES : gmap string R :=
  list_to_map [("high", 100%R); ("medium", 70%R); ("low", 40%R)].

Definition DEFAULT_ENGAGEMENT_BASELINES : gmap string (gmap string R) :=
  list_to_map
    [("github", list_to_map [("stars", 1000%R); ("forks", 100%R)]);
     ("hackernews", list_to_map [("points", 100%R); ("comments", 50%R)]);
     ("reddit", list_to_map [("score", 100%R); ("comments", 50%R)]);
     ("arxiv", list_to_map [("citations", 10%R)]);
     ("lobsters", list_to_map [("score", 20%R); ("comments", 10%R)]);
     ("devto", list_to_map [("reactions", 50%R); ("comments", 20%R)]);
     ("huggingface", list_to_map [("likes", 100%R); ("downloads", 1000%R)]);
     ("producthunt", list_to_map [("votes", 200%R); ("comments", 50%R)])].

Definition DEFAULT_BASELINE : gmap string R :=
  list_to_map
    [("stars", 1%R); ("forks", 1%R); ("points", 1%R); ("comments", 1%R);
     ("score", 1%R); ("reactions", 1%R); ("likes", 1%R); ("downloads", 1%R);
     ("votes", 1%R); ("citations", 1%R)].

Definition calculateRecencyScore (now : Z) (timestamp : option Z) (halfLifeDays : R) : R :=
  match timestamp with
  | None => 50
  | Some itemDate =>
      let ageMs := IZR (now - itemDate) in
      let ageDays := (ageMs / (1000 * 60 * 60 * 24))%R in
      let decayRate := (ln 2 / halfLifeDays)%R in
      let score := (100 * exp (- decayRate * ageDays))%R in
      Rmax 0 (Rmin 100 score)
  end.

(** [meta[field]] for the timestamp-valued metadata fields. *)
Definition metaTimestamp (field : string) (meta : Metadata) : option Z :=
  if bool_decide (field = "pushed_at") then pushed_at meta
  else if bool_decide (field = "updated_at") then updated_at meta
  else if bool_decide (field = "created_at") then created_at meta
  else if bool_decide (field = "published") then published meta
  else None.

Definition getRelevantTimestamp (item : Item) (timestampFields : gmap string (list string)) :
    option Z :=
  let meta := metadata item in
  let custom :=
    match timestampFields !! sourceKey (source item) with
    | Some fields =>
        list_find (λ o : option Z, is_Some o) ((λ field, metaTimestamp field meta) <$> fields)
          ≫= snd
    | None => None
    end in
  match custom with
  | Some ts => Some ts
  | None =>
      match source item with
      | Some "github" => orElse (pushed_at meta) (orElse (updated_at meta) (fetched_at item))
      | Some "hackernews" => orElse (created_at meta) (fetched_at item)
      | Some "reddit" =>
          match created_utc meta with
          | Some s => if (s =? 0)%Z then fetched_at item else Some (s * 1000)%Z
          | None => fetched_at item
          end
      | Some "arxiv" => orElse (published meta) (fetched_at item)
      | _ => orElse (fetched_at item) (orElse (timestamp item) (date item))
      end
  end.

Definition getBaseline (source : option string) (customBaselines : gmap string (gmap string R)) :
    gmap string R :=
  let baseline :=
    default ∅ (orElse (customBaselines !! sourceKey source)
                      (DEFAULT_ENGAGEMENT_BASELINES !! sourceKey source)) in
  baseline ∪ DEFAULT_BASELINE.

(** A sub-score [Math.min(100, (value / baseline) * 50)] with
    [value = meta.x || 0].  A custom baseline may be 0: the quotient is
    then an infinity or NaN, and the minimum with 100 is 100 for a positive
    value, minus infinity for a negative one and NaN for 0. *)
Inductive SubScore : Type :=
  | Finite (r : R)
  | MinusInfinity
  | NotANumber.

Definition cappedRatio (value : option R) (baseline : gmap string R) (field : string) :
    SubScore :=
  let value := default 0%R value in
  match baseline !! field with
  | None => NotANumber
  | Some b =>
      if Req_dec_T b 0 then
        if Rlt_dec 0 value then Finite 100
        else if Rlt_dec value 0 then MinusInfinity
        else NotANumber
      else Finite (Rmin 100 (value / b * 50))
  end.

(** [(a * wa) + (b * wb)] for positive weights [wa] and [wb]. *)
Definition weighted (a : SubScore) (wa : R) (b : SubScore) (wb : R) : SubScore :=
  match a, b with
  | Finite x, Finite y => Finite (x * wa + y * wb)
  | NotANumber, _ | _, NotANumber => NotANumber
  | _, _ => MinusInfinity
  end.

Definition truthyR (x : option R) : bool :=
  match x with
  | Some r => if Req_dec_T r 0 then false else true
  | None => false
  end.

Definition calculateEngagementScore (item : Item) (customBaselines : gmap string (gmap string R)) :
    R :=
  let meta := metadata item in
  let baseline := getBaseline (source item) customBaselines in
  let score :=
    match source item with
    | Some "github" =>
        let starScore := cappedRatio (stars meta) baseline "stars" in
        let forkScore := cappedRatio (forks meta) baseline "forks" in
        weighted starScore (7 / 10) forkScore (3 / 10)
    | Some "hackernews" =>
        let pointScore := cappedRatio (points meta) baseline "points" in
        let commentScore := cappedRatio (comments meta) baseline "comments" in
        weighted pointScore (6 / 10) commentScore (4 / 10)
    | Some "reddit" =>
        let upvoteScore := cappedRatio (score meta) baseline "score" in
        let commentScore := cappedRatio (comments meta) baseline "comments" in
        weighted upvoteScore (6 / 10) commentScore (4 / 10)
    | Some "lobsters" =>
        let pointScore := cappedRatio (score meta) baseline "score" in
        let commentScore := cappedRatio (comments meta) baseline "comments" in
        weighted pointScore (6 / 10) commentScore (4 / 10)
    | Some "devto" =>
        let reactionScore := cappedRatio (reactions meta) baseline "reactions" in
        let commentScore := cappedRatio (comments meta) baseline "comments" in
        weighted reactionScore (6 / 10) commentScore (4 / 10)
    | Some "huggingface" =>
        let likeScore := cappedRatio (likes meta) baseline "likes" in
        let downloadScore := cappedRatio (downloads meta) baseline "downloads" in
        weighted likeScore (5 / 10) downloadScore (5 / 10)
    | Some "producthunt" =>
        let voteScore := cappedRatio (votes meta) baseline "votes" in
        let commentScore := cappedRatio (comments meta) baseline "comments" in
        weighted voteScore (7 / 10) commentScore (3 / 10)
    | _ =>
        if truthyR (likes meta) || truthyR (reactions meta) || truthyR (upvotes meta) then
          let engagement :=
            if truthyR (likes meta) then default 0%R (likes meta)
            else if truthyR (reactions meta) then default 0%R (reactions meta)
            else default 0%R (upvotes meta) in
          Finite (Rmin 100 (engagement / 10))
        else Finite 50
    end in
  match score with
  | NotANumber => 50                   (* if (isNaN(score)) score = 50 *)
  | MinusInfinity => 0
  | Finite score => Rmax 0 (Rmin 100 score)
  end.

Record ScoringOptions : Type := {
  relevanceWeight : option R;
  recencyWeight : option R;
  engagementWeight : option R;
  engagementBaselines : gmap string (gmap string R);
  sortBy : option string
}.

Definition defaultScoringOptions : ScoringOptions :=
  {| relevanceWeight := None; recencyWeight := None; engagementWeight := None;
     engagementBaselines := ∅; sortBy := None |}.

Record ScoreBreakdown : Type := {
  relevance : R;
  recency : R;
  engagement : R
}.

(** [{ ...item, signalScore, scoreBreakdown }] *)
Record ScoredItem : Type := {
  scoredItem : Item;
  signalScore : R;
  scoreBreakdown : ScoreBreakdown
}.

(** The relevance term of the composite. *)
Definition relevanceOf (item : Item) : R :=
  match filter_result item ≫= relevance_score with
  | Some r => r
  | None =>
      let confidence := default "medium" (filter_result item ≫= confidence) in
      match CONFIDENCE_SCORES !! confidence with
      | Some s => s
      | None => 70%R
      end
  end.

(** The weighted sum handed to [Math.round]. *)
Definition weightedSum (wr wc we relevanceScore recencyScore engagementScore : R) : R :=
  (relevanceScore * wr + recencyScore * wc + engagementScore * we)%R.

(** [now] is the reading of [new Date()] in [calculateRecencyScore]. *)
Definition calculateSignalScore (now : Z) (item : Item) (options : ScoringOptions) : ScoredItem :=
  let relevanceWeight := default (45 / 100)%R (relevanceWeight options) in
  let recencyWeight := default (35 / 100)%R (recencyWeight options) in
  let engagementWeight := default (20 / 100)%R (engagementWeight options) in
  let relevanceScore := relevanceOf item in
  let timestamp := getRelevantTimestamp item ∅ in
  let recencyScore := calculateRecencyScore now timestamp 7 in
  let engagementScore := calculateEngagementScore item (engagementBaselines options) in
  let signalScore :=
    Math_round (weightedSum relevanceWeight recencyWeight engagementWeight
                            relevanceScore recencyScore engagementScore) in
  {| scoredItem := item;
     signalScore := signalScore;
     scoreBreakdown :=
       {| relevance := Math_round relevanceScore;
          recency := Math_round recencyScore;
          engagement := Math_round engagementScore |} |}.

(** [Array.prototype.sort] is stable; [cmp a b] is the sign test
    [comparator(a, b) > 0], that is, [a] goes after [b]. *)
Fixpoint insertSorted {A} (after : A → A → bool) (x : A) (l : list A) : list A :=
  match l with
  | [] => [x]
  | y :: l' => if after x y then y :: insertSorted after x l' else x :: l
  end.

Definition stableSort {A} (after : A → A → bool) (l : list A) : list A :=
  foldr (insertSorted after) [] l.

Definition descendingBy {A} (key : A → R) (a b : A) : bool :=
  if Rlt_dec (key a) (key b) then true else false.

(** [clock k] is the k-th reading of the system clock, [tick] the number
    of readings taken so far.  [calculateRecencyScore] and
    [getRecencyLabel] read the clock when they are given a timestamp. *)
Definition afterReading {A} (read : option A) (tick : nat) : nat :=
  match read with Some _ => S tick | None => tick end.

(** The recursion behind [signals.map(signal => calculateSignalScore(...))]. *)
Fixpoint scoreAll (clock : nat → Z) (tick : nat) (signals : list Item)
    (options : ScoringOptions) : list ScoredItem * nat :=
  match signals with
  | [] => ([], tick)
  | signal :: rest =>
      let scored := calculateSignalScore (clock tick) signal options in
      let '(more, tick') :=
        scoreAll clock (afterReading (getRelevantTimestamp signal ∅) tick) rest options in
      (scored :: more, tick')
  end.

Definition scoreAndSortSignals (clock : nat → Z) (tick : nat) (signals : list Item)
    (options : ScoringOptions) : list ScoredItem * nat :=
  let '(scoredSignals, tick') := scoreAll clock tick signals options in
  let key : ScoredItem → R :=
    match sortBy options with
    | Some "recency" => λ s, recency (scoreBreakdown s)
    | Some "engagement" => λ s, engagement (scoreBreakdown s)
    | Some "relevance" => λ s, relevance (scoreBreakdown s)
    | _ => signalScore
    end in
  (stableSort (descendingBy key) scoredSignals, tick').

(** [getRecencyLabel(timestamp)] *)
Definition floorString (x : R) : string := pretty (Int_part x).

Definition getRecencyLabel (now : Z) (timestamp : option Z) : string :=
  match timestamp with
  | None => "Unknown"
  | Some date =>
      let diffMs := IZR (now - date) in
      let diffHours := (diffMs / (1000 * 60 * 60))%R in
      let diffDays := (diffMs / (1000 * 60 * 60 * 24))%R in
      if Rlt_dec diffHours 1 then "Just now"
      else if Rlt_dec diffHours 24 then floorString diffHours +:+ "h ago"
      else if Rlt_dec diffDays 2 then "Yesterday"
      else if Rlt_dec diffDays 7 then floorString diffDays +:+ "d ago"
      else if Rlt_dec diffDays 14 then "Last week"
      else if Rlt_dec diffDays 30 then floorString (diffDays / 7) +:+ "w ago"
      else if Rlt_dec diffDays 60 then "Last month"
      else floorString (diffDays / 30) +:+ "mo ago"
  end.

(** [filterByTimeRange(signals, since)]; the signals are read as items,
    [since = None] is a missing argument and [now] the reading of
    [new Date()].  An item without a timestamp gives an invalid date, which
    no cutoff admits. *)
Definition cutoffOf (now : Z) (since : string) : option Z :=
  if bool_decide (since = "24h") then Some (now - 24 * 60 * 60 * 1000)%Z
  else if bool_decide (since = "7d") then Some (now - 7 * 24 * 60 * 60 * 1000)%Z
  else if bool_decide (since = "30d") then Some (now - 30 * 24 * 60 * 60 * 1000)%Z
  else None.

Definition notBefore (cutoff : Z) (signal : Item) : bool :=
  match getRelevantTimestamp signal ∅ with
  | Some timestamp => bool_decide (cutoff <= timestamp)%Z
  | None => false
  end.

Definition filterByTimeRange (now : Z) (signals : list Item) (since : option string) :
    list Item :=
  let since := default "all" since in
  if bool_decide (since = "all") then signals
  else
    match cutoffOf now since with
    | None => signals
    | Some cutoff => List.filter (notBefore cutoff) signals
    end.

(** ** filter.js *)

Definition DEFAULT_RELEVANCE_THRESHOLD : R := (30 / 100)%R.
Definition DEFAULT_NOVELTY_THRESHOLD : R := (5 / 10)%R.

Definition SIGNAL_TYPES : list string :=
  ["competitive"; "thesis-challenging"; "opportunity"; "technical"; "trend"].

Record KeywordSet : Type := {
  exact : list string;
  generic : list string
}.

(** An object whose keys are signal types, as [Object.entries] lists it. *)
Definition SignalKeywords : Type := list (string * KeywordSet).

Definition DEFAULT_SIGNAL_KEYWORDS : SignalKeywords :=
  [("competitive",
    {| exact := [];
       generic := ["competitor"; "alternative"; "similar to"; "competes with"] |});
   ("thesis-challenging",
    {| exact := [];
       generic := ["contradicts"; "challenges"; "disproves"; "questions"] |});
   ("opportunity",
    {| exact := [];
       generic := ["pain point"; "frustration"; "problem"; "gap"; "need"; "challenge";
                   "struggle"] |});
   ("technical",
    {| exact := [];
       generic := ["architecture"; "pattern"; "approach"; "implementation"; "method";
                   "framework"] |});
   ("trend",
    {| exact := [];
       generic := ["adoption"; "growth"; "rising"; "popular"; "trending"; "enterprise"] |})].

(** [[...new Set(l)]]: the first occurrence of each element stays. *)
Fixpoint uniqueFrom (seen l : list string) : list string :=
  match l with
  | [] => []
  | x :: l' =>
      if bool_decide (x ∈ seen) then uniqueFrom seen l'
      else x :: uniqueFrom (x :: seen) l'
  end.

Definition unique (l : list string) : list string := uniqueFrom [] l.

(** [obj[key]] on an object listed by its entries. *)
Definition entry {V} (key : string) (obj : list (string * V)) : option V :=
  snd <$> find (λ e, bool_decide (e.1 = key)) obj.

(** [haystack.indexOf(needle)] *)
Definition startsWith (needle hay : list ascii) : bool :=
  bool_decide (take (length needle) hay = needle).

Fixpoint indexOf (needle hay : list ascii) : option nat :=
  if startsWith needle hay then Some 0%nat
  else match hay with
       | [] => None
       | _ :: hay' => S <$> indexOf needle hay'
       end.

Definition includes (needle hay : string) : bool :=
  bool_decide (is_Some (indexOf (chars needle) (chars hay))).

(** [new RegExp(`\\b${keyword}\\b`, 'i').test(text)] for a keyword of
    lower-case letters and digits: some occurrence with a word boundary on
    either side.  The flag [i] compares characters by their upper case;
    against the letters and digits of the keyword that is the comparison
    of the lower-cased text, no character of U+0080..U+00FF having an upper
    case among A-Z. *)
Definition charIsWord (cs : list ascii) (p : nat) : bool :=
  from_option is_word false (cs !! p).

Definition wordBoundary (cs : list ascii) (p : nat) : bool :=
  xorb (match p with O => false | S q => charIsWord cs q end) (charIsWord cs p).

Definition matchesWordAt (kw cs : list ascii) (p : nat) : bool :=
  wordBoundary cs p
  && bool_decide (toLowerChar <$> take (length kw) (drop p cs) = kw)
  && wordBoundary cs (p + length kw).

Definition regexWordTest (kw cs : list ascii) : bool :=
  existsb (matchesWordAt kw cs) (seq 0 (S (length cs))).

Definition charIsAlnum (cs : list ascii) (p : nat) : bool :=
  from_option is_alnum false (cs !! p).

(** The closure [hasKeyword] of [classifySignalType]. *)
Definition hasKeyword (text : string) (keyword : string) : bool :=
  let textLower := toLowerCase text in
  let keywordLower := toLowerCase keyword in
  let isAlphanumericOnly :=
    negb (bool_decide (keyword = "")) && forallb is_alnum (chars keyword) in
  if isAlphanumericOnly then regexWordTest (chars keywordLower) (chars text)
  else
    match indexOf (chars keywordLower) (chars textLower) with
    | None => false
    | Some idx =>
        let beforeOk :=
          match idx with O => true | S before => negb (charIsAlnum (chars text) before) end in
        let afterIdx := (idx + String.length keyword)%nat in
        let afterOk :=
          (String.length text <=? afterIdx)%nat || negb (charIsAlnum (chars text) afterIdx) in
        beforeOk && afterOk
    end.

Record Classification : Type := {
  type : string;
  keywordConfidence : string;
  matchedKeyword : option string;
  isWatched : bool
}.

(** One of the two [for ... of Object.entries(this.signalKeywords)] loops:
    the first entry, and in it the first keyword of the chosen list, that
    the text has. *)
Fixpoint firstKeywordMatch (pick : KeywordSet → list string) (text : string)
    (entries : SignalKeywords) : option (string * string) :=
  match entries with
  | [] => None
  | (signalType, keywords) :: rest =>
      match find (hasKeyword text) (pick keywords) with
      | Some keyword => Some (signalType, keyword)
      | None => firstKeywordMatch pick text rest
      end
  end.

(** A string in a condition: the empty string is falsy. *)
Definition truthyString (s : option string) : bool :=
  match s with
  | Some s => negb (bool_decide (s = ""))
  | None => false
  end.

Module FilterContext.

Record t : Type := mk {
  seenIds : gset string;
  contextKeywords : list string;
  signalKeywords : SignalKeywords;
  userGlobalKeywords : list string
}.

(** [new FilterContext({ existingIds })] *)
Definition new (existingIds : list string) : t :=
  mk (list_to_set existingIds) [] DEFAULT_SIGNAL_KEYWORDS [].

Definition markSeen (itemId : string) (c : t) : t :=
  mk ({[itemId]} ∪ seenIds c) (contextKeywords c) (signalKeywords c) (userGlobalKeywords c).

Definition getNoveltyScore (itemId : string) (c : t) : R :=
  if bool_decide (itemId ∈ seenIds c) then 0%R else 1%R.

(** [parsedKeywords] is the result of [parseContextForSignalKeywords]. *)
Definition setSignalKeywords (parsedKeywords : SignalKeywords)
    (userKeywords : gmap string (list string)) (c : t) : t :=
  let global := toLowerCase <$> default [] (userKeywords !! "global") in
  let keywords :=
    (λ type,
       let userExact := toLowerCase <$> default [] (userKeywords !! type) in
       (type,
        {| exact := unique (userExact ++ default [] (exact <$> entry type parsedKeywords));
           generic := default [] (generic <$> entry type parsedKeywords) |}))
      <$> SIGNAL_TYPES in
  mk (seenIds c) (contextKeywords c) keywords global.

Definition setContextKeywords (extracted : list string) (c : t) : t :=
  mk (seenIds c) extracted (signalKeywords c) (userGlobalKeywords c).

Definition classifySignalType (item : Item) (c : t) : Classification :=
  let text := itemText item in
  let matchedGlobalKeyword := find (hasKeyword text) (userGlobalKeywords c) in
  match firstKeywordMatch exact text (signalKeywords c) with
  | Some (signalType, keyword) =>
      {| type := signalType;
         keywordConfidence := "high";
         matchedKeyword := Some keyword;
         isWatched := bool_decide (is_Some matchedGlobalKeyword) |}
  | None =>
      match firstKeywordMatch generic text (signalKeywords c) with
      | Some (signalType, keyword) =>
          {| type := signalType;
             keywordConfidence :=
               if truthyString matchedGlobalKeyword then "high" else "medium";
             matchedKeyword :=
               if truthyString matchedGlobalKeyword then matchedGlobalKeyword
               else Some keyword;
             isWatched := bool_decide (is_Some matchedGlobalKeyword) |}
      | None =>
          if truthyString matchedGlobalKeyword then
            {| type := "technical";
               keywordConfidence := "high";
               matchedKeyword := matchedGlobalKeyword;
               isWatched := true |}
          else
            {| type := "technical";
               keywordConfidence := "low";
               matchedKeyword := None;
               isWatched := false |}
      end
  end.

(** [firstTitleWord] is the first match of [/\b[A-Za-z][a-z]{3,}\b/g] in
    the title, if any. *)
Definition extractTopic (firstTitleWord : string → option string) (item : Item) (c : t) :
    string :=
  let text := toLowerCase (itemText item) in
  match find (λ keyword, includes keyword text) (userGlobalKeywords c) with
  | Some keyword => keyword
  | None =>
      match find (λ keyword, includes keyword text) (contextKeywords c) with
      | Some keyword => keyword
      | None =>
          match firstTitleWord (title item) with
          | Some w => toLowerCase w
          | None => "your interests"
          end
      end
  end.

End FilterContext.

Definition getConfidence (relevance : R) : string :=
  if Rle_dec (6 / 10) relevance then "high"
  else if Rle_dec (45 / 100) relevance then "medium"
  else "low".

Definition generateReason (firstTitleWord : string → option string) (signalType : string)
    (item : Item) (filterCtx : FilterContext.t) : string :=
  let topic := FilterContext.extractTopic firstTitleWord item filterCtx in
  if bool_decide (signalType = "competitive") then
    "Potential competitor or adjacent tool in the " +:+ topic +:+ " space"
  else if bool_decide (signalType = "thesis-challenging") then
    "May challenge assumptions about " +:+ topic
  else if bool_decide (signalType = "opportunity") then
    "Potential opportunity in " +:+ topic
  else if bool_decide (signalType = "trend") then
    "Emerging trend in " +:+ topic
  else "Technical approach relevant to " +:+ topic.

(** The options of [filterItems]; [verbose] only switches logging on and is
    left out, as are the per-source statistics it prints. *)
Record FilterOptions (B : Type) : Type := {
  relevanceThreshold : option R;
  noveltyThreshold : option R;
  concurrency : option positive;
  userKeywords : gmap string (list string);
  noveltyTracker : option (NoveltyTracker.t B);
  embeddingContext : option EmbeddingContext.t;
  existingIds : list string
}.
Arguments relevanceThreshold {B}.
Arguments noveltyThreshold {B}.
Arguments concurrency {B}.
Arguments userKeywords {B}.
Arguments noveltyTracker {B}.
Arguments embeddingContext {B}.
Arguments existingIds {B}.

(** [{ ...item, score: item.signalScore, recencyLabel }] *)
Record Signal : Type := {
  scored : ScoredItem;
  signalValue : R;
  recencyLabel : string
}.

(** The objects a run works on, as they are when it ends: the embedding
    context and the tracker are the caller's (when supplied), the filter
    context is the run's own.  [runTick] counts the clock readings. *)
Record Run (B : Type) : Type := {
  runEmbedding : option EmbeddingContext.t;
  runTracker : option (NoveltyTracker.t B);
  runFilter : option FilterContext.t;
  runTick : nat
}.
Arguments Build_Run {B}.
Arguments runEmbedding {B}.
Arguments runTracker {B}.
Arguments runFilter {B}.
Arguments runTick {B}.

(** The state of the [for (const item of validItems)] loop. *)
Record Loop (B : Type) : Type := {
  loopTick : nat;
  loopTracker : option (NoveltyTracker.t B);
  loopFilter : FilterContext.t;
  filteredItems : list Item
}.
Arguments Build_Loop {B}.
Arguments loopTick {B}.
Arguments loopTracker {B}.
Arguments loopFilter {B}.
Arguments filteredItems {B}.

Section FilterItems.
Context {B : Type} `{!StorageAdapter B}.

(** The embedding capability and the system clock. *)
Variable sharedPipeline : string → Result Embedding.
Variable clock : nat → Z.

(** The regular-expression text mining of filter.js, kept abstract:
    [parseContextForSignalKeywords], [extractContextKeywords] and the
    title-word match of [extractTopic]. *)
Variable parseContextForSignalKeywords : string → SignalKeywords.
Variable extractContextKeywords : string → list string.
Variable firstTitleWord : string → option string.

Definition withFilterResult (item : Item) (fr : FilterResult) (at_ : Z) : Item :=
  {| id := id item; source := source item; title := title item;
     description := description item; metadata := metadata item;
     fetched_at := fetched_at item; timestamp := timestamp item; date := date item;
     filter_result := Some fr; filtered_at := Some at_ |}.

(** The body of the filter loop. *)
Definition filterStep (relevanceThreshold noveltyThreshold : R)
    (relevanceScores : gmap string R) (st : Loop B) (item : Item) : Loop B :=
  let relevance := default 0%R (relevanceScores !! id item) in
  let '(novelty, tracker', tick1) :=
    match loopTracker st with
    | Some tr =>
        let novelty := NoveltyTracker.getNoveltyScore (clock (loopTick st)) (id item) tr in
        (* getNoveltyScore reads the clock for a record with a first sighting *)
        let tick1 :=
          afterReading (NoveltyTracker.cache tr !! id item ≫= firstSeen) (loopTick st) in
        let tr' :=
          NoveltyTracker.markSeen (clock tick1) (id item)
            (titleAndSource {| mdTitle := Some (title item); mdSource := source item |}) tr in
        (novelty, Some tr', S tick1)
    | None => (FilterContext.getNoveltyScore (id item) (loopFilter st), None, loopTick st)
    end in
  let filterCtx := FilterContext.markSeen (id item) (loopFilter st) in
  let passesRelevance := bool_decide (relevanceThreshold <= relevance)%R in
  let passesNovelty :=
    match loopTracker st with
    | Some _ => bool_decide (noveltyThreshold <= novelty)%R
    | None => bool_decide (0 < novelty)%R
    end in
  if passesRelevance && passesNovelty then
    let classification := FilterContext.classifySignalType item filterCtx in
    let relevanceConfidence := getConfidence relevance in
    let reason := generateReason firstTitleWord (type classification) item filterCtx in
    let fr :=
      {| signal_type := type classification;
         confidence := Some relevanceConfidence;
         keyword_confidence := keywordConfidence classification;
         matched_keyword := matchedKeyword classification;
         is_watched := isWatched classification;
         reason := reason;
         relevance_score := Some (Math_round (relevance * 100));
         novelty_score := Math_round (novelty * 100) |} in
    {| loopTick := S tick1; loopTracker := tracker'; loopFilter := filterCtx;
       filteredItems := filteredItems st ++ [withFilterResult item fr (clock tick1)] |}
  else
    {| loopTick := tick1; loopTracker := tracker'; loopFilter := filterCtx;
       filteredItems := filteredItems st |}.

(** [scoredItems.map(item => ({ ...item, score, recencyLabel }))] *)
Fixpoint addLabels (tick : nat) (scoredItems : list ScoredItem) : list Signal * nat :=
  match scoredItems with
  | [] => ([], tick)
  | item :: rest =>
      let timestamp := getRelevantTimestamp (scoredItem item) ∅ in
      let label := getRecencyLabel (clock tick) timestamp in
      let '(more, tick') := addLabels (afterReading timestamp tick) rest in
      ({| scored := item; signalValue := signalScore item; recencyLabel := label |} :: more,
       tick')
  end.

(** [items = None] is a missing (or otherwise falsy) argument;
    [context = None] an argument that is not a string. *)
Definition filterItems (items : option (list Item)) (context : option string)
    (options : FilterOptions B) : Result (list Signal) * Run B :=
  let relevanceThreshold := default DEFAULT_RELEVANCE_THRESHOLD (relevanceThreshold options) in
  let noveltyThreshold := default DEFAULT_NOVELTY_THRESHOLD (noveltyThreshold options) in
  let concurrency := default 10%positive (concurrency options) in
  (* const startTime = Date.now() *)
  let tick0 := 1%nat in
  let untouched :=
    {| runEmbedding := embeddingContext options; runTracker := noveltyTracker options;
       runFilter := None; runTick := tick0 |} in
  match items with
  | None | Some [] => (Ok [], untouched)
  | Some items =>
      match context with
      | None | Some "" => (Err "Context must be a non-empty string", untouched)
      | Some context =>
          let validItems := filter (λ item, id item ≠ "") items in
          match validItems with
          | [] => (Ok [], untouched)
          | _ =>
              let embeddingCtx :=
                default (EmbeddingContext.new 1000) (embeddingContext options) in
              let filterCtx0 := FilterContext.new (existingIds options) in
              match EmbeddingContext.setContext sharedPipeline context embeddingCtx with
              | (Err msg, embeddingCtx) =>
                  (Err msg,
                   {| runEmbedding := Some embeddingCtx; runTracker := noveltyTracker options;
                      runFilter := Some filterCtx0; runTick := tick0 |})
              | (Ok _, embeddingCtx) =>
                  let filterCtx :=
                    FilterContext.setContextKeywords (extractContextKeywords context)
                      (FilterContext.setSignalKeywords
                         (parseContextForSignalKeywords context) (userKeywords options)
                         filterCtx0) in
                  let loaded :=
                    match noveltyTracker options with
                    | Some tr =>
                        let '(r, tr') := NoveltyTracker.loadBatch (id <$> validItems) tr in
                        (r, Some tr')
                    | None => (Ok (), None)
                    end in
                  match loaded with
                  | (Err msg, tracker) =>
                      (Err msg,
                       {| runEmbedding := Some embeddingCtx; runTracker := tracker;
                          runFilter := Some filterCtx; runTick := tick0 |})
                  | (Ok _, tracker) =>
                      match EmbeddingContext.batchRelevanceScores sharedPipeline validItems
                              concurrency embeddingCtx with
                      | (Err msg, embeddingCtx) =>
                          (Err msg,
                           {| runEmbedding := Some embeddingCtx; runTracker := tracker;
                              runFilter := Some filterCtx; runTick := tick0 |})
                      | (Ok relevanceScores, embeddingCtx) =>
                          let st :=
                            fold_left
                              (filterStep relevanceThreshold noveltyThreshold relevanceScores)
                              validItems
                              {| loopTick := tick0; loopTracker := tracker;
                                 loopFilter := filterCtx; filteredItems := [] |} in
                          let flushed :=
                            match loopTracker st with
                            | Some tr =>
                                let '(r, tr') := NoveltyTracker.flush tr in (r, Some tr')
                            | None => (Ok (), None)
                            end in
                          match flushed with
                          | (Err msg, tracker) =>
                              (Err msg,
                               {| runEmbedding := Some embeddingCtx; runTracker := tracker;
                                  runFilter := Some (loopFilter st);
                                  runTick := loopTick st |})
                          | (Ok _, tracker) =>
                              let '(scoredItems, tick1) :=
                                scoreAndSortSignals clock (loopTick st) (filteredItems st)
                                  {| relevanceWeight := None; recencyWeight := None;
                                     engagementWeight := None; engagementBaselines := ∅;
                                     sortBy := Some "score" |} in
                              let '(itemsWithLabels, tick2) := addLabels tick1 scoredItems in
                              (Ok itemsWithLabels,
                               {| runEmbedding := Some embeddingCtx; runTracker := tracker;
                                  runFilter := Some (loopFilter st); runTick := tick2 |})
                          end
                      end
                  end
              end
          end
      end
  end.

End FilterItems.

(** ** Drivers and reference definitions used by the statements below *)

(** A series of [markSeen] calls, each with its clock reading, id and
    metadata, in call order: with any metadata, and with the
    [{ title, source }] of the callers in the repository. *)
Definition markAllWith {B : Type} (calls : list (Z * string * CallerMetadata))
    (tr : NoveltyTracker.t B) : NoveltyTracker.t B :=
  fold_left (λ tr '(now, i, md), NoveltyTracker.markSeen now i md tr) calls tr.

Definition markAll {B : Type} (calls : list (Z * string * SeenMetadata))
    (tr : NoveltyTracker.t B) : NoveltyTracker.t B :=
  fold_left (λ tr '(now, i, md), NoveltyTracker.markSeen now i (titleAndSource md) tr) calls tr.


(** The composite as the specification words it: the weighted sum,
    rounded, then clamped to [0, 100]. *)
Definition composite_spec (wr wc we relevance recency engagement : R) : R :=
  Rmax 0 (Rmin 100 (Math_round (weightedSum wr wc we relevance recency engagement))).

(** Sample inputs. *)
Definition heavyRelevance : ScoringOptions :=
  {| relevanceWeight := Some 2%R; recencyWeight := None; engagementWeight := None;
     engagementBaselines := ∅; sortBy := None |}.

Definition bareItem (i : string) (text : string) : Item :=
  {| id := i; source := None; title := text; description := ""; metadata := noMetadata;
     fetched_at := None; timestamp := None; date := None; filter_result := None;
     filtered_at := None |}.

Definition freshTracker : NoveltyTracker.t MemoryStorageAdapter.t :=
  NoveltyTracker.new MemoryStorageAdapter.new None None.

(** The calls of a series that are made on the id [i]. *)
Definition callsOn {M : Type} (i : string) (calls : list (Z * string * M)) :
    list (Z * string * M) :=
  filter (λ c, c.1.2 = i) calls.

(** A record after further [markSeen] calls on its id, at the clock
    readings [later]. *)
Definition seenAgain (later : list Z) (r : NoveltyRecord) : NoveltyRecord :=
  fold_left (λ r now, NoveltyTracker.updatedRecord now r) later r.

(** Metadata that carries a [seenCount] of its own. *)
Definition countedMetadata (n : Z) : CallerMetadata :=
  {| cmTitle := None; cmSource := None; cmItemId := None; cmFirstSeen := None;
     cmLastSeen := None; cmSeenCount := Some (Some n) |}.

Definition sampleCall : Z * string * SeenMetadata := (1000%Z, "a", noSeenMetadata).

(** The filter contexts the class can be in: made by the constructor and
    changed by its methods only. *)
Inductive configured : FilterContext.t → Prop :=
  | configured_new existingIds :
      configured (FilterContext.new existingIds)
  | configured_markSeen itemId c :
      configured c → configured (FilterContext.markSeen itemId c)
  | configured_setSignalKeywords parsedKeywords userKeywords c :
      configured c → configured (FilterContext.setSignalKeywords parsedKeywords userKeywords c)
  | configured_setContextKeywords extracted c :
      configured c → configured (FilterContext.setContextKeywords extracted c).

(** A context that watches "Foo" as a trend, on top of the default
    generic keywords, and an item that also mentions an "alternative". *)
Definition fooContext : FilterContext.t :=
  FilterContext.setSignalKeywords DEFAULT_SIGNAL_KEYWORDS {["trend" := ["Foo"]]}
    (FilterContext.new []).

Definition fooItem : Item := bareItem "1" "An alternative to Foo".

(** A context whose only user keyword is the empty string, watched
    globally, and an item whose text begins with a bracket. *)
Definition emptyKeywordContext : FilterContext.t :=
  FilterContext.setSignalKeywords DEFAULT_SIGNAL_KEYWORDS {["global" := [""]]}
    (FilterContext.new []).

Definition untitledItem : Item := bareItem "1" "(untitled)".

(** A run set-up for the examples: a pipeline that embeds every text as
    the one-dimensional unit vector, a clock that stands still, the
    default keywords, no options, and a fresh tracker on memory storage. *)
Definition unitPipeline : string → Result Embedding := λ _, Ok [1%R].
Definition stillClock : nat → Z := λ _, 1000%Z.
Definition defaultKeywords : string → SignalKeywords := λ _, DEFAULT_SIGNAL_KEYWORDS.
Definition noContextKeywords : string → list string := λ _, [].
Definition noTitleWord : string → option string := λ _, None.

Definition noOptions : FilterOptions MemoryStorageAdapter.t :=
  {| relevanceThreshold := None; noveltyThreshold := None; concurrency := None;
     userKeywords := ∅; noveltyTracker := None; embeddingContext := None;
     existingIds := [] |}.

Definition trackedOptions : FilterOptions MemoryStorageAdapter.t :=
  {| relevanceThreshold := None; noveltyThreshold := None; concurrency := None;
     userKeywords := ∅; noveltyTracker := Some freshTracker; embeddingContext := None;
     existingIds := [] |}.

Definition sampleRun (items : option (list Item)) (context : option string)
    (options : FilterOptions MemoryStorageAdapter.t) :
    Result (list Signal) * Run MemoryStorageAdapter.t :=
  filterItems unitPipeline stillClock defaultKeywords noContextKeywords noTitleWord
    items context options.

(** A pipeline that fails on the text "bad" only, and an embedding
    context whose baseline has been set with it. *)
Definition failsOnBad : string → Result Embedding :=
  λ text, if bool_decide (text = "bad") then Err "embedding failed" else Ok [1%R].

Definition boundContext (cacheSize : nat) : EmbeddingContext.t :=
  (EmbeddingContext.setContext failsOnBad "ctx" (EmbeddingContext.new cacheSize)).2.

Definition goodAndBad : list Item := [bareItem "1" "good"; bareItem "2" "bad"].

(** How a suspended call relates to its item, given the keys the cache had
    when the group was started. *)
Definition startedFrom (sharedPipeline : string → Result Embedding) (keys : list string)
    (item : Item) (p : EmbeddingContext.PendingScore) : Prop :=
  let text := trim (itemText item) in
  match p with
  | EmbeddingContext.Rejected _ => False
  | EmbeddingContext.Resolved s => text = "" ∧ s = 0%R
  | EmbeddingContext.Embedding_ (EmbeddingContext.Hit _) => text ≠ "" ∧ hashString text ∈ keys
  | EmbeddingContext.Embedding_ (EmbeddingContext.Miss hash r) =>
      text ≠ "" ∧ hash = hashString text
      ∧ r = (EmbeddingContext._computeEmbedding sharedPipeline text).1
      ∧ hashString text ∉ keys
  end.

(** Whether a suspended call ends in a score. *)
Definition settles (p : EmbeddingContext.PendingScore) : bool :=
  match p with
  | EmbeddingContext.Rejected _ => false
  | EmbeddingContext.Resolved _ => true
  | EmbeddingContext.Embedding_ (EmbeddingContext.Hit _) => true
  | EmbeddingContext.Embedding_ (EmbeddingContext.Miss _ r) => is_ok r
  end.

(** The score an item has with respect to a cache: 0 for an empty text,
    otherwise the similarity to the vector cached under the key of its
    text. *)
Definition scoreIn (contextEmbedding : Embedding) (cache : JsMap.t Embedding) (item : Item)
    (s : R) : Prop :=
  let text := trim (itemText item) in
  (text = "" ∧ s = 0%R)
  ∨ (text ≠ ""
     ∧ ∃ e, JsMap.get (hashString text) cache = Some e
            ∧ s = cosineSimilarity contextEmbedding e).

Definition abaItems : list Item := [bareItem "1" "a"; bareItem "2" "b"; bareItem "3" "a"].
Definition twins : list Item := [bareItem "1" "a"; bareItem "2" "a"].

(** The cache key of an item's text. *)
Definition textKey (item : Item) : string := hashString (trim (itemText item)).

(** The successive groups [items.slice(i, i + concurrency)] of the batch
    loop. *)
Fixpoint groupsOf (fuel : nat) (concurrency : positive) (items : list Item) :
    list (list Item) :=
  match fuel, items with
  | _, [] => []
  | O, _ => []
  | S fuel', _ =>
      take (Pos.to_nat concurrency) items
      :: groupsOf fuel' concurrency (drop (Pos.to_nat concurrency) items)
  end.

(** No two items of the group with a text have the same cache key. *)
Definition distinctKeys (group : list Item) : Prop :=
  NoDup (textKey <$> filter (λ item, trim (itemText item) ≠ "") group).

(** What starting a call on [item] yields on a cache with the entries of
    [c], and the texts it hands to the pipeline. *)
Definition startOf (sharedPipeline : string → Result Embedding) (c : EmbeddingContext.t)
    (item : Item) : string * EmbeddingContext.PendingScore :=
  let text := trim (itemText item) in
  (id item,
   if bool_decide (text = "") then EmbeddingContext.Resolved 0
   else match JsMap.get (hashString text) (LRUCache.cache (EmbeddingContext.cache c)) with
        | Some e => EmbeddingContext.Embedding_ (EmbeddingContext.Hit e)
        | None =>
            EmbeddingContext.Embedding_
              (EmbeddingContext.Miss (hashString text)
                 (EmbeddingContext._computeEmbedding sharedPipeline text).1)
        end).

Definition requestedBy (sharedPipeline : string → Result Embedding) (c : EmbeddingContext.t)
    (item : Item) : list string :=
  let text := trim (itemText item) in
  if bool_decide (text = "") then []
  else match JsMap.get (hashString text) (LRUCache.cache (EmbeddingContext.cache c)) with
       | Some _ => []
       | None => (EmbeddingContext._computeEmbedding sharedPipeline text).2
       end.

(** The keys of the suspended calls that missed the cache. *)
Definition missKey (ip : string * EmbeddingContext.PendingScore) : option string :=
  match ip.2 with
  | EmbeddingContext.Embedding_ (EmbeddingContext.Miss hash _) => Some hash
  | _ => None
  end.

(** What a suspended call settles to, on the entries the cache has in the
    end. *)
Definition outcome (contextEmbedding : Embedding) (entries : JsMap.t Embedding)
    (p : EmbeddingContext.PendingScore) (r : Result R) : Prop :=
  match p with
  | EmbeddingContext.Rejected msg => r = Err msg
  | EmbeddingContext.Resolved s => r = Ok s
  | EmbeddingContext.Embedding_ (EmbeddingContext.Hit e) =>
      r = Ok (cosineSimilarity contextEmbedding e)
  | EmbeddingContext.Embedding_ (EmbeddingContext.Miss hash (Ok e)) =>
      r = Ok (cosineSimilarity contextEmbedding e) ∧ JsMap.get hash entries = Some e
  | EmbeddingContext.Embedding_ (EmbeddingContext.Miss _ (Err msg)) => r = Err msg
  end.

Definition abacItems : list Item :=
  [bareItem "1" "a"; bareItem "2" "b"; bareItem "3" "a"; bareItem "4" "c"].

(** ** Further drivers *)

(** The operations of the vector cache, and a series of them. *)
Inductive LRUOp : Type :=
  | OpGet (key : string)
  | OpSet (key : string) (value : Embedding)
  | OpClear.

Definition runOp (c : LRUCache.t) (op : LRUOp) : LRUCache.t :=
  match op with
  | OpGet key => (LRUCache.get key c).2
  | OpSet key value => LRUCache.set key value c
  | OpClear => LRUCache.clear c
  end.

Definition runOps (ops : list LRUOp) (c : LRUCache.t) : LRUCache.t :=
  fold_left runOp ops c.

(** A pipeline that tells texts apart by their first letter. *)
Definition byFirstLetter : string → Result Embedding :=
  λ text, match text with
          | String "A" _ => Ok [1%R; 0%R]
          | _ => Ok [0%R; 1%R]
          end.

(** The dot product of two vectors, over the indices both have, and the
    squared length of a vector. *)
Fixpoint dotOf (a b : Embedding) : R :=
  match a, b with
  | x :: a', y :: b' => (x * y + dotOf a' b')%R
  | _, _ => 0%R
  end.

Definition sumSquares (a : Embedding) : R := dotOf a a.

(** A text of 2000 characters. *)
Definition longText : string := String.string_of_list_ascii (replicate 2000 "x"%char).

(** The key [scoreAndSortSignals] sorts by, for each value of [sortBy]. *)
Definition sortKeyOf (sortBy : option string) : ScoredItem → R :=
  match sortBy with
  | Some "recency" => λ s, recency (scoreBreakdown s)
  | Some "engagement" => λ s, engagement (scoreBreakdown s)
  | Some "relevance" => λ s, relevance (scoreBreakdown s)
  | _ => signalScore
  end.

(** A repository with twice the baseline engagement of its source. *)
Definition githubAtTwiceBaseline : Item :=
  {| id := "repo"; source := Some "github"; title := "repo"; description := "";
     metadata :=
       {| pushed_at := None; updated_at := None; created_at := None; created_utc := None;
          published := None; stars := Some 2000%R; forks := Some 200%R; points := None;
          comments := None; score := None; reactions := None; likes := None;
          downloads := None; votes := None; upvotes := None |};
     fetched_at := None; timestamp := None; date := None; filter_result := None;
     filtered_at := None |}.

(** ** novelty.js: the persistent adapters

    [LocalStorageAdapter] and [FileStorageAdapter] keep the records in a
    [Map] that is read from the store on first use and written back by
    every [save]; their [load] and [save] are the same code, up to the
    default of [maxEntries] (5000 and 10000) and to what a failing read
    or write does.  The store is present by the answers of its read and
    write only (the JSON text is not modelled); [LocalStorageAdapter],
    which catches every failure of the store, is modelled once its data
    is loaded. *)
Module LocalStorageAdapter.

Definition DEFAULT_MAX_ENTRIES : nat := 5000.

Record t : Type := mk {
  maxEntries : nat;
  data : JsMap.t NoveltyRecord
}.

(** [new LocalStorageAdapter(key, { maxEntries })], with the data the
    store holds. *)
Definition new (maxEntries : nat) (data : JsMap.t NoveltyRecord) : t :=
  mk (if (maxEntries =? 0)%nat then DEFAULT_MAX_ENTRIES else maxEntries) data.

Definition load (itemIds : list string) (s : t) : Result (gmap string NoveltyRecord) * t :=
  (Ok (fold_left (λ (result : gmap string NoveltyRecord) i,
                    match JsMap.get i (data s) with
                    | Some r => <[i := r]> result
                    | None => result
                    end) itemIds ∅), s).

(** [new Date(r.lastSeen || r.firstSeen).getTime()]; [None] is the NaN of a
    record without either. *)
Definition seenTime (r : NoveltyRecord) : option Z := orElse (lastSeen r) (firstSeen r).

(** The comparator [(a, b) => aTime - bTime] is positive. *)
Definition later (a b : string * NoveltyRecord) : bool :=
  match seenTime a.2, seenTime b.2 with
  | Some aTime, Some bTime => bool_decide (bTime < aTime)%Z
  | _, _ => false
  end.

(** The pruning step of [save]. *)
Definition prune (maxEntries : nat) (data : JsMap.t NoveltyRecord) : JsMap.t NoveltyRecord :=
  if (maxEntries <? JsMap.size data)%nat then
    let entries := stableSort later data in
    let toRemove := take (length entries - maxEntries) entries in
    fold_left (λ d e, JsMap.delete e.1 d) toRemove data
  else data.

(** [save]: a failure of [localStorage.setItem] is caught and logged. *)
Definition save (records : list NoveltyRecord) (s : t) : Result () * t :=
  let data1 := fold_left (λ d record, JsMap.set (itemId record) record d) records (data s) in
  (Ok (), mk (maxEntries s) (prune (maxEntries s) data1)).

End LocalStorageAdapter.

Module FileStorageAdapter.

Definition DEFAULT_MAX_ENTRIES : nat := 10000.

(** [data] is [None] until the first use.  [readFile] is what reading and
    parsing the file gives, [Ok None] standing for the error ENOENT of a
    file that does not exist; [writeFile data] is what
    [fs.writeFile(this.filePath, ...)] answers when it is given the JSON
    text of [data]. *)
Record t : Type := mk {
  maxEntries : nat;
  data : option (JsMap.t NoveltyRecord);
  readFile : Result (option (JsMap.t NoveltyRecord));
  writeFile : JsMap.t NoveltyRecord → Result ()
}.

(** [new FileStorageAdapter(filePath, { maxEntries })] *)
Definition new (maxEntries : nat) (readFile : Result (option (JsMap.t NoveltyRecord)))
    (writeFile : JsMap.t NoveltyRecord → Result ()) : t :=
  mk (if (maxEntries =? 0)%nat then DEFAULT_MAX_ENTRIES else maxEntries) None readFile
     writeFile.

(** [_ensureLoaded]: a missing file gives an empty map, any other error is
    thrown again.  Returns the data as well. *)
Definition _ensureLoaded (s : t) : Result (JsMap.t NoveltyRecord) * t :=
  match data s with
  | Some d => (Ok d, s)
  | None =>
      match readFile s with
      | Ok parsed =>
          let d := default [] parsed in
          (Ok d, mk (maxEntries s) (Some d) (readFile s) (writeFile s))
      | Err msg => (Err msg, s)
      end
  end.

Definition load (itemIds : list string) (s : t) : Result (gmap string NoveltyRecord) * t :=
  match _ensureLoaded s with
  | (Err msg, s') => (Err msg, s')
  | (Ok d, s') =>
      (Ok (fold_left (λ (result : gmap string NoveltyRecord) i,
                        match JsMap.get i d with
                        | Some r => <[i := r]> result
                        | None => result
                        end) itemIds ∅), s')
  end.

(** [save]: the records are set and the data pruned, by the code of
    [LocalStorageAdapter.save], before the awaited write; the promise is
    rejected when the write fails. *)
Definition save (records : list NoveltyRecord) (s : t) : Result () * t :=
  match _ensureLoaded s with
  | (Err msg, s') => (Err msg, s')
  | (Ok d, _) =>
      let data1 := fold_left (λ d record, JsMap.set (itemId record) record d) records d in
      let data2 := LocalStorageAdapter.prune (maxEntries s) data1 in
      (writeFile s data2, mk (maxEntries s) (Some data2) (readFile s) (writeFile s))
  end.

Definition clear (s : t) : Result () * t :=
  (writeFile s [], mk (maxEntries s) (Some []) (readFile s) (writeFile s)).

End FileStorageAdapter.

#[export] Instance localStorage : StorageAdapter LocalStorageAdapter.t :=
  {| load := LocalStorageAdapter.load; save := LocalStorageAdapter.save |}.

#[export] Instance fileStorage : StorageAdapter FileStorageAdapter.t :=
  {| load := FileStorageAdapter.load; save := FileStorageAdapter.save |}.

(** A file that does not exist yet; a file that can be written, and one
    that cannot. *)
Definition noFile : Result (option (JsMap.t NoveltyRecord)) := Ok None.

Definition writable : JsMap.t NoveltyRecord → Result () := λ _, Ok ().
Definition readOnly : JsMap.t NoveltyRecord → Result () :=
  λ _, Err "EACCES: permission denied".

(** Three records, seen at 300, 100 and 200. *)
Definition seenAt (i : string) (t : Z) : NoveltyRecord :=
  {| itemId := i; firstSeen := Some t; lastSeen := Some t; seenCount := Some 1%Z;
     recTitle := None; recSource := None |}.

Definition threeRecords : list NoveltyRecord :=
  [seenAt "a" 300; seenAt "b" 100; seenAt "c" 200].

(** ** filter.js: [escapeRegExp]

    [str.replace(/[...]/g, '\\$&')]: a backslash goes in front of every
    character of the class, which holds the characters special in a
    regular expression. *)
Definition backslash : ascii := "092"%char.

Definition regexSpecial (c : ascii) : bool :=
  bool_decide (c ∈ chars ".*+?^${}()|[]" ++ [backslash]).

Definition escapeRegExp (str : string) : string :=
  String.string_of_list_ascii
    (flat_map (λ c, if regexSpecial c then [backslash; c] else [c]) (chars str)).

(** ** embeddings.js: context points

    [embedContextPoints] finds the points of the context document by
    regular expressions, which are not modelled; [contextPoints] below is
    what it has stored in the context ([None] before it is called). *)
Record ContextPoint : Type := {
  pointText : string;
  pointType : string;
  pointEmbedding : Embedding
}.

Definition MIN_POINT_MATCH_SCORE : R := (35 / 100)%R.

(** The double quote of the messages. *)
Definition quote : string := String "034"%char "".

(** The loop over the points: the best score so far starts at 0 and only
    a strictly better point takes over. *)
Definition bestPoint (itemEmbedding : Embedding) (points : list ContextPoint) :
    option ContextPoint * R :=
  fold_left
    (λ '(bestMatch, bestScore) point,
       let score := cosineSimilarity itemEmbedding (pointEmbedding point) in
       if Rlt_dec bestScore score then (Some point, score) else (bestMatch, bestScore))
    points (None, 0%R).

Definition pointMessage (bestMatch : ContextPoint) : string :=
  if bool_decide (pointType bestMatch = "question") then
    "May help answer: " +:+ quote +:+ pointText bestMatch +:+ quote
  else if bool_decide (pointType bestMatch = "building") then
    "Relevant to " +:+ pointText bestMatch
  else "Matches your interest: " +:+ quote +:+ pointText bestMatch +:+ quote.

(** [findBestMatchingPoint(item)]; reading a property of a [null]
    [bestMatch] would be a TypeError. *)
Definition findBestMatchingPoint (sharedPipeline : string → Result Embedding)
    (contextPoints : option (list ContextPoint)) (item : Item) (c : EmbeddingContext.t) :
    Result (option string) * EmbeddingContext.t :=
  match contextPoints with
  | None | Some [] => (Ok None, c)
  | Some points =>
      let text := trim (itemText item) in
      if bool_decide (text = "") then (Ok None, c)
      else
        match EmbeddingContext.embed sharedPipeline text c with
        | (Err msg, c') => (Err msg, c')
        | (Ok itemEmbedding, c') =>
            let '(bestMatch, bestScore) := bestPoint itemEmbedding points in
            if Rlt_dec bestScore MIN_POINT_MATCH_SCORE then (Ok None, c')
            else
              match bestMatch with
              | Some point => (Ok (Some (pointMessage point)), c')
              | None => (Err "TypeError: Cannot read properties of null", c')
              end
        end
  end.

(** A point about Rust, embedded like every text by [unitPipeline]. *)
Definition rustPoint : ContextPoint :=
  {| pointText := "Is Rust ready?"; pointType := "question"; pointEmbedding := [1%R] |}.

(** A metric that is absent or 0, its field having a baseline other than
    0 for the source of the item; and a metric that is positive and at
    least twice the baseline of its field, a baseline of 0 included. *)
Definition withoutEngagement (item : Item) (customBaselines : gmap string (gmap string R))
    (value : option R) (field : string) : Prop :=
  default 0%R value = 0%R
  ∧ ∃ b, getBaseline (source item) customBaselines !! field = Some b ∧ b ≠ 0%R.

Definition saturated (item : Item) (customBaselines : gmap string (gmap string R))
    (value : option R) (field : string) : Prop :=
  ∃ v b, value = Some v
         ∧ getBaseline (source item) customBaselines !! field = Some b
         ∧ (0 <= b)%R ∧ (0 < v)%R ∧ (2 * b <= v)%R.

(** * Properties *)

(** ** Numbers *)

Lemma Math_round_eq (x : R) (n : Z) :
  (IZR n <= x + / 2 < IZR n + 1)%R → Math_round x = IZR n.
Proof.
  intros [Hlo Hhi]. unfold Math_round. f_equal. symmetry.
  apply Int_part_spec. lra.
Qed.

Lemma clamp_range (lo hi x : R) : (lo <= hi)%R → (lo <= Rmax lo (Rmin hi x) <= hi)%R.
Proof.
  intros Hle. unfold Rmax, Rmin.
  repeat destruct (Rle_dec _ _); lra.
Qed.

(** ** scoring.js *)

Lemma calculateRecencyScore_range now timestamp halfLifeDays :
  (0 <= calculateRecencyScore now timestamp halfLifeDays <= 100)%R.
Proof.
  unfold calculateRecencyScore. destruct timestamp; [apply clamp_range|]; lra.
Qed.

Lemma calculateEngagementScore_range item customBaselines :
  (0 <= calculateEngagementScore item customBaselines <= 100)%R.
Proof.
  unfold calculateEngagementScore.
  match goal with
  | |- context [match ?score with Finite _ => _ | MinusInfinity => _ | NotANumber => _ end] =>
      destruct score
  end; [apply clamp_range| |]; lra.
Qed.

(** C2, at its failing input: with [relevanceWeight = 2], an item without
    relevance score, timestamp or engagement data has the weighted sum
    [70*2 + 50*0.35 + 50*0.20 = 167.5], whatever the clock reads; the code
    returns the composite 168, which is not in [0, 100], where the
    composite of the claim, rounded and then clamped, is 100. *)
Theorem calculateSignalScore_not_clamped (now : Z) :
  signalScore (calculateSignalScore now (bareItem "a" "t") heavyRelevance) = 168%R
  ∧ composite_spec 2 (35 / 100) (20 / 100) 70 50 50 = 100%R
  ∧ ¬ (0 <= signalScore (calculateSignalScore now (bareItem "a" "t") heavyRelevance) <= 100)%R.
Proof.
  assert (Math_round (weightedSum 2 (35 / 100) (20 / 100) 70 50 50) = 168%R) as Hround.
  { apply Math_round_eq. unfold weightedSum. lra. }
  assert (signalScore (calculateSignalScore now (bareItem "a" "t") heavyRelevance) = 168%R) as E.
  { unfold calculateSignalScore, calculateEngagementScore, relevanceOf.
    assert (getRelevantTimestamp (bareItem "a" "t") ∅ = None) as -> by reflexivity.
    simpl.
    assert (CONFIDENCE_SCORES !! "medium" = Some 70%R) as -> by reflexivity.
    assert (Rmax 0 (Rmin 100 50) = 50%R) as ->.
    { unfold Rmax, Rmin. repeat destruct (Rle_dec _ _); lra. }
    exact Hround. }
  split; [exact E|]. split.
  - unfold composite_spec. rewrite Hround.
    unfold Rmax, Rmin. repeat destruct (Rle_dec _ _); lra.
  - rewrite E. lra.
Qed.

(** ** novelty.js *)

Lemma ln_2_pos : (0 < ln 2)%R.
Proof. pose proof ln_lt_2. lra. Qed.

Lemma MS_PER_DAY_pos : (0 < MS_PER_DAY)%R.
Proof. unfold MS_PER_DAY. lra. Qed.


Section Decay.
Context {B : Type}.
Variable tr : NoveltyTracker.t B.
Variable i : string.



End Decay.


(** *** The insertion-ordered map *)

Lemma JsMap_get_set_eq {V} (k : string) (v : V) (m : JsMap.t V) :
  JsMap.get k (JsMap.set k v m) = Some v.
Proof.
  unfold JsMap.get. induction m as [|[k' v'] m IH]; simpl.
  - by rewrite bool_decide_eq_true_2.
  - destruct (bool_decide (k' = k)) eqn:E; simpl.
    + by rewrite bool_decide_eq_true_2.
    + by rewrite E.
Qed.

Lemma JsMap_get_set_ne {V} (k k' : string) (v : V) (m : JsMap.t V) :
  k' ≠ k → JsMap.get k' (JsMap.set k v m) = JsMap.get k' m.
Proof.
  intros Hne. unfold JsMap.get. induction m as [|[k0 v0] m IH]; simpl.
  - by rewrite bool_decide_eq_false_2.
  - destruct (bool_decide (k0 = k)) eqn:E; simpl.
    + apply bool_decide_eq_true_1 in E. subst k0.
      by rewrite !bool_decide_eq_false_2.
    + destruct (bool_decide (k0 = k')); [done | exact IH].
Qed.

Lemma JsMap_keys_set {V} (k j : string) (v : V) (m : JsMap.t V) :
  j ∈ JsMap.keys (JsMap.set k v m) ↔ j = k ∨ j ∈ JsMap.keys m.
Proof.
  unfold JsMap.keys. induction m as [|[k0 v0] m IH]; simpl.
  - set_solver.
  - destruct (bool_decide (k0 = k)) eqn:E; simpl.
    + apply bool_decide_eq_true_1 in E. set_solver.
    + set_solver.
Qed.

Lemma JsMap_NoDup_set {V} (k : string) (v : V) (m : JsMap.t V) :
  NoDup (JsMap.keys m) → NoDup (JsMap.keys (JsMap.set k v m)).
Proof.
  unfold JsMap.keys. induction m as [|[k0 v0] m IH]; simpl; intros Hnd.
  - apply NoDup_singleton.
  - apply NoDup_cons in Hnd as [Hnotin Hnd].
    destruct (bool_decide (k0 = k)) eqn:E; simpl.
    + apply bool_decide_eq_true_1 in E. subst k0. by apply NoDup_cons.
    + apply bool_decide_eq_false_1 in E. apply NoDup_cons. split; [|by apply IH].
      intros Hin. apply (JsMap_keys_set k k0 v m) in Hin. naive_solver.
Qed.

Lemma JsMap_get_elem {V} (k : string) (v : V) (m : JsMap.t V) :
  JsMap.get k m = Some v → (k, v) ∈ m.
Proof.
  unfold JsMap.get. induction m as [|[k0 v0] m IH]; simpl; [done|].
  destruct (bool_decide (k0 = k)) eqn:E; simpl.
  - apply bool_decide_eq_true_1 in E. intros [= ->]. subst. apply list_elem_of_here.
  - intros H. apply list_elem_of_further. by apply IH.
Qed.

Lemma JsMap_elem_get {V} (k : string) (v : V) (m : JsMap.t V) :
  NoDup (JsMap.keys m) → (k, v) ∈ m → JsMap.get k m = Some v.
Proof.
  unfold JsMap.get, JsMap.keys. induction m as [|[k0 v0] m IH]; simpl; intros Hnd Hin.
  - by apply elem_of_nil in Hin.
  - apply NoDup_cons in Hnd as [Hnotin Hnd].
    apply elem_of_cons in Hin as [[= -> ->]|Hin].
    + by rewrite bool_decide_eq_true_2.
    + destruct (bool_decide (k0 = k)) eqn:E; simpl; [|by apply IH].
      apply bool_decide_eq_true_1 in E. subst k0. exfalso. apply Hnotin.
      apply list_elem_of_fmap. by exists (k, v).
Qed.

Lemma JsMap_get_None {V} (k : string) (m : JsMap.t V) :
  JsMap.get k m = None ↔ k ∉ JsMap.keys m.
Proof.
  unfold JsMap.get, JsMap.keys. induction m as [|[k0 v0] m IH]; simpl.
  - set_solver.
  - destruct (bool_decide (k0 = k)) eqn:E; simpl.
    + apply bool_decide_eq_true_1 in E. set_solver.
    + apply bool_decide_eq_false_1 in E. rewrite IH. set_solver.
Qed.

(** *** The novelty tracker *)

Section TrackerFacts.
Context {B : Type} `{!StorageAdapter B}.

Lemma markAllWith_snoc (calls : list (Z * string * CallerMetadata)) now i md
    (tr : NoveltyTracker.t B) :
  markAllWith (calls ++ [(now, i, md)]) tr
  = NoveltyTracker.markSeen now i md (markAllWith calls tr).
Proof. unfold markAllWith. by rewrite fold_left_app. Qed.

Lemma markAll_snoc (calls : list (Z * string * SeenMetadata)) now i md
    (tr : NoveltyTracker.t B) :
  markAll (calls ++ [(now, i, md)]) tr
  = NoveltyTracker.markSeen now i (titleAndSource md) (markAll calls tr).
Proof. unfold markAll. by rewrite fold_left_app. Qed.

Lemma markSeen_cache_other now i j md (tr : NoveltyTracker.t B) :
  j ≠ i →
  NoveltyTracker.cache (NoveltyTracker.markSeen now i md tr) !! j = NoveltyTracker.cache tr !! j.
Proof.
  intros Hne. unfold NoveltyTracker.markSeen.
  destruct (NoveltyTracker.cache tr !! i); simpl; by rewrite lookup_insert_ne.
Qed.

Lemma markSeen_cache_new now i md (tr : NoveltyTracker.t B) :
  NoveltyTracker.cache tr !! i = None →
  NoveltyTracker.cache (NoveltyTracker.markSeen now i (titleAndSource md) tr) !! i
  = Some {| itemId := i; firstSeen := Some now; lastSeen := Some now; seenCount := Some 1%Z;
            recTitle := mdTitle md; recSource := mdSource md |}.
Proof.
  intros Hnone. unfold NoveltyTracker.markSeen. rewrite Hnone. simpl.
  by rewrite lookup_insert_eq.
Qed.

Lemma markSeen_cache_existing now i md existing (tr : NoveltyTracker.t B) :
  NoveltyTracker.cache tr !! i = Some existing →
  NoveltyTracker.cache (NoveltyTracker.markSeen now i md tr) !! i
  = Some (NoveltyTracker.updatedRecord now existing).
Proof.
  intros Hsome. unfold NoveltyTracker.markSeen. rewrite Hsome. simpl.
  by rewrite lookup_insert_eq.
Qed.

(** The cache entry of [i] after any series of calls, starting without a
    record of [i]. *)
Lemma markAll_record (calls : list (Z * string * SeenMetadata)) (i : string)
    (tr : NoveltyTracker.t B) :
  NoveltyTracker.cache tr !! i = None →
  NoveltyTracker.cache (markAll calls tr) !! i
  = match callsOn i calls with
    | [] => None
    | (now0, _, md0) :: later =>
        Some {| itemId := i;
                firstSeen := Some now0;
                lastSeen := Some (default now0 (last later.*1.*1));
                seenCount := Some (1 + Z.of_nat (length later))%Z;
                recTitle := mdTitle md0;
                recSource := mdSource md0 |}
    end.
Proof.
  intros Hnone. induction calls as [|[[now j] md] calls IH] using rev_ind; [done|].
  rewrite markAll_snoc. unfold callsOn in *. rewrite filter_app.
  destruct (decide (j = i)) as [->|Hne].
  - rewrite (filter_cons_True _ _ []) by done. rewrite filter_nil.
    destruct (filter _ calls) as [|[[now0 j0] md0] later].
    + simpl. by apply markSeen_cache_new.
    + rewrite (markSeen_cache_existing _ _ _ _ _ IH). simpl. f_equal.
      unfold NoveltyTracker.updatedRecord, NoveltyTracker.orZ. simpl.
      rewrite !fmap_app, length_app. simpl. rewrite last_snoc. simpl.
      destruct (Z.eqb_spec (1 + Z.of_nat (length later)) 0); [lia|].
      f_equal. f_equal. lia.
  - rewrite (filter_cons_False _ _ []) by done. rewrite filter_nil, app_nil_r.
    by rewrite markSeen_cache_other.
Qed.

Lemma seenAgain_snoc (later : list Z) (now : Z) (r : NoveltyRecord) :
  seenAgain (later ++ [now]) r = NoveltyTracker.updatedRecord now (seenAgain later r).
Proof. unfold seenAgain. by rewrite fold_left_app. Qed.

(** The fields further calls leave alone, and the ones they set. *)
Lemma seenAgain_fields (later : list Z) (r : NoveltyRecord) :
  itemId (seenAgain later r) = itemId r
  ∧ firstSeen (seenAgain later r) = firstSeen r
  ∧ recTitle (seenAgain later r) = recTitle r
  ∧ recSource (seenAgain later r) = recSource r
  ∧ lastSeen (seenAgain later r) = from_option Some (lastSeen r) (last later).
Proof.
  induction later as [|now later IH] using rev_ind; [done|].
  rewrite seenAgain_snoc, last_snoc. simpl. by destruct IH as (-> & -> & -> & -> & _).
Qed.

(** A count that starts at 1 goes up by one with every call. *)
Lemma seenAgain_count (later : list Z) (r : NoveltyRecord) :
  seenCount r = Some 1%Z →
  seenCount (seenAgain later r) = Some (1 + Z.of_nat (length later))%Z.
Proof.
  intros Hone. induction later as [|now later IH] using rev_ind; [done|].
  rewrite seenAgain_snoc, length_app. simpl. rewrite IH.
  unfold NoveltyTracker.orZ. destruct (Z.eqb_spec (1 + Z.of_nat (length later)) 0); [lia|].
  f_equal. lia.
Qed.

(** The cache entry of [i] after any series of calls with any metadata,
    starting without a record of [i]: the record the first call on [i]
    makes, updated by the later ones. *)
Lemma markAllWith_record (calls : list (Z * string * CallerMetadata)) (i : string)
    (tr : NoveltyTracker.t B) :
  NoveltyTracker.cache tr !! i = None →
  NoveltyTracker.cache (markAllWith calls tr) !! i
  = match callsOn i calls with
    | [] => None
    | (now0, _, md0) :: later =>
        Some (seenAgain later.*1.*1 (NoveltyTracker.newRecord now0 i md0))
    end.
Proof.
  intros Hnone. induction calls as [|[[now j] md] calls IH] using rev_ind; [done|].
  rewrite markAllWith_snoc. unfold callsOn in *. rewrite filter_app.
  destruct (decide (j = i)) as [->|Hne].
  - rewrite (filter_cons_True _ _ []) by done. rewrite filter_nil.
    destruct (filter _ calls) as [|[[now0 j0] md0] later].
    + simpl. unfold NoveltyTracker.markSeen. rewrite IH. simpl. by rewrite lookup_insert_eq.
    + rewrite (markSeen_cache_existing _ _ _ _ _ IH). simpl. rewrite !fmap_app.
      change ([(now, i, md)].*1.*1) with [now]. by rewrite seenAgain_snoc.
  - rewrite (filter_cons_False _ _ []) by done. rewrite filter_nil, app_nil_r.
    by rewrite markSeen_cache_other.
Qed.

(** A record is never lost, and the fields a later call leaves alone stay
    as they are through any series of calls. *)
Lemma markAllWith_existing (calls : list (Z * string * CallerMetadata)) (i : string)
    (tr : NoveltyTracker.t B) (r : NoveltyRecord) :
  NoveltyTracker.cache tr !! i = Some r →
  ∃ r', NoveltyTracker.cache (markAllWith calls tr) !! i = Some r'
        ∧ itemId r' = itemId r ∧ firstSeen r' = firstSeen r
        ∧ recTitle r' = recTitle r ∧ recSource r' = recSource r.
Proof.
  intros Hr. induction calls as [|[[now j] md] calls (r' & Hr' & Hid & Hfirst & Ht & Hs)]
    using rev_ind; [by exists r|].
  rewrite markAllWith_snoc. destruct (decide (j = i)) as [->|Hne].
  - rewrite (markSeen_cache_existing _ _ _ _ _ Hr'). eexists. split; [reflexivity|]. done.
  - rewrite markSeen_cache_other by done. by exists r'.
Qed.

(** C5, as stated, fails: the metadata of the first call is spread over
    the new record, so a [seenCount] it carries replaces the fresh 1.
    With [{ seenCount: 5 }] two calls leave the count 6, not 2; and with
    [{ seenCount: 0 }] the second call takes the count from 0 to 2, not
    up by exactly 1. *)
Lemma markSeen_twice_counts_from_metadata :
  seenCount <$> NoveltyTracker.cache
                  (markAllWith [(1000%Z, "a", countedMetadata 5);
                                (2000%Z, "a", titleAndSource noSeenMetadata)] freshTracker)
                !! "a"
  = Some (Some 6%Z)
  ∧ seenCount <$> NoveltyTracker.cache
                    (markAllWith [(1000%Z, "a", countedMetadata 0)] freshTracker) !! "a"
    = Some (Some 0%Z)
  ∧ seenCount <$> NoveltyTracker.cache
                    (markAllWith [(1000%Z, "a", countedMetadata 0);
                                  (2000%Z, "a", titleAndSource noSeenMetadata)] freshTracker)
                  !! "a"
    = Some (Some 2%Z).
Proof. repeat split. Qed.

(** C5, amended: take any series of [markSeen] calls, with any metadata.
    A record of [i] that exists keeps its [firstSeen] (and its id, title
    and source) through the series, and one more [markSeen] on [i] keeps
    them too, sets [lastSeen] to its own reading and [seenCount] to
    [(seenCount || 1) + 1]: exactly one more than before when the count is
    a number other than 0.  On a tracker without a record of [i], the
    record after the series has the [firstSeen] the first call on [i] gave
    it -- its reading, unless its metadata carries a [firstSeen] -- and the
    reading of the last call on [i] as [lastSeen] when there are two calls
    or more; and when the metadata of the first call carries no
    [seenCount], the count is the number of calls on [i]. *)
Theorem markSeen_keeps_firstSeen (calls : list (Z * string * CallerMetadata)) (i : string)
    (tr : NoveltyTracker.t B) :
  (∀ r, NoveltyTracker.cache tr !! i = Some r →
        ∃ r', NoveltyTracker.cache (markAllWith calls tr) !! i = Some r'
              ∧ itemId r' = itemId r ∧ firstSeen r' = firstSeen r
              ∧ recTitle r' = recTitle r ∧ recSource r' = recSource r)
  ∧ (∀ r now md,
       NoveltyTracker.cache (markAllWith calls tr) !! i = Some r →
       NoveltyTracker.cache (NoveltyTracker.markSeen now i md (markAllWith calls tr)) !! i
       = Some {| itemId := itemId r;
                 firstSeen := firstSeen r;
                 lastSeen := Some now;
                 seenCount := Some (NoveltyTracker.orZ (seenCount r) 1 + 1)%Z;
                 recTitle := recTitle r;
                 recSource := recSource r |}
       ∧ ∀ n, seenCount r = Some n → n ≠ 0%Z →
              (NoveltyTracker.orZ (seenCount r) 1 + 1 = n + 1)%Z)
  ∧ (NoveltyTracker.cache tr !! i = None →
     match callsOn i calls with
     | [] => NoveltyTracker.cache (markAllWith calls tr) !! i = None
     | (now0, _, md0) :: later =>
         ∃ r, NoveltyTracker.cache (markAllWith calls tr) !! i = Some r
              ∧ firstSeen r = default (Some now0) (cmFirstSeen md0)
              ∧ (later ≠ [] → lastSeen r = last later.*1.*1)
              ∧ (cmSeenCount md0 = None →
                 seenCount r = Some (1 + Z.of_nat (length later))%Z)
     end).
Proof.
  split; [|split].
  - intros r Hr. by apply markAllWith_existing.
  - intros r now md Hr. rewrite (markSeen_cache_existing _ _ _ _ _ Hr). split; [done|].
    intros n -> Hn. unfold NoveltyTracker.orZ.
    by destruct (Z.eqb_spec n 0).
  - intros Hnone. rewrite (markAllWith_record calls i tr Hnone).
    destruct (callsOn i calls) as [|[[now0 j0] md0] later]; [done|].
    eexists. split; [reflexivity|].
    destruct (seenAgain_fields later.*1.*1 (NoveltyTracker.newRecord now0 i md0))
      as (_ & Hfirst & _ & _ & Hlast).
    split; [by rewrite Hfirst|]. split.
    + intros Hlater. rewrite Hlast.
      destruct (last later.*1.*1) eqn:E; [done|].
      apply last_None in E. by destruct later.
    + intros Hcount. rewrite seenAgain_count.
      * by rewrite !length_fmap.
      * simpl. by rewrite Hcount.
Qed.

End TrackerFacts.

Lemma markSeen_keeps_firstSeen_witness :
  ∃ r, NoveltyTracker.cache
         (markAllWith [(1000%Z, "a", titleAndSource noSeenMetadata);
                       (2000%Z, "a", titleAndSource noSeenMetadata)] freshTracker) !! "a"
       = Some r
       ∧ firstSeen r = Some 1000%Z ∧ lastSeen r = Some 2000%Z ∧ seenCount r = Some 2%Z.
Proof.
  destruct (markSeen_keeps_firstSeen
              [(1000%Z, "a", titleAndSource noSeenMetadata);
               (2000%Z, "a", titleAndSource noSeenMetadata)] "a" freshTracker)
    as (_ & _ & H).
  destruct (H eq_refl) as (r & Hr & Hfirst & Hlast & Hcount).
  exists r. split; [exact Hr|]. split; [exact Hfirst|].
  split; [apply Hlast; discriminate | apply Hcount; reflexivity].
Defined.

Section FlushFacts.
Context {B : Type} `{!StorageAdapter B}.

Lemma flush_nothing_pending (tr : NoveltyTracker.t B) :
  NoveltyTracker.pendingUpdates tr = [] → NoveltyTracker.flush tr = (Ok (), tr).
Proof. intros Hempty. unfold NoveltyTracker.flush. by rewrite Hempty. Qed.

Lemma flush_pending (tr : NoveltyTracker.t B) :
  NoveltyTracker.pendingUpdates tr ≠ [] →
  let records := JsMap.values (NoveltyTracker.pendingUpdates tr) in
  let sv := save records (NoveltyTracker.storage tr) in
  NoveltyTracker.flush tr
  = (sv.1,
     NoveltyTracker.mk sv.2 (NoveltyTracker.halfLifeDays tr) (NoveltyTracker.minScore tr)
       (NoveltyTracker.cache tr)
       (if is_ok sv.1 then [] else NoveltyTracker.pendingUpdates tr)
       (NoveltyTracker.saves tr ++ [records])).
Proof.
  intros Hne. unfold NoveltyTracker.flush, JsMap.size.
  destruct (NoveltyTracker.pendingUpdates tr) as [|e m] eqn:E; [done|]. simpl.
  destruct (save _ _) as [[[]|msg] s']; reflexivity.
Qed.

(** The pending set after a series of calls that starts with nothing
    pending: one entry per id touched, holding the cached record. *)
Lemma markAll_pending (calls : list (Z * string * SeenMetadata)) (tr : NoveltyTracker.t B) :
  NoveltyTracker.pendingUpdates tr = [] →
  NoDup (JsMap.keys (NoveltyTracker.pendingUpdates (markAll calls tr)))
  ∧ ∀ j, JsMap.get j (NoveltyTracker.pendingUpdates (markAll calls tr))
         = if bool_decide (j ∈ calls.*1.*2)
           then NoveltyTracker.cache (markAll calls tr) !! j else None.
Proof.
  intros Hempty. induction calls as [|[[now i] md] calls [IHnd IHget]] using rev_ind.
  - simpl. rewrite Hempty. split; [apply NoDup_nil_2 | done].
  - rewrite markAll_snoc. set (tr1 := markAll calls tr) in *.
    assert (∃ r, NoveltyTracker.pendingUpdates
                   (NoveltyTracker.markSeen now i (titleAndSource md) tr1)
                 = JsMap.set i r (NoveltyTracker.pendingUpdates tr1)
               ∧ NoveltyTracker.cache (NoveltyTracker.markSeen now i (titleAndSource md) tr1)
                 = <[i := r]> (NoveltyTracker.cache tr1)) as (r & -> & ->).
    { unfold NoveltyTracker.markSeen.
      destruct (NoveltyTracker.cache tr1 !! i); simpl; eauto. }
    split; [by apply JsMap_NoDup_set|].
    intros j. rewrite !fmap_app. simpl.
    destruct (decide (j = i)) as [->|Hne].
    + rewrite JsMap_get_set_eq, lookup_insert_eq.
      rewrite bool_decide_eq_true_2; [done|]. apply elem_of_app. right. apply list_elem_of_here.
    + rewrite JsMap_get_set_ne, lookup_insert_ne, IHget by done.
      assert (bool_decide (j ∈ calls.*1.*2 ++ [i]) = bool_decide (j ∈ calls.*1.*2)) as ->;
        [|done].
      apply bool_decide_ext. rewrite elem_of_app, list_elem_of_singleton. naive_solver.
Qed.

Lemma markAll_pending_nonempty (c : Z * string * SeenMetadata)
    (cs : list (Z * string * SeenMetadata)) (tr : NoveltyTracker.t B) :
  NoveltyTracker.pendingUpdates (markAll (c :: cs) tr) ≠ [].
Proof.
  induction cs as [|[[now i] md] cs IH] using rev_ind.
  - destruct c as [[now i] md]. simpl. unfold NoveltyTracker.markSeen.
    destruct (NoveltyTracker.cache tr !! i); simpl;
      by destruct (NoveltyTracker.pendingUpdates tr) as [|[? ?] ?]; simpl;
         try destruct (bool_decide _).
  - rewrite app_comm_cons, markAll_snoc. unfold NoveltyTracker.markSeen.
    destruct (NoveltyTracker.cache _ !! i); simpl;
      by destruct (NoveltyTracker.pendingUpdates _) as [|[? ?] ?]; simpl;
         try destruct (bool_decide _).
Qed.

(** C9: with nothing pending, [flush] changes nothing and makes no call of
    [save].  After a series of [markSeen] calls that started with nothing
    pending, [flush] calls [save] exactly once, with exactly the cached
    records of the ids touched by the series, one per id; when [save]
    succeeds the pending set is empty afterwards, and flushing again is a
    no-op. *)
Theorem flush_persists_touched (tr0 : NoveltyTracker.t B) (c : Z * string * SeenMetadata)
    (cs : list (Z * string * SeenMetadata)) :
  NoveltyTracker.pendingUpdates tr0 = [] →
  let tr := markAll (c :: cs) tr0 in
  let records := JsMap.values (NoveltyTracker.pendingUpdates tr) in
  let sv := save records (NoveltyTracker.storage tr) in
  NoveltyTracker.flush tr0 = (Ok (), tr0)
  ∧ NoveltyTracker.flush tr
    = (sv.1,
       NoveltyTracker.mk sv.2 (NoveltyTracker.halfLifeDays tr) (NoveltyTracker.minScore tr)
         (NoveltyTracker.cache tr)
         (if is_ok sv.1 then [] else NoveltyTracker.pendingUpdates tr)
         (NoveltyTracker.saves tr ++ [records]))
  ∧ (∀ r, r ∈ records ↔ ∃ j, j ∈ (c :: cs).*1.*2 ∧ NoveltyTracker.cache tr !! j = Some r)
  ∧ JsMap.keys (NoveltyTracker.pendingUpdates tr) ≡ₚ remove_dups (c :: cs).*1.*2
  ∧ (is_ok sv.1 = true →
     NoveltyTracker.flush (NoveltyTracker.flush tr).2 = (Ok (), (NoveltyTracker.flush tr).2)).
Proof.
  intros Hempty tr records sv.
  pose proof (flush_pending tr (markAll_pending_nonempty c cs tr0)) as Hflush.
  destruct (markAll_pending (c :: cs) tr0 Hempty) as [Hnd Hget]. fold tr in Hnd, Hget.
  split; [by apply flush_nothing_pending|]. split; [exact Hflush|]. split; [|split].
  - intros r. unfold records, JsMap.values. rewrite list_elem_of_fmap. split.
    + intros ([j r'] & -> & Hin). simpl. apply JsMap_elem_get in Hin; [|done].
      rewrite Hget in Hin. exists j. case_bool_decide; [done|discriminate].
    + intros (j & Hj & Hr). exists (j, r). split; [done|]. apply JsMap_get_elem.
      rewrite Hget. by rewrite bool_decide_eq_true_2.
  - apply NoDup_Permutation; [done | apply NoDup_remove_dups |].
    intros j. rewrite elem_of_remove_dups. specialize (Hget j).
    case_bool_decide as Hj.
    + split; [done|]. intros _.
      destruct (decide (j ∈ JsMap.keys (NoveltyTracker.pendingUpdates tr))) as [|Hn]; [done|].
      apply JsMap_get_None in Hn. rewrite Hn in Hget. symmetry in Hget.
      exfalso. revert Hj Hget. clear. unfold tr. intros Hj Hcache.
      induction cs as [|[[now i] md] cs IH] using rev_ind.
      * destruct c as [[now i] md]. simpl in *. apply list_elem_of_singleton in Hj as ->.
        unfold NoveltyTracker.markSeen in Hcache.
        destruct (NoveltyTracker.cache tr0 !! i); simpl in Hcache;
          by rewrite lookup_insert_eq in Hcache.
      * rewrite app_comm_cons, markAll_snoc in Hcache.
        destruct (decide (j = i)) as [->|Hne].
        -- unfold NoveltyTracker.markSeen in Hcache.
           destruct (NoveltyTracker.cache _ !! i); simpl in Hcache;
             by rewrite lookup_insert_eq in Hcache.
        -- rewrite markSeen_cache_other in Hcache by done. apply IH; [|done].
           rewrite app_comm_cons, !fmap_app, elem_of_app in Hj. simpl in Hj.
           destruct Hj as [Hj|Hj]; [done|]. by apply list_elem_of_singleton in Hj.
    + apply JsMap_get_None in Hget. naive_solver.
  - intros Hok. rewrite Hflush. simpl. apply flush_nothing_pending. simpl.
    unfold sv, records in Hok. by rewrite Hok.
Qed.

End FlushFacts.

Lemma flush_persists_touched_witness :
  NoveltyTracker.flush freshTracker = (Ok (), freshTracker)
  ∧ NoveltyTracker.saves (NoveltyTracker.flush (markAll [sampleCall] freshTracker)).2
    = [[ {| itemId := "a"; firstSeen := Some 1000%Z; lastSeen := Some 1000%Z;
            seenCount := Some 1%Z; recTitle := None; recSource := None |} ]].
Proof.
  destruct (flush_persists_touched freshTracker sampleCall []) as (H0 & H1 & _);
    [reflexivity|].
  split; [exact H0|]. rewrite H1. reflexivity.
Defined.

(** ** filter.js: the classifier *)

Lemma find_first {A} (f : A → bool) (l : list A) (x : A) :
  find f l = Some x →
  f x = true ∧ ∃ before after, l = before ++ x :: after ∧ ∀ y, y ∈ before → f y = false.
Proof.
  induction l as [|a l IH]; simpl; [done|].
  destruct (f a) eqn:E.
  - intros [= ->]. split; [done|]. exists [], l. split; [done|]. intros y Hy.
    by apply elem_of_nil in Hy.
  - intros Hfind. destruct (IH Hfind) as (Hx & before & after & -> & Hbefore).
    split; [done|]. exists (a :: before), after. split; [done|].
    intros y [->|Hy]%elem_of_cons; auto.
Qed.

Lemma find_none_iff {A} (f : A → bool) (l : list A) :
  find f l = None ↔ ∀ y, y ∈ l → f y = false.
Proof.
  induction l as [|a l IH]; simpl.
  - split; [|done]. intros _ y Hy. by apply elem_of_nil in Hy.
  - destruct (f a) eqn:E.
    + split; [done|]. intros H. rewrite H in E; [done|]. apply list_elem_of_here.
    + rewrite IH. split.
      * intros H y [->|Hy]%elem_of_cons; auto.
      * intros H y Hy. apply H. by apply list_elem_of_further.
Qed.

Section Classifier.
Variable pick : KeywordSet → list string.
Variable text : string.

Lemma firstKeywordMatch_first (entries : SignalKeywords) (signalType keyword : string) :
  firstKeywordMatch pick text entries = Some (signalType, keyword) →
  ∃ earlier keywords later,
    entries = earlier ++ (signalType, keywords) :: later
    ∧ (∀ e k, e ∈ earlier → k ∈ pick e.2 → hasKeyword text k = false)
    ∧ find (hasKeyword text) (pick keywords) = Some keyword.
Proof.
  induction entries as [|[ty ks] entries IH]; simpl; [done|].
  destruct (find (hasKeyword text) (pick ks)) as [kw|] eqn:E.
  - intros [= -> ->]. exists [], ks, entries. split; [done|]. split; [|done].
    intros e k He. by apply elem_of_nil in He.
  - intros Hrest. destruct (IH Hrest) as (earlier & keywords & later & -> & Hnone & Hfind).
    exists ((ty, ks) :: earlier), keywords, later. split; [done|]. split; [|done].
    intros e k [->|He]%elem_of_cons Hk; [|by eapply Hnone].
    simpl in Hk. by eapply find_none_iff in E.
Qed.

Lemma firstKeywordMatch_none (entries : SignalKeywords) :
  firstKeywordMatch pick text entries = None
  ↔ ∀ e k, e ∈ entries → k ∈ pick e.2 → hasKeyword text k = false.
Proof.
  induction entries as [|[ty ks] entries IH]; simpl.
  - split; [|done]. intros _ e k He. by apply elem_of_nil in He.
  - destruct (find (hasKeyword text) (pick ks)) as [kw|] eqn:E.
    + split; [done|]. intros H. apply find_first in E as (Hkw & before & after & Hl & _).
      rewrite (H (ty, ks) kw) in Hkw; [done | apply list_elem_of_here |].
      simpl. rewrite Hl. apply elem_of_app. right. apply list_elem_of_here.
    + rewrite IH. split.
      * intros H e k [->|He]%elem_of_cons Hk; [|by eapply H].
        simpl in Hk. by eapply find_none_iff in E.
      * intros H e k He. apply H. by apply list_elem_of_further.
Qed.

End Classifier.

Lemma configured_keys (c : FilterContext.t) :
  configured c → (FilterContext.signalKeywords c).*1 = SIGNAL_TYPES.
Proof. induction 1; try done. Qed.

(** C6: the exact keywords of all categories are tried before any generic
    keyword.  When some category has an exact keyword that the text has,
    the type returned is that of the first category, in listing order,
    with such a keyword, and the keyword reported is the first such
    keyword of that category, with high confidence; the generic keywords
    play no part. *)
Theorem classifySignalType_exact_first (item : Item) (c : FilterContext.t)
    (signalType : string) (keywords : KeywordSet) (keyword : string) :
  (signalType, keywords) ∈ FilterContext.signalKeywords c →
  keyword ∈ exact keywords →
  hasKeyword (itemText item) keyword = true →
  let r := FilterContext.classifySignalType item c in
  ∃ earlier winner later found,
    FilterContext.signalKeywords c = earlier ++ (type r, winner) :: later
    ∧ (∀ e k, e ∈ earlier → k ∈ exact e.2 → hasKeyword (itemText item) k = false)
    ∧ find (hasKeyword (itemText item)) (exact winner) = Some found
    ∧ found ∈ exact winner
    ∧ hasKeyword (itemText item) found = true
    ∧ matchedKeyword r = Some found
    ∧ keywordConfidence r = "high".
Proof.
  intros Hentry Hkw Hhas r. subst r. unfold FilterContext.classifySignalType.
  destruct (firstKeywordMatch exact (itemText item) (FilterContext.signalKeywords c))
    as [[ty found]|] eqn:E.
  - destruct (firstKeywordMatch_first _ _ _ _ _ E) as (earlier & winner & later & Hl & Hnone & Hf).
    exists earlier, winner, later, found. simpl.
    destruct (find_first _ _ _ Hf) as (Hfound & before & after & Hw & _).
    repeat split; try done. rewrite Hw. apply elem_of_app. right. apply list_elem_of_here.
  - exfalso. eapply firstKeywordMatch_none in E; [|exact Hentry|exact Hkw]. congruence.
Qed.

Lemma classifySignalType_exact_first_witness :
  type (FilterContext.classifySignalType fooItem fooContext) = "trend"
  ∧ keywordConfidence (FilterContext.classifySignalType fooItem fooContext) = "high"
  ∧ hasKeyword (itemText fooItem) "alternative" = true.
Proof.
  destruct (classifySignalType_exact_first fooItem fooContext "trend"
              {| exact := ["foo"];
                 generic := ["adoption"; "growth"; "rising"; "popular"; "trending";
                             "enterprise"] |} "foo")
    as (earlier & winner & later & found & _ & _ & _ & _ & _ & _ & Hconf).
  - vm_compute. do 4 apply list_elem_of_further. apply list_elem_of_here.
  - apply list_elem_of_here.
  - vm_compute. reflexivity.
  - split; [vm_compute; reflexivity|]. split; [exact Hconf | vm_compute; reflexivity].
Defined.

(** C7, as stated, fails: the empty string as a global keyword is found in
    a text that begins with a character other than a letter or digit; no
    category keyword matches, and the result is technical with low
    confidence, no keyword, not watched -- the conditions of the classifier
    test the matched keyword for truth, and the empty string is falsy. *)
Lemma classifySignalType_empty_global_keyword :
  find (hasKeyword (itemText untitledItem)) (FilterContext.userGlobalKeywords emptyKeywordContext)
  = Some ""
  ∧ forallb (λ e, forallb (λ k, negb (hasKeyword (itemText untitledItem) k))
                    (exact e.2 ++ generic e.2))
      (FilterContext.signalKeywords emptyKeywordContext) = true
  ∧ FilterContext.classifySignalType untitledItem emptyKeywordContext
    = {| type := "technical"; keywordConfidence := "low";
         matchedKeyword := None; isWatched := false |}.
Proof. vm_compute. repeat split. Qed.

(** C7, amended: in every context the class can be in, the type returned
    is one of the five signal types.  When the text has no exact and no
    generic keyword of any category: if the first user global keyword it
    has is not the empty string, the result is technical, high confidence,
    that keyword, watched; if that keyword is the empty string, or the
    text has no global keyword at all, the result is technical, low
    confidence, no keyword, not watched. *)
Theorem classifySignalType_total (item : Item) (c : FilterContext.t) :
  configured c →
  let r := FilterContext.classifySignalType item c in
  let text := itemText item in
  type r ∈ SIGNAL_TYPES
  ∧ ((∀ e k, e ∈ FilterContext.signalKeywords c → k ∈ exact e.2 ++ generic e.2 →
             hasKeyword text k = false) →
     (∀ g, find (hasKeyword text) (FilterContext.userGlobalKeywords c) = Some g → g ≠ "" →
           r = {| type := "technical"; keywordConfidence := "high";
                  matchedKeyword := Some g; isWatched := true |})
     ∧ (find (hasKeyword text) (FilterContext.userGlobalKeywords c) = Some "" →
        r = {| type := "technical"; keywordConfidence := "low";
               matchedKeyword := None; isWatched := false |})
     ∧ ((∀ g, g ∈ FilterContext.userGlobalKeywords c → hasKeyword text g = false) →
        r = {| type := "technical"; keywordConfidence := "low";
               matchedKeyword := None; isWatched := false |})).
Proof.
  intros Hc r text. pose proof (configured_keys c Hc) as Hkeys. split.
  - subst r. unfold FilterContext.classifySignalType.
    assert (∀ pick ty kw,
              firstKeywordMatch pick (itemText item) (FilterContext.signalKeywords c)
              = Some (ty, kw) → ty ∈ SIGNAL_TYPES) as Hin.
    { intros pick ty kw E.
      destruct (firstKeywordMatch_first _ _ _ _ _ E) as (earlier & ks & later & Hl & _).
      rewrite <- Hkeys, Hl, fmap_app. apply elem_of_app. right. apply list_elem_of_here. }
    destruct (firstKeywordMatch exact _ _) as [[ty kw]|] eqn:E1; [by eapply Hin|].
    destruct (firstKeywordMatch generic _ _) as [[ty kw]|] eqn:E2; [by eapply Hin|].
    destruct (truthyString _); simpl; by repeat constructor.
  - intros Hnone.
    assert (firstKeywordMatch exact text (FilterContext.signalKeywords c) = None) as E1.
    { apply firstKeywordMatch_none. intros e k He Hk. apply (Hnone e k He).
      apply elem_of_app. by left. }
    assert (firstKeywordMatch generic text (FilterContext.signalKeywords c) = None) as E2.
    { apply firstKeywordMatch_none. intros e k He Hk. apply (Hnone e k He).
      apply elem_of_app. by right. }
    subst r. unfold FilterContext.classifySignalType. fold text. rewrite E1, E2.
    split; [|split].
    + intros g Hg Hne. rewrite Hg. simpl. by rewrite bool_decide_eq_false_2.
    + intros Hg. by rewrite Hg.
    + intros Hglobal. apply find_none_iff in Hglobal. by rewrite Hglobal.
Qed.

Lemma classifySignalType_total_witness :
  FilterContext.classifySignalType (bareItem "1" "Nothing to see") (FilterContext.new [])
  = {| type := "technical"; keywordConfidence := "low";
       matchedKeyword := None; isWatched := false |}.
Proof.
  destruct (classifySignalType_total (bareItem "1" "Nothing to see") (FilterContext.new [])
              (configured_new [])) as [_ H].
  destruct H as (_ & _ & Hlow).
  - intros e k He Hk.
    assert (forallb (λ e, forallb (λ k, negb (hasKeyword "Nothing to see " k))
                            (exact e.2 ++ generic e.2)) DEFAULT_SIGNAL_KEYWORDS = true)
      as Hall by (vm_compute; reflexivity).
    rewrite forallb_forall in Hall. apply list_elem_of_In, Hall in He.
    rewrite forallb_forall in He. apply list_elem_of_In, He in Hk.
    by apply negb_true_iff in Hk.
  - apply Hlow. intros g Hg. by apply elem_of_nil in Hg.
Defined.

Section TouchedFacts.
Context {B : Type}.

Lemma markAll_cache_untouched (calls : list (Z * string * SeenMetadata)) (j : string)
    (tr : NoveltyTracker.t B) :
  j ∉ calls.*1.*2 →
  NoveltyTracker.cache (markAll calls tr) !! j = NoveltyTracker.cache tr !! j.
Proof.
  induction calls as [|[[now i] md] calls IH] using rev_ind; [done|].
  rewrite !fmap_app, not_elem_of_app. simpl. intros [Hcalls Hi].
  rewrite markAll_snoc, markSeen_cache_other; [by apply IH|].
  intros ->. apply Hi, list_elem_of_here.
Qed.

(** An id touched by a series of calls has a record afterwards; the
    record is pending, and its [lastSeen] is the reading of one of the
    calls. *)
Lemma markAll_touched (calls : list (Z * string * SeenMetadata)) (j : string)
    (tr : NoveltyTracker.t B) :
  j ∈ calls.*1.*2 →
  ∃ r now,
    NoveltyTracker.cache (markAll calls tr) !! j = Some r
    ∧ JsMap.get j (NoveltyTracker.pendingUpdates (markAll calls tr)) = Some r
    ∧ lastSeen r = Some now
    ∧ now ∈ calls.*1.*1.
Proof.
  induction calls as [|[[now i] md] calls IH] using rev_ind.
  - intros Hj. by apply elem_of_nil in Hj.
  - rewrite !fmap_app, markAll_snoc. simpl. intros Hj.
    destruct (decide (j = i)) as [->|Hne].
    + unfold NoveltyTracker.markSeen.
      destruct (NoveltyTracker.cache (markAll calls tr) !! i) as [existing|]; simpl;
        eexists _, now; rewrite lookup_insert_eq, JsMap_get_set_eq;
        (repeat split; [apply elem_of_app; right; apply list_elem_of_here]).
    + apply elem_of_app in Hj as [Hj|Hj]; [|by apply list_elem_of_singleton in Hj].
      destruct (IH Hj) as (r & now' & Hcache & Hpending & Hlast & Hin).
      exists r, now'. rewrite markSeen_cache_other by done.
      split; [done|]. split; [|split; [done|apply elem_of_app; by left]].
      unfold NoveltyTracker.markSeen.
      destruct (NoveltyTracker.cache (markAll calls tr) !! i); simpl;
        by rewrite JsMap_get_set_ne.
Qed.

(** When the id had no record before, [firstSeen] is the reading of one of
    the calls as well. *)
Lemma markAll_created (calls : list (Z * string * SeenMetadata)) (j : string)
    (tr : NoveltyTracker.t B) (r : NoveltyRecord) :
  NoveltyTracker.cache tr !! j = None →
  NoveltyTracker.cache (markAll calls tr) !! j = Some r →
  ∃ now0, firstSeen r = Some now0 ∧ now0 ∈ calls.*1.*1.
Proof.
  intros Hnone Hr. rewrite (markAll_record calls j tr Hnone) in Hr.
  destruct (callsOn j calls) as [|[[now0 j0] md0] later] eqn:E; [done|].
  injection Hr as <-. exists now0. split; [done|].
  assert ((now0, j0, md0) ∈ callsOn j calls) as Hin by (rewrite E; apply list_elem_of_here).
  unfold callsOn in Hin. apply list_elem_of_filter in Hin as [_ Hin].
  apply list_elem_of_fmap. exists (now0, j0). split; [done|].
  apply list_elem_of_fmap. by exists (now0, j0, md0).
Qed.

End TouchedFacts.

(** ** filter.js: the pipeline *)

(** C4, as stated, fails: without items the run does not fail, it returns
    the empty list, even when the context is not a string. *)
Lemma filterItems_no_items_is_no_error :
  (sampleRun (Some []) None noOptions).1 = Ok []
  ∧ (sampleRun None None noOptions).1 = Ok []
  ∧ is_ok (sampleRun (Some []) None noOptions).1 = true.
Proof. repeat split. Qed.

Section Pipeline.
Context {B : Type} `{!StorageAdapter B}.
Variable sharedPipeline : string → Result Embedding.
Variable clock : nat → Z.
Variable parseContextForSignalKeywords : string → SignalKeywords.
Variable extractContextKeywords : string → list string.
Variable firstTitleWord : string → option string.

Abbreviation run := (filterItems sharedPipeline clock parseContextForSignalKeywords
                   extractContextKeywords firstTitleWord).
Abbreviation step := (filterStep clock firstTitleWord).

(** C4, amended: with a missing or empty [items] argument [filterItems]
    returns the empty list at once, whatever the context is, and touches
    neither the embedding context nor the tracker; the run fails at once
    when there are items and the context is empty or not a string. *)
Theorem filterItems_without_items (context : option string) (options : FilterOptions B) :
  let untouched :=
    {| runEmbedding := embeddingContext options; runTracker := noveltyTracker options;
       runFilter := None; runTick := 1 |} in
  run None context options = (Ok [], untouched)
  ∧ run (Some []) context options = (Ok [], untouched)
  ∧ ∀ item items,
      run (Some (item :: items)) None options
      = (Err "Context must be a non-empty string", untouched)
      ∧ run (Some (item :: items)) (Some "") options
        = (Err "Context must be a non-empty string", untouched).
Proof. repeat split. Qed.

(** *** The filter loop *)

Lemma filterStep_tracker rt nt scores (st : Loop B) (item : Item) :
  ∃ k,
    loopTracker (step rt nt scores st item)
    = NoveltyTracker.markSeen (clock k) (id item)
        (titleAndSource {| mdTitle := Some (title item); mdSource := source item |})
      <$> loopTracker st.
Proof.
  unfold filterStep. destruct (loopTracker st) as [tr|]; simpl.
  - eexists. by destruct (_ && _).
  - exists 0. by destruct (_ && _).
Qed.

Lemma filterStep_seenIds rt nt scores (st : Loop B) (item : Item) :
  FilterContext.seenIds (loopFilter (step rt nt scores st item))
  = {[id item]} ∪ FilterContext.seenIds (loopFilter st).
Proof.
  unfold filterStep. destruct (loopTracker st); simpl; by destruct (_ && _).
Qed.

Lemma filterLoop_seenIds rt nt scores (items : list Item) (st : Loop B) :
  FilterContext.seenIds (loopFilter (fold_left (step rt nt scores) items st))
  = list_to_set (id <$> items) ∪ FilterContext.seenIds (loopFilter st).
Proof.
  revert st. induction items as [|item items IH]; intros st; simpl.
  - set_solver.
  - rewrite IH, filterStep_seenIds. set_solver.
Qed.

(** The loop makes one [markSeen] call per item, in item order, each with
    a reading of the clock. *)
Lemma filterLoop_tracker rt nt scores (items : list Item) (st : Loop B) :
  ∃ calls,
    loopTracker (fold_left (step rt nt scores) items st) = markAll calls <$> loopTracker st
    ∧ calls.*1.*2 = id <$> items
    ∧ ∀ now, now ∈ calls.*1.*1 → ∃ k, now = clock k.
Proof.
  revert st. induction items as [|item items IH]; intros st; simpl.
  - exists []. split; [by destruct (loopTracker st)|]. split; [done|].
    intros now Hnow. by apply elem_of_nil in Hnow.
  - destruct (IH (step rt nt scores st item)) as (calls & Htr & Hids & Hclock).
    destruct (filterStep_tracker rt nt scores st item) as [k Hstep].
    exists ((clock k, id item,
             {| mdTitle := Some (title item); mdSource := source item |}) :: calls).
    split; [|split].
    + rewrite Htr, Hstep. by destruct (loopTracker st).
    + by rewrite !fmap_cons, Hids.
    + rewrite !fmap_cons. intros now [->|Hnow]%elem_of_cons; eauto.
Qed.

(** C10: when a run completes, every item with a non-empty id -- whether or
    not it is among the signals returned -- is in the run's seen set; and
    with a tracker supplied it has a record in the tracker whose
    [lastSeen] is a clock reading of this run, which was handed to
    [storage.save] by the final flush; if the tracker had no record of it
    after [loadBatch], its [firstSeen] is a clock reading of this run as
    well. *)
Theorem filterItems_marks_every_valid_item (items : list Item) (context : option string)
    (options : FilterOptions B) (out : list Signal) (final : Run B) :
  run (Some items) context options = (Ok out, final) →
  ∀ item, item ∈ items → id item ≠ "" →
    (∃ fc, runFilter final = Some fc ∧ id item ∈ FilterContext.seenIds fc)
    ∧ ∀ tr0, noveltyTracker options = Some tr0 →
        ∃ tr r k,
          runTracker final = Some tr
          ∧ NoveltyTracker.cache tr !! id item = Some r
          ∧ lastSeen r = Some (clock k)
          ∧ (∃ records, last (NoveltyTracker.saves tr) = Some records ∧ r ∈ records)
          ∧ NoveltyTracker.pendingUpdates tr = []
          ∧ ∀ tr1,
              NoveltyTracker.loadBatch (id <$> filter (λ item, id item ≠ "") items) tr0
              = (Ok (), tr1) →
              NoveltyTracker.cache tr1 !! id item = None →
              ∃ k0, firstSeen r = Some (clock k0).
Proof.
  intros Hrun item Hin Hid.
  assert (item ∈ filter (λ item, id item ≠ "") items) as Hvalid.
  { by apply list_elem_of_filter. }
  unfold filterItems in Hrun.
  destruct items as [|first items']; [by apply elem_of_nil in Hin|].
  set (items := first :: items') in *.
  destruct context as [context|]; [|done].
  destruct context as [|a context']; [done|].
  set (context := String a context') in *.
  set (validItems := filter (λ item, id item ≠ "") items) in *.
  destruct validItems as [|v validItems'] eqn:Ev; [by apply elem_of_nil in Hvalid|].
  rewrite <- Ev in *. clear Ev.
  destruct (EmbeddingContext.setContext _ _ _) as [[e|msg] ectx]; [|done].
  set (rt := default DEFAULT_RELEVANCE_THRESHOLD (relevanceThreshold options)) in *.
  set (nt := default DEFAULT_NOVELTY_THRESHOLD (noveltyThreshold options)) in *.
  set (fc0 := FilterContext.setContextKeywords _ _) in *.
  assert (id item ∈ id <$> validItems) as Hidin.
  { apply list_elem_of_fmap. by exists item. }
  destruct (noveltyTracker options) as [tr0|] eqn:Etr.
  - destruct (NoveltyTracker.loadBatch (id <$> validItems) tr0) as [[[]|msg] tr1] eqn:Eload;
      [|done].
    destruct (EmbeddingContext.batchRelevanceScores _ _ _ _) as [[scores|msg] ectx2]; [|done].
    set (st0 := {| loopTick := 1; loopTracker := Some tr1; loopFilter := fc0;
                   filteredItems := [] |}) in *.
    pose proof (filterLoop_seenIds rt nt scores validItems st0) as Hseen.
    destruct (filterLoop_tracker rt nt scores validItems st0) as (calls & Htr & Hids & Hclock).
    set (st := fold_left (step rt nt scores) validItems st0) in *.
    simpl in Htr. rewrite Htr in Hrun.
    destruct (NoveltyTracker.flush (markAll calls tr1)) as [[[]|msg] tr2] eqn:Eflush; [|done].
    destruct (scoreAndSortSignals _ _ _ _) as [scoredItems tick1].
    destruct (addLabels _ _ _) as [itemsWithLabels tick2].
    injection Hrun as <- <-. simpl. split.
    + eexists. split; [done|]. rewrite Hseen. set_solver.
    + intros ? [= <-].
      rewrite <- Hids in Hidin.
      destruct (markAll_touched calls (id item) tr1 Hidin) as (r & now & Hr & Hp & Hl & Hnow).
      destruct (Hclock now Hnow) as [k ->].
      assert (NoveltyTracker.pendingUpdates (markAll calls tr1) ≠ []) as Hne.
      { intros Hnil. by rewrite Hnil in Hp. }
      rewrite (flush_pending _ Hne) in Eflush. injection Eflush as Hok <-.
      eexists _, r, k. simpl. split; [done|]. split; [done|]. split; [done|].
      split; [|split].
      * eexists. simpl. rewrite last_snoc. split; [done|].
        apply list_elem_of_fmap. exists (id item, r). split; [done|].
        by apply JsMap_get_elem.
      * simpl. by rewrite Hok.
      * intros tr1' Hload Hnone. rewrite Eload in Hload. injection Hload as <-.
        destruct (markAll_created calls (id item) tr1 r Hnone Hr) as (now0 & Hf & Hnow0).
        destruct (Hclock now0 Hnow0) as [k0 ->]. eauto.
  - destruct (EmbeddingContext.batchRelevanceScores _ _ _ _) as [[scores|msg] ectx2]; [|done].
    set (st0 := {| loopTick := 1; loopTracker := None; loopFilter := fc0;
                   filteredItems := [] |}) in *.
    pose proof (filterLoop_seenIds rt nt scores validItems st0) as Hseen.
    destruct (filterLoop_tracker rt nt scores validItems st0) as (calls & Htr & _).
    set (st := fold_left (step rt nt scores) validItems st0) in *.
    simpl in Htr. rewrite Htr in Hrun.
    destruct (scoreAndSortSignals _ _ _ _) as [scoredItems tick1].
    destruct (addLabels _ _ _) as [itemsWithLabels tick2].
    injection Hrun as <- <-. simpl. split; [|done].
    eexists. split; [done|]. rewrite Hseen. set_solver.
Qed.

End Pipeline.

(** ** embeddings.js *)

(** C1, as stated, fails: one item whose embedding fails makes the whole
    batch fail; no score comes back, neither a 0 for the failing item nor
    the score of the other one. *)
Lemma batchRelevanceScores_one_failure_aborts :
  (EmbeddingContext.batchRelevanceScores failsOnBad goodAndBad 10 (boundContext 1000)).1
  = Err "embedding failed"
  ∧ (EmbeddingContext.getRelevanceScore failsOnBad (bareItem "2" "bad") (boundContext 1000)).1
    = Err "embedding failed".
Proof. split; vm_compute; reflexivity. Qed.

(** *** Keys of the cache *)

Lemma JsMap_keys_delete {V} (k j : string) (m : JsMap.t V) :
  j ∈ JsMap.keys (JsMap.delete k m) ↔ j ∈ JsMap.keys m ∧ j ≠ k.
Proof.
  unfold JsMap.keys, JsMap.delete. rewrite !list_elem_of_fmap. split.
  - intros ([k' v] & -> & [Hne Hin]%list_elem_of_filter). split; [|done]. by exists (k', v).
  - intros [([k' v] & -> & Hin) Hne]. exists (k', v). split; [done|].
    by apply list_elem_of_filter.
Qed.

Lemma JsMap_has_keys {V} (k : string) (m : JsMap.t V) :
  JsMap.has k m = true ↔ k ∈ JsMap.keys m.
Proof. unfold JsMap.has, JsMap.keys. apply bool_decide_eq_true. Qed.

Lemma LRUCache_get_keys (k j : string) (c : LRUCache.t) :
  j ∈ JsMap.keys (LRUCache.cache (LRUCache.get k c).2) ↔ j ∈ JsMap.keys (LRUCache.cache c).
Proof.
  unfold LRUCache.get. destruct (JsMap.has k (LRUCache.cache c)) eqn:Ehas; simpl; [|done].
  destruct (JsMap.get k (LRUCache.cache c)) as [v|]; simpl; [|done].
  rewrite JsMap_keys_set, JsMap_keys_delete. apply JsMap_has_keys in Ehas.
  destruct (decide (j = k)) as [->|]; naive_solver.
Qed.

Lemma LRUCache_get_miss (k : string) (c : LRUCache.t) :
  k ∉ JsMap.keys (LRUCache.cache c) → LRUCache.get k c = (None, c).
Proof.
  intros Hk. unfold LRUCache.get.
  destruct (JsMap.has k (LRUCache.cache c)) eqn:Ehas; [|done].
  by apply JsMap_has_keys in Ehas.
Qed.

Lemma LRUCache_set_keys (k j : string) (v : Embedding) (c : LRUCache.t) :
  j ∈ JsMap.keys (LRUCache.cache (LRUCache.set k v c)) →
  j = k ∨ j ∈ JsMap.keys (LRUCache.cache c).
Proof.
  unfold LRUCache.set. simpl. rewrite JsMap_keys_set. intros [->|Hj]; [by left|]. right.
  destruct (JsMap.has k (LRUCache.cache c)).
  - by apply JsMap_keys_delete in Hj as [? _].
  - destruct (_ <=? _)%nat; [|done].
    assert (∀ l : list string,
              j ∈ JsMap.keys (match l with
                              | [] => LRUCache.cache c
                              | firstKey :: _ => JsMap.delete firstKey (LRUCache.cache c)
                              end) →
              j ∈ JsMap.keys (LRUCache.cache c)) as Hgen.
    { intros [|firstKey ?]; [done|]. by intros [? _]%JsMap_keys_delete. }
    by apply Hgen in Hj.
Qed.

Section Batch.
Variable sharedPipeline : string → Result Embedding.

Abbreviation computed text := (EmbeddingContext._computeEmbedding sharedPipeline text).1.
Abbreviation cacheKeys c := (JsMap.keys (LRUCache.cache (EmbeddingContext.cache c))).

(** What the synchronous part of a call leaves behind. *)
Lemma getRelevanceScore_start_spec (item : Item) (c : EmbeddingContext.t)
    (contextEmbedding : Embedding) :
  EmbeddingContext.contextEmbedding c = Some contextEmbedding →
  let text := trim (itemText item) in
  let '(p, c') := EmbeddingContext.getRelevanceScore_start sharedPipeline item c in
  EmbeddingContext.contextEmbedding c' = Some contextEmbedding
  ∧ (∀ j, j ∈ cacheKeys c' ↔ j ∈ cacheKeys c)
  ∧ match p with
    | EmbeddingContext.Rejected _ => False
    | EmbeddingContext.Resolved s => text = "" ∧ s = 0%R
    | EmbeddingContext.Embedding_ (EmbeddingContext.Hit _) =>
        text ≠ "" ∧ hashString text ∈ cacheKeys c
    | EmbeddingContext.Embedding_ (EmbeddingContext.Miss hash r) =>
        text ≠ "" ∧ hash = hashString text ∧ r = computed text
        ∧ hashString text ∉ cacheKeys c
    end.
Proof.
  intros Hctx text. unfold EmbeddingContext.getRelevanceScore_start. rewrite Hctx.
  fold text. case_bool_decide as Htext; [done|].
  unfold EmbeddingContext.embed_start.
  pose proof (LRUCache_get_keys (hashString text) (hashString text) (EmbeddingContext.cache c))
    as Hself.
  pose proof (λ j, LRUCache_get_keys (hashString text) j (EmbeddingContext.cache c)) as Hkeys.
  destruct (LRUCache.get (hashString text) (EmbeddingContext.cache c)) as [[cached|] cache']
    eqn:Eget; simpl in *.
  - split; [done|]. split; [done|]. split; [done|].
    destruct (decide (hashString text ∈ cacheKeys c)) as [|Hn]; [done|].
    by rewrite (LRUCache_get_miss _ _ Hn) in Eget.
  - destruct (EmbeddingContext._computeEmbedding sharedPipeline text) as [r requested] eqn:Ec.
    simpl. split; [done|]. split; [done|]. repeat split; try done.
    intros Hin. unfold LRUCache.get in Eget. apply JsMap_has_keys in Hin as Hhas.
    rewrite Hhas in Eget. simpl in Eget.
    destruct (JsMap.get _ _) eqn:Eg; [done|]. by apply JsMap_get_None in Eg.
Qed.

(** What the resumption does to the cache and what it returns. *)
Lemma getRelevanceScore_finish_spec (p : EmbeddingContext.PendingScore)
    (c : EmbeddingContext.t) :
  let '(r, c') := EmbeddingContext.getRelevanceScore_finish p c in
  EmbeddingContext.contextEmbedding c' = EmbeddingContext.contextEmbedding c
  ∧ EmbeddingContext.calls c' = EmbeddingContext.calls c
  ∧ match p with
    | EmbeddingContext.Rejected _ => is_ok r = false ∧ c' = c
    | EmbeddingContext.Resolved s => r = Ok s ∧ c' = c
    | EmbeddingContext.Embedding_ (EmbeddingContext.Hit _) => is_ok r = true ∧ c' = c
    | EmbeddingContext.Embedding_ (EmbeddingContext.Miss hash (Ok _)) =>
        is_ok r = true ∧ ∀ j, j ∈ cacheKeys c' → j = hash ∨ j ∈ cacheKeys c
    | EmbeddingContext.Embedding_ (EmbeddingContext.Miss _ (Err _)) => is_ok r = false ∧ c' = c
    end.
Proof.
  destruct p as [msg|s|[cached|hash [e|msg]]]; simpl; repeat split; try done.
  intros j. apply LRUCache_set_keys.
Qed.

Lemma startAll_spec (batch : list Item) (c : EmbeddingContext.t)
    (contextEmbedding : Embedding) :
  EmbeddingContext.contextEmbedding c = Some contextEmbedding →
  let '(ps, c') := EmbeddingContext.startAll sharedPipeline batch c in
  EmbeddingContext.contextEmbedding c' = Some contextEmbedding
  ∧ (∀ j, j ∈ cacheKeys c' ↔ j ∈ cacheKeys c)
  ∧ Forall2 (λ item ip, ip.1 = id item ∧ startedFrom sharedPipeline (cacheKeys c) item ip.2)
      batch ps.
Proof.
  revert c. induction batch as [|item batch IH]; intros c Hctx; simpl.
  - split; [done|]. split; [done|]. constructor.
  - pose proof (getRelevanceScore_start_spec item c _ Hctx) as Hstart.
    destruct (EmbeddingContext.getRelevanceScore_start sharedPipeline item c) as [p c1].
    destruct Hstart as (Hctx1 & Hkeys1 & Hp).
    specialize (IH c1 Hctx1).
    destruct (EmbeddingContext.startAll sharedPipeline batch c1) as [ps c2].
    destruct IH as (Hctx2 & Hkeys2 & Hps).
    split; [done|]. split; [intros j; by rewrite Hkeys2, Hkeys1|].
    constructor.
    + split; [done|]. unfold startedFrom. by destruct p as [|?|[|]].
    + eapply Forall2_impl; [exact Hps|]. intros item' [i p'] [Hi Hp']. split; [done|].
      simpl in *. unfold startedFrom in *.
      destruct p' as [|?|[|]]; try done; rewrite <- Hkeys1; done.
Qed.

Lemma finishAll_spec (ps : list (string * EmbeddingContext.PendingScore))
    (c : EmbeddingContext.t) :
  let '(rs, c') := EmbeddingContext.finishAll ps c in
  EmbeddingContext.contextEmbedding c' = EmbeddingContext.contextEmbedding c
  ∧ EmbeddingContext.calls c' = EmbeddingContext.calls c
  ∧ (∀ j, j ∈ cacheKeys c' →
          j ∈ cacheKeys c
          ∨ ∃ i e, (i, EmbeddingContext.Embedding_ (EmbeddingContext.Miss j (Ok e))) ∈ ps)
  ∧ Forall2 (λ ip ir, ir.1 = ip.1 ∧ is_ok ir.2 = settles ip.2) ps rs.
Proof.
  revert c. induction ps as [|[i p] ps IH]; intros c; simpl.
  - split; [done|]. split; [done|]. split; [by left|]. constructor.
  - pose proof (getRelevanceScore_finish_spec p c) as Hfinish.
    destruct (EmbeddingContext.getRelevanceScore_finish p c) as [r c1].
    destruct Hfinish as (Hctx1 & Hcalls1 & Hp).
    specialize (IH c1). destruct (EmbeddingContext.finishAll ps c1) as [rs c2].
    destruct IH as (Hctx2 & Hcalls2 & Hkeys2 & Hrs).
    split; [congruence|]. split; [congruence|]. split.
    + intros j Hj. destruct (Hkeys2 j Hj) as [Hj1|(i' & e & Hin)].
      * destruct p as [msg|s|[cached|hash [e|msg]]]; try (destruct Hp as [_ ->]; by left).
        destruct Hp as [_ Hp]. destruct (Hp j Hj1) as [->|?]; [|by left].
        right. exists i, e. apply list_elem_of_here.
      * right. exists i', e. by apply list_elem_of_further.
    + constructor; [|done]. split; [done|]. simpl.
      destruct p as [msg|s|[cached|hash [e|msg]]]; simpl; try by destruct Hp.
      destruct Hp as [-> _]. done.
Qed.

Lemma promiseAll_all (rs : list (string * Result R)) :
  (∀ ir, ir ∈ rs → is_ok ir.2 = true) →
  ∃ results, EmbeddingContext.promiseAll rs = Ok results ∧ results.*1 = rs.*1.
Proof.
  induction rs as [|[i [s|msg]] rs IH]; intros Hall; simpl.
  - by exists [].
  - destruct IH as (results & -> & Hids).
    { intros ir Hir. apply Hall. by apply list_elem_of_further. }
    exists ((i, s) :: results). split; [done|]. by rewrite !fmap_cons, Hids.
  - specialize (Hall (i, Err msg) (list_elem_of_here _ _)). done.
Qed.

Lemma promiseAll_rejected (rs : list (string * Result R)) (ir : string * Result R) :
  ir ∈ rs → is_ok ir.2 = false → is_ok (EmbeddingContext.promiseAll rs) = false.
Proof.
  induction rs as [|[i [s|msg]] rs IH]; intros Hin Hbad; simpl.
  - by apply elem_of_nil in Hin.
  - apply elem_of_cons in Hin as [->|Hin]; [done|].
    specialize (IH Hin Hbad). by destruct (EmbeddingContext.promiseAll rs).
  - done.
Qed.

Lemma scores_set_all (results : list (string * R)) (scores : gmap string R) (j : string) :
  is_Some (fold_left (λ m '(i, s), <[i := s]> m) results scores !! j)
  ↔ j ∈ results.*1 ∨ is_Some (scores !! j).
Proof.
  revert scores. induction results as [|[i s] results IH]; intros scores; simpl.
  - set_solver.
  - rewrite IH, lookup_insert_is_Some, elem_of_cons.
    destruct (decide (i = j)); naive_solver.
Qed.

Lemma Forall2_elem_l {A C} (P : A → C → Prop) (l : list A) (k : list C) (x : A) :
  Forall2 P l k → x ∈ l → ∃ y, y ∈ k ∧ P x y.
Proof.
  intros HF [n Hn]%list_elem_of_lookup.
  destruct (Forall2_lookup_l _ _ _ _ _ HF Hn) as (y & Hy & HP).
  exists y. split; [|done]. apply list_elem_of_lookup. eauto.
Qed.

Lemma Forall2_elem_r {A C} (P : A → C → Prop) (l : list A) (k : list C) (y : C) :
  Forall2 P l k → y ∈ k → ∃ x, x ∈ l ∧ P x y.
Proof.
  intros HF [n Hn]%list_elem_of_lookup.
  destruct (Forall2_lookup_r _ _ _ _ _ HF Hn) as (x & Hx & HP).
  exists x. split; [|done]. apply list_elem_of_lookup. eauto.
Qed.

Lemma Forall2_fst_eq {A C D} (f : A → D) (g : C → D) (P : A → C → Prop)
    (l : list A) (k : list C) :
  Forall2 (λ x y, g y = f x ∧ P x y) l k → g <$> k = f <$> l.
Proof. induction 1 as [|x y l k [Hxy _] _ IH]; [done|]. by rewrite !fmap_cons, Hxy, IH. Qed.

(** One group in which every computation succeeds. *)
Lemma group_ok (batch : list Item) (c : EmbeddingContext.t) (contextEmbedding : Embedding) :
  EmbeddingContext.contextEmbedding c = Some contextEmbedding →
  (∀ item, item ∈ batch → trim (itemText item) ≠ "" →
           is_ok (computed (trim (itemText item))) = true) →
  let '(ps, c1) := EmbeddingContext.startAll sharedPipeline batch c in
  let '(rs, c2) := EmbeddingContext.finishAll ps c1 in
  EmbeddingContext.contextEmbedding c2 = Some contextEmbedding
  ∧ ∃ results, EmbeddingContext.promiseAll rs = Ok results ∧ results.*1 = id <$> batch.
Proof.
  intros Hctx Hok. pose proof (startAll_spec batch c _ Hctx) as Hstart.
  destruct (EmbeddingContext.startAll sharedPipeline batch c) as [ps c1].
  destruct Hstart as (Hctx1 & Hkeys1 & Hps).
  pose proof (finishAll_spec ps c1) as Hfinish.
  destruct (EmbeddingContext.finishAll ps c1) as [rs c2].
  destruct Hfinish as (Hctx2 & _ & _ & Hrs).
  split; [congruence|].
  destruct (promiseAll_all rs) as (results & Hall & Hids).
  - intros ir Hir. destruct (Forall2_elem_r _ _ _ _ Hrs Hir) as (ip & Hip & _ & ->).
    destruct (Forall2_elem_r _ _ _ _ Hps Hip) as (item & Hitem & _ & Hp).
    unfold startedFrom in Hp. destruct ip as [i [msg|s|[cached|hash r]]]; simpl in *; try done.
    destruct Hp as (Htext & _ & -> & _). by apply Hok.
  - exists results. split; [done|]. rewrite Hids.
    rewrite (Forall2_fst_eq fst fst _ _ _ Hrs). apply (Forall2_fst_eq id fst _ _ _ Hps).
Qed.

(** One group, seen from a key [h] that is not cached and whose texts all
    fail to embed: [h] stays out of the cache, and an item of the group
    with that key makes [Promise.all] reject. *)
Lemma group_failing_key (batch : list Item) (c : EmbeddingContext.t)
    (contextEmbedding : Embedding) (h : string) :
  EmbeddingContext.contextEmbedding c = Some contextEmbedding →
  h ∉ cacheKeys c →
  (∀ item, item ∈ batch → hashString (trim (itemText item)) = h →
           is_ok (computed (trim (itemText item))) = false) →
  let '(ps, c1) := EmbeddingContext.startAll sharedPipeline batch c in
  let '(rs, c2) := EmbeddingContext.finishAll ps c1 in
  EmbeddingContext.contextEmbedding c2 = Some contextEmbedding
  ∧ (h ∉ cacheKeys c2)
  ∧ ∀ item, item ∈ batch → trim (itemText item) ≠ "" → hashString (trim (itemText item)) = h →
            is_ok (EmbeddingContext.promiseAll rs) = false.
Proof.
  intros Hctx Hh Hfail. pose proof (startAll_spec batch c _ Hctx) as Hstart.
  destruct (EmbeddingContext.startAll sharedPipeline batch c) as [ps c1].
  destruct Hstart as (Hctx1 & Hkeys1 & Hps).
  pose proof (finishAll_spec ps c1) as Hfinish.
  destruct (EmbeddingContext.finishAll ps c1) as [rs c2].
  destruct Hfinish as (Hctx2 & _ & Hkeys2 & Hrs).
  split; [congruence|]. split.
  - intros Hin. destruct (Hkeys2 h Hin) as [Hin1|(i & e & Hip)].
    + by apply Hh, Hkeys1.
    + destruct (Forall2_elem_r _ _ _ _ Hps Hip) as (item & Hitem & _ & Hp).
      simpl in Hp. unfold startedFrom in Hp. destruct Hp as (_ & Hhash & Hr & _).
      specialize (Hfail item Hitem (eq_sym Hhash)). by rewrite <- Hr in Hfail.
  - intros item Hitem Htext Hhash.
    destruct (Forall2_elem_l _ _ _ _ Hps Hitem) as ([i p] & Hip & _ & Hp).
    destruct (Forall2_elem_l _ _ _ _ Hrs Hip) as (ir & Hir & _ & Hsettles).
    apply (promiseAll_rejected rs ir Hir). rewrite Hsettles. simpl in *.
    unfold startedFrom in Hp. destruct p as [msg|s|[cached|hash r]]; simpl; try done.
    + by destruct Hp.
    + destruct Hp as [_ Hp]. by rewrite Hhash in Hp.
    + destruct Hp as (_ & _ & -> & _). by apply Hfail.
Qed.

Lemma batchLoop_ok (fuel : nat) (concurrency : positive) (items : list Item)
    (scores : gmap string R) (c : EmbeddingContext.t) (contextEmbedding : Embedding) :
  EmbeddingContext.contextEmbedding c = Some contextEmbedding →
  (∀ item, item ∈ items → trim (itemText item) ≠ "" →
           is_ok (computed (trim (itemText item))) = true) →
  length items ≤ fuel →
  ∃ scores' c',
    EmbeddingContext.batchLoop sharedPipeline fuel concurrency items scores c
    = (Ok scores', c')
    ∧ EmbeddingContext.contextEmbedding c' = Some contextEmbedding
    ∧ ∀ j, is_Some (scores' !! j) ↔ j ∈ id <$> items ∨ is_Some (scores !! j).
Proof.
  revert items scores c. induction fuel as [|fuel IH]; intros items scores c Hctx Hok Hlen.
  - destruct items; [|simpl in Hlen; lia]. exists scores, c. simpl. set_solver.
  - destruct items as [|item items'].
    { exists scores, c. simpl. set_solver. }
    set (items := item :: items') in *.
    change (EmbeddingContext.batchLoop sharedPipeline (S fuel) concurrency items scores c)
      with (let batch := take (Pos.to_nat concurrency) items in
            let '(ps, c1) := EmbeddingContext.startAll sharedPipeline batch c in
            let '(rs, c2) := EmbeddingContext.finishAll ps c1 in
            match EmbeddingContext.promiseAll rs with
            | Err msg => (Err msg, c2)
            | Ok results =>
                EmbeddingContext.batchLoop sharedPipeline fuel concurrency
                  (drop (Pos.to_nat concurrency) items)
                  (fold_left (λ m '(i, s), <[i := s]> m) results scores) c2
            end).
    cbv zeta.
    pose proof (group_ok (take (Pos.to_nat concurrency) items) c _ Hctx) as Hgroup.
    destruct (EmbeddingContext.startAll _ _ _) as [ps c1].
    destruct (EmbeddingContext.finishAll _ _) as [rs c2].
    destruct Hgroup as (Hctx2 & results & -> & Hids).
    { intros it Hit. apply Hok. by eapply subseteq_take. }
    destruct (IH (drop (Pos.to_nat concurrency) items)
                (fold_left (λ m '(i, s), <[i := s]> m) results scores) c2 Hctx2)
      as (scores' & c' & -> & Hctx' & Hscores).
    { intros it Hit. apply Hok. by eapply subseteq_drop. }
    { rewrite length_drop. subst items. simpl in *. lia. }
    exists scores', c'. split; [done|]. split; [done|].
    intros j. rewrite Hscores, scores_set_all, Hids.
    rewrite <- (take_drop (Pos.to_nat concurrency) items) at 3.
    rewrite fmap_app, elem_of_app. naive_solver.
Qed.

Lemma batchLoop_abort (fuel : nat) (concurrency : positive) (items : list Item)
    (scores : gmap string R) (c : EmbeddingContext.t) (contextEmbedding : Embedding)
    (item : Item) :
  EmbeddingContext.contextEmbedding c = Some contextEmbedding →
  item ∈ items →
  trim (itemText item) ≠ "" →
  hashString (trim (itemText item)) ∉ cacheKeys c →
  (∀ item', item' ∈ items →
            hashString (trim (itemText item')) = hashString (trim (itemText item)) →
            is_ok (computed (trim (itemText item'))) = false) →
  length items ≤ fuel →
  is_ok (EmbeddingContext.batchLoop sharedPipeline fuel concurrency items scores c).1 = false.
Proof.
  revert items scores c.
  induction fuel as [|fuel IH]; intros items scores c Hctx Hitem Htext Hh Hfail Hlen.
  - destruct items; [by apply elem_of_nil in Hitem | simpl in Hlen; lia].
  - destruct items as [|first items']; [by apply elem_of_nil in Hitem|].
    set (items := first :: items') in *.
    change (EmbeddingContext.batchLoop sharedPipeline (S fuel) concurrency items scores c)
      with (let batch := take (Pos.to_nat concurrency) items in
            let '(ps, c1) := EmbeddingContext.startAll sharedPipeline batch c in
            let '(rs, c2) := EmbeddingContext.finishAll ps c1 in
            match EmbeddingContext.promiseAll rs with
            | Err msg => (Err msg, c2)
            | Ok results =>
                EmbeddingContext.batchLoop sharedPipeline fuel concurrency
                  (drop (Pos.to_nat concurrency) items)
                  (fold_left (λ m '(i, s), <[i := s]> m) results scores) c2
            end).
    cbv zeta.
    pose proof (group_failing_key (take (Pos.to_nat concurrency) items) c _ _ Hctx Hh)
      as Hgroup.
    destruct (EmbeddingContext.startAll _ _ _) as [ps c1].
    destruct (EmbeddingContext.finishAll _ _) as [rs c2].
    destruct Hgroup as (Hctx2 & Hh2 & Hreject).
    { intros it Hit. apply Hfail. by eapply subseteq_take. }
    destruct (EmbeddingContext.promiseAll rs) as [results|msg] eqn:Eall; [|done].
    rewrite <- (take_drop (Pos.to_nat concurrency) items) in Hitem.
    apply elem_of_app in Hitem as [Hitem|Hitem].
    + specialize (Hreject item Hitem Htext eq_refl). done.
    + apply (IH _ _ _ Hctx2 Hitem Htext Hh2).
      * intros it Hit. apply Hfail. by eapply subseteq_drop.
      * rewrite length_drop. subst items. simpl in *. lia.
Qed.

(** C1, amended: with the baseline set, [batchRelevanceScores] returns a
    score for every item when no embedding computation fails (an item
    with empty text scores 0 without any computation); but when the
    computation fails for an item whose text is not empty and whose key
    is not in the cache (nor brought in by another item of the batch),
    the whole batch is rejected and no score is returned. *)
Theorem batchRelevanceScores_all_or_nothing (items : list Item) (concurrency : positive)
    (c : EmbeddingContext.t) (contextEmbedding : Embedding) :
  EmbeddingContext.contextEmbedding c = Some contextEmbedding →
  ((∀ item, item ∈ items → trim (itemText item) ≠ "" →
            is_ok (computed (trim (itemText item))) = true) →
   ∃ scores c',
     EmbeddingContext.batchRelevanceScores sharedPipeline items concurrency c = (Ok scores, c')
     ∧ ∀ j, is_Some (scores !! j) ↔ j ∈ id <$> items)
  ∧ (∀ item, trim (itemText item) = "" →
             EmbeddingContext.getRelevanceScore sharedPipeline item c = (Ok 0%R, c))
  ∧ (∀ item,
       item ∈ items →
       trim (itemText item) ≠ "" →
       hashString (trim (itemText item)) ∉ cacheKeys c →
       (∀ item', item' ∈ items →
                 hashString (trim (itemText item')) = hashString (trim (itemText item)) →
                 is_ok (computed (trim (itemText item'))) = false) →
       is_ok (EmbeddingContext.batchRelevanceScores sharedPipeline items concurrency c).1
       = false).
Proof.
  intros Hctx. split; [|split].
  - intros Hok.
    destruct (batchLoop_ok (length items) concurrency items ∅ c _ Hctx Hok (le_n _))
      as (scores & c' & Hloop & _ & Hscores).
    exists scores, c'. split; [exact Hloop|]. intros j. rewrite Hscores, lookup_empty.
    split; [intros [?|[? ?]]; done | by left].
  - intros item Htext. unfold EmbeddingContext.getRelevanceScore,
      EmbeddingContext.getRelevanceScore_start. rewrite Hctx, Htext. reflexivity.
  - intros item Hitem Htext Hh Hfail.
    by eapply batchLoop_abort.
Qed.

End Batch.

Lemma batchRelevanceScores_all_or_nothing_witness :
  is_ok (EmbeddingContext.batchRelevanceScores failsOnBad goodAndBad 10 (boundContext 1000)).1
  = false.
Proof.
  destruct (batchRelevanceScores_all_or_nothing failsOnBad goodAndBad 10 (boundContext 1000)
              [1%R] eq_refl) as (_ & _ & H).
  apply (H (bareItem "2" "bad")).
  - apply list_elem_of_further, list_elem_of_here.
  - vm_compute. discriminate.
  - vm_compute. intros [Hin|Hin]%elem_of_cons; [discriminate | by apply elem_of_nil in Hin].
  - intros item' [->|[->|Hin]%elem_of_cons]%elem_of_cons.
    + vm_compute. discriminate.
    + intros _. vm_compute. reflexivity.
    + by apply elem_of_nil in Hin.
Defined.

(** *** Runs that complete *)

Section Completion.
Context {B : Type} `{!StorageAdapter B}.
Variable sharedPipeline : string → Result Embedding.
Variable clock : nat → Z.
Variable parseContextForSignalKeywords : string → SignalKeywords.
Variable extractContextKeywords : string → list string.
Variable firstTitleWord : string → option string.

Hypothesis pipeline_total : ∀ text, is_ok (sharedPipeline text) = true.
Hypothesis load_total : ∀ ids (s : B), is_ok (load ids s).1 = true.
Hypothesis save_total : ∀ records (s : B), is_ok (save records s).1 = true.

Lemma embedChunks_total (chunks : list string) :
  is_ok (EmbeddingContext.embedChunks sharedPipeline chunks).1 = true.
Proof.
  induction chunks as [|chunk chunks IH]; simpl; [done|].
  pose proof (pipeline_total chunk) as Hchunk.
  destruct (sharedPipeline chunk); [|done].
  destruct (EmbeddingContext.embedChunks sharedPipeline chunks) as [[es|msg] requested];
    simpl in *; done.
Qed.

Lemma computeEmbedding_total (text : string) :
  is_ok (EmbeddingContext._computeEmbedding sharedPipeline text).1 = true.
Proof.
  unfold EmbeddingContext._computeEmbedding. destruct (_ <=? _)%nat; simpl.
  - apply pipeline_total.
  - pose proof (embedChunks_total (chunksOf text)) as Hchunks.
    destruct (EmbeddingContext.embedChunks sharedPipeline (chunksOf text))
      as [[es|msg] requested]; simpl in *; done.
Qed.

Lemma setContext_total (contextText : string) (c : EmbeddingContext.t) :
  ∃ e c', EmbeddingContext.setContext sharedPipeline contextText c = (Ok e, c')
          ∧ EmbeddingContext.contextEmbedding c' = Some e.
Proof.
  unfold EmbeddingContext.setContext, EmbeddingContext.embed, EmbeddingContext.embed_start.
  destruct (LRUCache.get _ _) as [[cached|] cache']; simpl; [eauto|].
  pose proof (computeEmbedding_total contextText) as Hc.
  destruct (EmbeddingContext._computeEmbedding sharedPipeline contextText)
    as [[e|msg] requested]; simpl in *; [eauto|done].
Qed.

(** With collaborators that do not fail, a run on a non-empty context
    returns a list. *)
Lemma filterItems_completes (items : option (list Item)) (a : ascii) (context : string)
    (options : FilterOptions B) :
  ∃ out final,
    filterItems sharedPipeline clock parseContextForSignalKeywords extractContextKeywords
      firstTitleWord items (Some (String a context)) options = (Ok out, final).
Proof.
  unfold filterItems.
  destruct items as [[|first items']|]; [eauto| |eauto].
  set (items := first :: items').
  destruct (filter (λ item, id item ≠ "") items) as [|v validItems'] eqn:Ev; [eauto|].
  rewrite <- Ev. clear Ev. set (validItems := filter _ items).
  destruct (setContext_total (String a context)
              (default (EmbeddingContext.new 1000) (embeddingContext options)))
    as (e & ectx & -> & Hctx).
  set (fc0 := FilterContext.setContextKeywords _ _).
  assert (∃ tracker,
            match noveltyTracker options with
            | Some tr =>
                let '(r, tr') := NoveltyTracker.loadBatch (id <$> validItems) tr in
                (r, Some tr')
            | None => (Ok (), None)
            end = (Ok (), tracker)) as [tracker ->].
  { destruct (noveltyTracker options) as [tr|]; [|eauto].
    unfold NoveltyTracker.loadBatch. destruct (id <$> validItems) as [|i ids]; [eauto|].
    pose proof (load_total (i :: ids) (NoveltyTracker.storage tr)) as Hload.
    destruct (load _ _) as [[m|msg] s']; simpl in *; [eauto|done]. }
  destruct (batchLoop_ok sharedPipeline (length validItems)
              (default 10%positive (concurrency options)) validItems ∅ ectx e Hctx)
    as (scores & ectx2 & Hbatch & _); [|done|].
  { intros item _ _. apply computeEmbedding_total. }
  unfold EmbeddingContext.batchRelevanceScores. rewrite Hbatch.
  set (st := fold_left _ validItems _).
  assert (∃ tracker',
            match loopTracker st with
            | Some tr => let '(r, tr') := NoveltyTracker.flush tr in (r, Some tr')
            | None => (Ok (), None)
            end = (Ok (), tracker')) as [tracker' ->].
  { destruct (loopTracker st) as [tr|]; [|eauto].
    unfold NoveltyTracker.flush. destruct (_ =? _)%nat; [eauto|].
    pose proof (save_total (JsMap.values (NoveltyTracker.pendingUpdates tr))
                  (NoveltyTracker.storage tr)) as Hsave.
    destruct (save _ _) as [[[]|msg] s']; simpl in *; [eauto|done]. }
  destruct (scoreAndSortSignals _ _ _ _) as [scoredItems tick1].
  destruct (addLabels _ _ _) as [itemsWithLabels tick2]. eauto.
Qed.

End Completion.

Lemma filterItems_marks_every_valid_item_witness :
  ∃ tr r,
    runTracker (sampleRun (Some [bareItem "x" ""]) (Some "ctx") trackedOptions).2 = Some tr
    ∧ NoveltyTracker.cache tr !! "x" = Some r
    ∧ lastSeen r = Some 1000%Z.
Proof.
  destruct (@filterItems_completes MemoryStorageAdapter.t memoryStorage unitPipeline stillClock
              defaultKeywords noContextKeywords
              noTitleWord (λ _, eq_refl) (λ _ _, eq_refl) (λ _ _, eq_refl)
              (Some [bareItem "x" ""]) "c" "tx" trackedOptions) as (out & final & Hrun).
  destruct (filterItems_marks_every_valid_item unitPipeline stillClock defaultKeywords
              noContextKeywords noTitleWord [bareItem "x" ""] (Some "ctx") trackedOptions
              out final Hrun (bareItem "x" "")) as [_ Hmarked].
  - apply list_elem_of_here.
  - discriminate.
  - destruct (Hmarked freshTracker eq_refl) as (tr & r & k & Htr & Hr & Hlast & _).
    exists tr, r. unfold sampleRun. rewrite Hrun. done.
Defined.

(** The run of the witness above, evaluated: the only item has no text, so
    its relevance is 0 and it is dropped -- the list returned is empty --
    yet the tracker has recorded and flushed it. *)
Lemma sampleRun_drops_and_marks :
  ∃ final,
    sampleRun (Some [bareItem "x" ""]) (Some "ctx") trackedOptions = (Ok [], final)
    ∧ runTracker final
      = Some (NoveltyTracker.flush
                (NoveltyTracker.markSeen 1000 "x"
                   (titleAndSource {| mdTitle := Some ""; mdSource := None |})
                   freshTracker)).2
    ∧ (NoveltyTracker.cache <$> runTracker final) ≫= (.!! "x")
      = Some {| itemId := "x"; firstSeen := Some 1000%Z; lastSeen := Some 1000%Z;
                seenCount := Some 1%Z; recTitle := Some ""; recSource := None |}.
Proof.
  unfold sampleRun, filterItems.
  change (filter (λ item : Item, id item ≠ "") [bareItem "x" ""]) with [bareItem "x" ""].
  cbv beta iota zeta.
  change (embeddingContext trackedOptions) with (@None EmbeddingContext.t).
  change (noveltyTracker trackedOptions) with (Some freshTracker).
  change (concurrency trackedOptions) with (@None positive).
  change (relevanceThreshold trackedOptions) with (@None R).
  change (noveltyThreshold trackedOptions) with (@None R).
  cbn [default from_option].
  destruct (EmbeddingContext.setContext unitPipeline "ctx" (EmbeddingContext.new 1000))
    as [r c1] eqn:E1.
  assert (r = Ok [1%R] ∧ EmbeddingContext.contextEmbedding c1 = Some [1%R]) as [-> Hc1].
  { rewrite (surjective_pairing (EmbeddingContext.setContext _ _ _)) in E1.
    injection E1 as <- <-. split; vm_compute; reflexivity. }
  assert (NoveltyTracker.loadBatch (id <$> [bareItem "x" ""]) freshTracker
          = (Ok (), freshTracker)) as -> by reflexivity.
  cbv beta iota zeta.
  assert (EmbeddingContext.batchRelevanceScores unitPipeline [bareItem "x" ""] 10 c1
          = (Ok {["x" := 0%R]}, c1)) as ->.
  { unfold EmbeddingContext.batchRelevanceScores. simpl.
    unfold EmbeddingContext.getRelevanceScore_start. rewrite Hc1. reflexivity. }
  cbv beta iota zeta. cbn [fold_left].
  set (st0 := Build_Loop _ _ _ _).
  assert (filterStep stillClock noTitleWord DEFAULT_RELEVANCE_THRESHOLD
            DEFAULT_NOVELTY_THRESHOLD {["x" := 0%R]} st0 (bareItem "x" "")
          = {| loopTick := 2;
               loopTracker :=
                 Some (NoveltyTracker.markSeen 1000 "x"
                         (titleAndSource {| mdTitle := Some ""; mdSource := None |})
                         freshTracker);
               loopFilter := FilterContext.markSeen "x" (loopFilter st0);
               filteredItems := [] |}) as ->.
  { unfold filterStep.
    assert ({["x" := 0%R]} !! id (bareItem "x" "") = Some 0%R) as -> by reflexivity.
    cbn [default from_option loopTracker st0].
    rewrite (bool_decide_eq_false_2 (DEFAULT_RELEVANCE_THRESHOLD <= 0)%R);
      [reflexivity | unfold DEFAULT_RELEVANCE_THRESHOLD; lra]. }
  cbn [loopTracker filteredItems loopTick].
  destruct (NoveltyTracker.flush _) as [[[]|msg] tr'] eqn:Eflush.
  - eexists. split; [reflexivity|]. simpl. split; [reflexivity|].
    apply (f_equal snd) in Eflush. simpl in Eflush. subst tr'. reflexivity.
  - apply (f_equal fst) in Eflush. discriminate Eflush.
Qed.

(** ** embeddings.js: the cache *)

(** C8, as stated, fails: with room for one entry, scoring "a", "b", "a"
    one after another hands "a" to the pipeline twice, the entry of "a"
    having been evicted in between. *)
Lemma batchRelevanceScores_embeds_evicted_text_again :
  EmbeddingContext.calls
    (EmbeddingContext.batchRelevanceScores failsOnBad abaItems 1 (boundContext 1)).2
  = ["ctx"; "a"; "b"; "a"]
  ∧ ¬ NoDup (EmbeddingContext.calls
               (EmbeddingContext.batchRelevanceScores failsOnBad abaItems 1 (boundContext 1)).2).
Proof.
  assert (EmbeddingContext.calls
            (EmbeddingContext.batchRelevanceScores failsOnBad abaItems 1 (boundContext 1)).2
          = ["ctx"; "a"; "b"; "a"]) as E by (vm_compute; reflexivity).
  split; [exact E|]. rewrite E. intros Hnd.
  apply NoDup_cons in Hnd as [_ Hnd]. apply NoDup_cons in Hnd as [Ha _].
  apply Ha. apply list_elem_of_further, list_elem_of_here.
Qed.

(** The same happens without any eviction when two items of one group
    have the same text: both calls miss the cache before either has
    stored its vector. *)
Lemma batchRelevanceScores_embeds_twins_twice :
  EmbeddingContext.calls
    (EmbeddingContext.batchRelevanceScores failsOnBad twins 10 (boundContext 1000)).2
  = ["ctx"; "a"; "a"].
Proof. vm_compute. reflexivity. Qed.

Lemma JsMap_get_delete_ne {V} (k k' : string) (m : JsMap.t V) :
  k' ≠ k → JsMap.get k' (JsMap.delete k m) = JsMap.get k' m.
Proof.
  intros Hne. unfold JsMap.get, JsMap.delete.
  induction m as [|[k0 v0] m IH]; [done|].
  cbn [filter list_filter]. case_decide as Hk0; simpl in Hk0.
  - simpl. destruct (bool_decide (k0 = k')); [done|exact IH].
  - assert (k0 = k) as -> by (by destruct (decide (k0 = k))).
    simpl. by rewrite bool_decide_eq_false_2.
Qed.

Lemma JsMap_size_delete {V} (k : string) (m : JsMap.t V) :
  k ∈ JsMap.keys m → S (JsMap.size (JsMap.delete k m)) ≤ JsMap.size m.
Proof.
  unfold JsMap.keys, JsMap.size, JsMap.delete. induction m as [|[k0 v0] m IH]; intros Hin.
  - by apply elem_of_nil in Hin.
  - rewrite fmap_cons in Hin. cbn [filter list_filter]. case_decide as Hk0; simpl in Hk0.
    + apply elem_of_cons in Hin as [?|Hin]; [done|]. specialize (IH Hin).
      rewrite !length_cons. apply le_n_S, IH.
    + pose proof (length_filter (λ e : string * V, e.1 ≠ k) m) as Hle.
      rewrite length_cons. apply le_n_S, Hle.
Qed.

Lemma JsMap_size_set_new {V} (k : string) (v : V) (m : JsMap.t V) :
  k ∉ JsMap.keys m → JsMap.size (JsMap.set k v m) = S (JsMap.size m).
Proof.
  unfold JsMap.keys, JsMap.size. induction m as [|[k0 v0] m IH]; simpl; [done|].
  intros Hk. apply not_elem_of_cons in Hk as [Hne Hk].
  rewrite bool_decide_eq_false_2 by done. simpl. by rewrite IH.
Qed.

Lemma JsMap_get_keys {V} (k : string) (m : JsMap.t V) :
  k ∈ JsMap.keys m → ∃ v, JsMap.get k m = Some v.
Proof.
  intros Hin. destruct (JsMap.get k m) as [v|] eqn:E; [eauto|].
  by apply JsMap_get_None in E.
Qed.
(** *** Hits and misses *)

Lemma LRUCache_get_hit (h : string) (e : Embedding) (c : LRUCache.t) :
  JsMap.get h (LRUCache.cache c) = Some e →
  ∃ c1,
    LRUCache.get h c = (Some e, c1)
    ∧ LRUCache.maxSize c1 = LRUCache.maxSize c
    ∧ JsMap.size (LRUCache.cache c1) ≤ JsMap.size (LRUCache.cache c)
    ∧ ∀ k, JsMap.get k (LRUCache.cache c1) = JsMap.get k (LRUCache.cache c).
Proof.
  intros He. set (m := LRUCache.cache c) in *.
  assert (h ∈ JsMap.keys m) as Hin.
  { destruct (decide (h ∈ JsMap.keys m)) as [|Hn]; [done|].
    apply JsMap_get_None in Hn. congruence. }
  unfold LRUCache.get. fold m. rewrite (proj2 (JsMap_has_keys h m) Hin), He. simpl.
  eexists. split; [reflexivity|]. simpl. split; [done|]. split.
  - rewrite JsMap_size_set_new.
    + apply (JsMap_size_delete h m Hin).
    + intros [_ Hne]%JsMap_keys_delete. done.
  - intros k. destruct (decide (k = h)) as [->|Hne].
    + by rewrite JsMap_get_set_eq.
    + by rewrite JsMap_get_set_ne, JsMap_get_delete_ne.
Qed.

Lemma LRUCache_get_none (h : string) (c : LRUCache.t) :
  JsMap.get h (LRUCache.cache c) = None → LRUCache.get h c = (None, c).
Proof. intros Hn. apply LRUCache_get_miss. by apply JsMap_get_None. Qed.

Lemma LRUCache_set_new (h : string) (e : Embedding) (c : LRUCache.t) :
  JsMap.get h (LRUCache.cache c) = None →
  JsMap.size (LRUCache.cache c) < LRUCache.maxSize c →
  LRUCache.maxSize (LRUCache.set h e c) = LRUCache.maxSize c
  ∧ JsMap.size (LRUCache.cache (LRUCache.set h e c)) = S (JsMap.size (LRUCache.cache c))
  ∧ JsMap.get h (LRUCache.cache (LRUCache.set h e c)) = Some e
  ∧ ∀ k, k ≠ h →
         JsMap.get k (LRUCache.cache (LRUCache.set h e c)) = JsMap.get k (LRUCache.cache c).
Proof.
  intros Hn Hroom. apply JsMap_get_None in Hn as Hnotin.
  unfold LRUCache.set. simpl.
  assert (JsMap.has h (LRUCache.cache c) = false) as ->.
  { destruct (JsMap.has h (LRUCache.cache c)) eqn:E; [|done]. by apply JsMap_has_keys in E. }
  rewrite (proj2 (Nat.leb_gt _ _) Hroom).
  split; [done|]. split; [by apply JsMap_size_set_new|].
  split; [apply JsMap_get_set_eq|]. intros k Hne. by apply JsMap_get_set_ne.
Qed.

Lemma scoreIn_persists (contextEmbedding : Embedding) (m m' : JsMap.t Embedding)
    (item : Item) (s : R) :
  (∀ k e, JsMap.get k m = Some e → JsMap.get k m' = Some e) →
  scoreIn contextEmbedding m item s → scoreIn contextEmbedding m' item s.
Proof.
  intros Hpersist [Hempty|(Htext & e & He & Hs)]; [by left|].
  right. split; [done|]. exists e. split; [by apply Hpersist | done].
Qed.

Lemma scoreIn_functional (contextEmbedding : Embedding) (m : JsMap.t Embedding)
    (item1 item2 : Item) (s1 s2 : R) :
  trim (itemText item1) = trim (itemText item2) →
  scoreIn contextEmbedding m item1 s1 → scoreIn contextEmbedding m item2 s2 → s1 = s2.
Proof.
  unfold scoreIn. intros <-.
  intros [[H1 ->]|(H1 & e1 & He1 & ->)] [[H2 ->]|(H2 & e2 & He2 & ->)]; try done.
  congruence.
Qed.

Section Groups.
Variable sharedPipeline : string → Result Embedding.

Abbreviation entriesOf c := (LRUCache.cache (EmbeddingContext.cache c)).
Abbreviation roomOf c := (LRUCache.maxSize (EmbeddingContext.cache c)).
Abbreviation keysOf c := (JsMap.keys (LRUCache.cache (EmbeddingContext.cache c))).

Lemma startOf_ext (c c1 : EmbeddingContext.t) (item : Item) :
  (∀ k, JsMap.get k (entriesOf c1) = JsMap.get k (entriesOf c)) →
  startOf sharedPipeline c1 item = startOf sharedPipeline c item
  ∧ requestedBy sharedPipeline c1 item = requestedBy sharedPipeline c item.
Proof. intros Hget. unfold startOf, requestedBy. by rewrite Hget. Qed.

(** Starting a call only reorders the cache. *)
Lemma getRelevanceScore_start_eq (item : Item) (c : EmbeddingContext.t)
    (contextEmbedding : Embedding) :
  EmbeddingContext.contextEmbedding c = Some contextEmbedding →
  let '(p, c1) := EmbeddingContext.getRelevanceScore_start sharedPipeline item c in
  (id item, p) = startOf sharedPipeline c item
  ∧ EmbeddingContext.contextEmbedding c1 = Some contextEmbedding
  ∧ roomOf c1 = roomOf c
  ∧ JsMap.size (entriesOf c1) ≤ JsMap.size (entriesOf c)
  ∧ (∀ k, JsMap.get k (entriesOf c1) = JsMap.get k (entriesOf c))
  ∧ EmbeddingContext.calls c1 = EmbeddingContext.calls c ++ requestedBy sharedPipeline c item.
Proof.
  intros Hctx. unfold EmbeddingContext.getRelevanceScore_start, startOf, requestedBy.
  rewrite Hctx. set (text := trim (itemText item)).
  case_bool_decide as Htext.
  { by rewrite app_nil_r. }
  unfold EmbeddingContext.embed_start.
  destruct (JsMap.get (hashString text) (entriesOf c)) as [e|] eqn:Eget.
  - destruct (LRUCache_get_hit _ _ _ Eget) as (c1 & -> & Hroom & Hsize & Hget).
    simpl. by rewrite app_nil_r.
  - rewrite (LRUCache_get_none _ _ Eget).
    destruct (EmbeddingContext._computeEmbedding sharedPipeline text) as [r requested].
    done.
Qed.

Lemma startAll_eq (batch : list Item) (c : EmbeddingContext.t) (contextEmbedding : Embedding) :
  EmbeddingContext.contextEmbedding c = Some contextEmbedding →
  let '(ps, c1) := EmbeddingContext.startAll sharedPipeline batch c in
  ps = startOf sharedPipeline c <$> batch
  ∧ EmbeddingContext.contextEmbedding c1 = Some contextEmbedding
  ∧ roomOf c1 = roomOf c
  ∧ JsMap.size (entriesOf c1) ≤ JsMap.size (entriesOf c)
  ∧ (∀ k, JsMap.get k (entriesOf c1) = JsMap.get k (entriesOf c))
  ∧ EmbeddingContext.calls c1
    = EmbeddingContext.calls c ++ concat (requestedBy sharedPipeline c <$> batch).
Proof.
  revert c. induction batch as [|item batch IH]; intros c Hctx; simpl.
  - by rewrite app_nil_r.
  - pose proof (getRelevanceScore_start_eq item c _ Hctx) as Hstart.
    destruct (EmbeddingContext.getRelevanceScore_start sharedPipeline item c) as [p c0].
    destruct Hstart as (Hp & Hctx0 & Hroom0 & Hsize0 & Hget0 & Hcalls0).
    specialize (IH c0 Hctx0).
    destruct (EmbeddingContext.startAll sharedPipeline batch c0) as [ps c1].
    destruct IH as (-> & Hctx1 & Hroom1 & Hsize1 & Hget1 & Hcalls1).
    split; [|split; [done|split; [congruence|split; [lia|split]]]].
    + rewrite Hp. f_equal. apply list_fmap_ext. intros _ it _.
      by apply startOf_ext.
    + intros k. by rewrite Hget1.
    + rewrite Hcalls1, Hcalls0, <- app_assoc. do 3 f_equal.
      apply list_fmap_ext. intros _ it _. by apply startOf_ext.
Qed.

(** Resuming the calls of a group whose misses have distinct keys, on a
    cache with room for them: every vector computed is stored and stays. *)
Lemma finishAll_detail (ps : list (string * EmbeddingContext.PendingScore))
    (c : EmbeddingContext.t) (contextEmbedding : Embedding) :
  EmbeddingContext.contextEmbedding c = Some contextEmbedding →
  NoDup (omap missKey ps) →
  (∀ k, k ∈ omap missKey ps → JsMap.get k (entriesOf c) = None) →
  JsMap.size (entriesOf c) + length ps ≤ roomOf c →
  let '(rs, c2) := EmbeddingContext.finishAll ps c in
  EmbeddingContext.contextEmbedding c2 = Some contextEmbedding
  ∧ roomOf c2 = roomOf c
  ∧ EmbeddingContext.calls c2 = EmbeddingContext.calls c
  ∧ JsMap.size (entriesOf c2) ≤ JsMap.size (entriesOf c) + length ps
  ∧ (∀ k e, JsMap.get k (entriesOf c) = Some e → JsMap.get k (entriesOf c2) = Some e)
  ∧ Forall2 (λ ip ir, ir.1 = ip.1 ∧ outcome contextEmbedding (entriesOf c2) ip.2 ir.2) ps rs.
Proof.
  revert c. induction ps as [|[i p] ps IH]; intros c Hctx Hnd Hmiss Hroom.
  { simpl. split; [done|]. split; [done|]. split; [done|]. split; [lia|]. split; [done|].
    constructor. }
  assert (∀ c0 r,
            EmbeddingContext.getRelevanceScore_finish p c = (r, c0) →
            EmbeddingContext.contextEmbedding c0 = Some contextEmbedding
            ∧ roomOf c0 = roomOf c
            ∧ EmbeddingContext.calls c0 = EmbeddingContext.calls c
            ∧ JsMap.size (entriesOf c0) ≤ S (JsMap.size (entriesOf c))
            ∧ (∀ k e, JsMap.get k (entriesOf c) = Some e → JsMap.get k (entriesOf c0) = Some e)
            ∧ (∀ k, k ∈ omap missKey ps → JsMap.get k (entriesOf c0) = None)
            ∧ ∀ m, (∀ k e, JsMap.get k (entriesOf c0) = Some e → JsMap.get k m = Some e) →
                   outcome contextEmbedding m p r) as Hhead.
  { intros c0 r Hfinish.
    assert (∀ k, k ∈ omap missKey ps → JsMap.get k (entriesOf c) = None) as Hrest.
    { intros k Hk. apply Hmiss. simpl. destruct (missKey (i, p)); [|done].
      by apply list_elem_of_further. }
    destruct p as [msg|s|[cached|hash [e|msg]]]; simpl in Hfinish.
    - injection Hfinish as <- <-. repeat split; try done. lia.
    - injection Hfinish as <- <-. repeat split; try done. lia.
    - rewrite Hctx in Hfinish. injection Hfinish as <- <-. repeat split; try done. lia.
    - rewrite Hctx in Hfinish. injection Hfinish as <- <-.
      cbn [EmbeddingContext.cache EmbeddingContext.contextEmbedding EmbeddingContext.calls].
      assert (JsMap.get hash (entriesOf c) = None) as Hnone.
      { apply Hmiss. simpl. apply list_elem_of_here. }
      destruct (LRUCache_set_new hash e (EmbeddingContext.cache c) Hnone ltac:(simpl in Hroom; lia))
        as (Hroom1 & Hsize1 & Hget1 & Hother1).
      split; [done|]. split; [done|]. split; [done|].
      split; [by rewrite Hsize1|]. split; [|split].
      + intros k e' Hk. rewrite Hother1; [done|]. intros ->. congruence.
      + intros k Hk. rewrite Hother1; [by apply Hrest|]. intros ->.
        simpl in Hnd. apply NoDup_cons in Hnd as [Hnotin _]. done.
      + intros m Hm. split; [done|]. by apply Hm.
    - injection Hfinish as <- <-. repeat split; try done. lia. }
  simpl. destruct (EmbeddingContext.getRelevanceScore_finish p c) as [r c0] eqn:Efinish.
  destruct (Hhead c0 r eq_refl) as (Hctx0 & Hroom0 & Hcalls0 & Hsize0 & Hpersist0 & Hmiss0 & Hout0).
  assert (NoDup (omap missKey ps)) as Hnd0.
  { simpl in Hnd. destruct (missKey (i, p)); [by apply NoDup_cons in Hnd as [_ ?]|done]. }
  specialize (IH c0 Hctx0 Hnd0 Hmiss0 ltac:(simpl in Hroom; lia)).
  destruct (EmbeddingContext.finishAll ps c0) as [rs c2].
  destruct IH as (Hctx2 & Hroom2 & Hcalls2 & Hsize2 & Hpersist2 & Hrs).
  split; [done|]. split; [congruence|]. split; [congruence|].
  split; [simpl; lia|]. split; [intros k e Hk; by apply Hpersist2, Hpersist0|].
  constructor; [|done]. split; [done|]. by apply Hout0.
Qed.

Lemma promiseAll_Ok (rs : list (string * Result R)) (results : list (string * R)) :
  EmbeddingContext.promiseAll rs = Ok results →
  Forall2 (λ ir res, ir = (res.1, Ok res.2)) rs results.
Proof.
  revert results. induction rs as [|[i [s|msg]] rs IH]; intros results; simpl.
  - intros [= <-]. constructor.
  - destruct (EmbeddingContext.promiseAll rs) as [l|msg]; [|done].
    intros [= <-]. constructor; [done|]. by apply IH.
  - done.
Qed.

Lemma scores_set_lookup (results : list (string * R)) (scores : gmap string R) :
  NoDup results.*1 →
  (∀ i s, (i, s) ∈ results → fold_left (λ m '(i, s), <[i := s]> m) results scores !! i = Some s)
  ∧ (∀ j, j ∉ results.*1 →
          fold_left (λ m '(i, s), <[i := s]> m) results scores !! j = scores !! j).
Proof.
  revert scores. induction results as [|[i0 s0] results IH]; intros scores Hnd.
  - split; [|done]. intros i s Hin. by apply elem_of_nil in Hin.
  - rewrite fmap_cons in Hnd. apply NoDup_cons in Hnd as [Hfresh Hnd]. simpl in Hfresh.
    destruct (IH (<[i0 := s0]> scores) Hnd) as [Hin Hout]. split.
    + intros i s [[= -> ->]|His]%elem_of_cons; simpl.
      * by rewrite (Hout _ Hfresh), lookup_insert_eq.
      * by apply Hin.
    + intros j Hj. rewrite fmap_cons in Hj. apply not_elem_of_cons in Hj as [Hne Hj].
      simpl. by rewrite (Hout _ Hj), lookup_insert_ne.
Qed.

Lemma Forall2_compose {A C D} (P : A → C → Prop) (Q : C → D → Prop) (S : A → D → Prop)
    (l : list A) (k : list C) (j : list D) :
  (∀ x y z, P x y → Q y z → S x z) → Forall2 P l k → Forall2 Q k j → Forall2 S l j.
Proof.
  intros HPQ HP. revert j. induction HP as [|x y l k Hxy _ IH]; intros j HQ.
  - inversion HQ. constructor.
  - inversion HQ as [|? z ? j' Hyz HQ']; subst. constructor; [by eapply HPQ | by apply IH].
Qed.

Lemma missKey_startOf (c : EmbeddingContext.t) (item : Item) :
  missKey (startOf sharedPipeline c item)
  = if bool_decide (trim (itemText item) = "") then None
    else match JsMap.get (textKey item) (entriesOf c) with
         | Some _ => None
         | None => Some (textKey item)
         end.
Proof.
  unfold missKey, startOf, textKey. simpl. case_bool_decide; [done|].
  by destruct (JsMap.get _ _).
Qed.

(** The misses of a group with distinct keys. *)
Lemma missKeys_startOf (group : list Item) (c : EmbeddingContext.t) :
  distinctKeys group →
  NoDup (omap missKey (startOf sharedPipeline c <$> group))
  ∧ ∀ k, k ∈ omap missKey (startOf sharedPipeline c <$> group) →
         JsMap.get k (entriesOf c) = None
         ∧ ∃ item, item ∈ group ∧ trim (itemText item) ≠ "" ∧ k = textKey item.
Proof.
  unfold distinctKeys. induction group as [|item group IH]; intros Hnd.
  { split; [constructor|]. intros k Hk. by apply elem_of_nil in Hk. }
  rewrite fmap_cons. cbn [omap list_omap]. rewrite missKey_startOf.
  cbn [filter list_filter] in Hnd.
  assert (∀ k, (JsMap.get k (entriesOf c) = None
                ∧ ∃ it, it ∈ group ∧ trim (itemText it) ≠ "" ∧ k = textKey it) →
               JsMap.get k (entriesOf c) = None
               ∧ ∃ it, it ∈ item :: group ∧ trim (itemText it) ≠ "" ∧ k = textKey it)
    as Hweaken.
  { intros k (Hnone & it & Hit & Hne & Hkey). split; [done|].
    exists it. split; [by apply list_elem_of_further|done]. }
  case_decide as Htext.
  - rewrite bool_decide_eq_false_2 by done. rewrite fmap_cons in Hnd.
    apply NoDup_cons in Hnd as [Hfresh Hnd]. destruct (IH Hnd) as [IHnd IHk].
    destruct (JsMap.get (textKey item) (entriesOf c)) as [e|] eqn:Eget.
    + split; [done|]. intros k Hk. by apply Hweaken, IHk.
    + split.
      * apply NoDup_cons. split; [|done]. intros Hin.
        destruct (IHk _ Hin) as (_ & it & Hit & Hne & Hkey). apply Hfresh.
        rewrite Hkey. apply list_elem_of_fmap. exists it. split; [done|].
        by apply list_elem_of_filter.
      * intros k [->|Hk]%elem_of_cons; [|by apply Hweaken, IHk].
        split; [done|]. exists item. split; [apply list_elem_of_here|done].
  - rewrite bool_decide_eq_true_2 by done.
    destruct (IH Hnd) as [IHnd IHk]. split; [done|].
    intros k Hk. by apply Hweaken, IHk.
Qed.

(** With texts short enough for one pipeline call, the texts requested
    are those of the misses. *)
Lemma requested_keys (group : list Item) (c : EmbeddingContext.t) :
  (∀ item, item ∈ group → String.length (trim (itemText item)) ≤ CHUNK_SIZE) →
  hashString <$> concat (requestedBy sharedPipeline c <$> group)
  = omap missKey (startOf sharedPipeline c <$> group).
Proof.
  induction group as [|item group IH]; intros Hshort; [done|].
  rewrite !fmap_cons. cbn [concat omap list_omap]. rewrite fmap_app, IH.
  2:{ intros it Hit. apply Hshort. by apply list_elem_of_further. }
  rewrite missKey_startOf. unfold requestedBy, textKey.
  case_bool_decide; [done|].
  destruct (JsMap.get _ _); [done|].
  unfold EmbeddingContext._computeEmbedding.
  rewrite (proj2 (Nat.leb_le _ _) (Hshort item (list_elem_of_here _ _))). done.
Qed.

(** One group on a cache with room for it. *)
Lemma group_cached (group : list Item) (c : EmbeddingContext.t)
    (contextEmbedding : Embedding) :
  EmbeddingContext.contextEmbedding c = Some contextEmbedding →
  JsMap.size (entriesOf c) + length group ≤ roomOf c →
  (∀ item, item ∈ group → String.length (trim (itemText item)) ≤ CHUNK_SIZE) →
  distinctKeys group →
  let '(ps, c1) := EmbeddingContext.startAll sharedPipeline group c in
  let '(rs, c2) := EmbeddingContext.finishAll ps c1 in
  ∀ results,
    EmbeddingContext.promiseAll rs = Ok results →
    EmbeddingContext.contextEmbedding c2 = Some contextEmbedding
    ∧ roomOf c2 = roomOf c
    ∧ JsMap.size (entriesOf c2) ≤ JsMap.size (entriesOf c) + length group
    ∧ (∀ k e, JsMap.get k (entriesOf c) = Some e → JsMap.get k (entriesOf c2) = Some e)
    ∧ (∃ new,
         EmbeddingContext.calls c2 = EmbeddingContext.calls c ++ new
         ∧ NoDup (hashString <$> new)
         ∧ ∀ t, t ∈ new →
                JsMap.get (hashString t) (entriesOf c) = None
                ∧ is_Some (JsMap.get (hashString t) (entriesOf c2)))
    ∧ Forall2 (λ item res, res.1 = id item
                           ∧ scoreIn contextEmbedding (entriesOf c2) item res.2)
        group results.
Proof.
  intros Hctx Hroom Hshort Hdistinct.
  pose proof (startAll_eq group c _ Hctx) as Hstart.
  destruct (EmbeddingContext.startAll sharedPipeline group c) as [ps c1].
  destruct Hstart as (-> & Hctx1 & Hroom1 & Hsize1 & Hget1 & Hcalls1).
  destruct (missKeys_startOf group c Hdistinct) as [Hnd Hmiss].
  pose proof (finishAll_detail (startOf sharedPipeline c <$> group) c1 _ Hctx1 Hnd) as Hfinish.
  destruct (EmbeddingContext.finishAll (startOf sharedPipeline c <$> group) c1) as [rs c2].
  destruct Hfinish as (Hctx2 & Hroom2 & Hcalls2 & Hsize2 & Hpersist2 & Hrs).
  { intros k Hk. rewrite Hget1. by apply Hmiss. }
  { rewrite length_fmap. lia. }
  rewrite length_fmap in Hsize2.
  intros results Hall. apply promiseAll_Ok in Hall.
  assert (Forall2 (λ item res, res.1 = id item
                               ∧ outcome contextEmbedding (entriesOf c2)
                                   (startOf sharedPipeline c item).2 (Ok res.2))
            group results) as Hout.
  { apply Forall2_fmap_l in Hrs.
    eapply (Forall2_compose _ _ _ _ _ _ _ Hrs Hall). Unshelve.
    intros item [i r] [i' s] [Hi Ho] [= -> ->]. simpl in *. split; [|done].
    by rewrite Hi. }
  split; [done|]. split; [congruence|]. split; [lia|].
  split; [intros k e Hk; apply Hpersist2; by rewrite Hget1|]. split.
  - exists (concat (requestedBy sharedPipeline c <$> group)).
    split; [by rewrite Hcalls2, Hcalls1|].
    rewrite (requested_keys group c Hshort). split; [done|].
    intros t Ht.
    assert (hashString t ∈ omap missKey (startOf sharedPipeline c <$> group)) as Hk.
    { rewrite <- (requested_keys group c Hshort). apply list_elem_of_fmap. eauto. }
    destruct (Hmiss _ Hk) as (Hnone & item & Hitem & Htext & Hkey). split; [done|].
    destruct (Forall2_elem_l _ _ _ _ Hout Hitem) as ([i s] & _ & _ & Ho).
    unfold startOf in Ho. simpl in Ho. rewrite bool_decide_eq_false_2 in Ho by done.
    unfold textKey in Hkey. rewrite <- Hkey, Hnone in Ho.
    destruct (EmbeddingContext._computeEmbedding sharedPipeline _).1 as [e|msg]; [|done].
    destruct Ho as [_ Ho]. eauto.
  - eapply Forall2_impl; [exact Hout|]. intros item [i s] [Hi Ho]. split; [done|].
    simpl in *. unfold startOf in Ho. simpl in Ho. unfold scoreIn.
    case_bool_decide as Htext.
    + left. split; [done|]. by injection Ho as ->.
    + right. split; [done|].
      destruct (JsMap.get (hashString (trim (itemText item))) (entriesOf c)) as [e|] eqn:Eget.
      * exists e. split; [|by injection Ho as ->]. apply Hpersist2. by rewrite Hget1.
      * destruct (EmbeddingContext._computeEmbedding sharedPipeline _).1 as [e|msg]; [|done].
        destruct Ho as [[= ->] Ho]. eauto.
Qed.

(** The whole loop on a cache with room for all items: no entry is lost,
    no key is computed twice, and every score is the one the final cache
    gives. *)
Lemma batchLoop_cached (fuel : nat) (concurrency : positive) (items : list Item)
    (scores scores' : gmap string R) (c c' : EmbeddingContext.t)
    (contextEmbedding : Embedding) :
  EmbeddingContext.contextEmbedding c = Some contextEmbedding →
  length items ≤ fuel →
  JsMap.size (entriesOf c) + length items ≤ roomOf c →
  (∀ item, item ∈ items → String.length (trim (itemText item)) ≤ CHUNK_SIZE) →
  NoDup (id <$> items) →
  Forall distinctKeys (groupsOf fuel concurrency items) →
  EmbeddingContext.batchLoop sharedPipeline fuel concurrency items scores c = (Ok scores', c') →
  (∃ new,
     EmbeddingContext.calls c' = EmbeddingContext.calls c ++ new
     ∧ NoDup (hashString <$> new)
     ∧ ∀ t, t ∈ new → JsMap.get (hashString t) (entriesOf c) = None)
  ∧ (∀ k e, JsMap.get k (entriesOf c) = Some e → JsMap.get k (entriesOf c') = Some e)
  ∧ (∀ item, item ∈ items →
             ∃ s, scores' !! id item = Some s ∧ scoreIn contextEmbedding (entriesOf c') item s)
  ∧ (∀ j, j ∉ id <$> items → scores' !! j = scores !! j).
Proof.
  revert items scores c.
  induction fuel as [|fuel IH];
    intros items scores c Hctx Hlen Hroom Hshort Hnd Hgroups Hrun.
  { destruct items; [|simpl in Hlen; lia]. simpl in Hrun. injection Hrun as <- <-.
    split; [|split; [done|split; [|done]]].
    - exists []. rewrite app_nil_r. split; [done|]. split; [constructor|].
      intros t Ht. by apply elem_of_nil in Ht.
    - intros item Hitem. by apply elem_of_nil in Hitem. }
  destruct items as [|first items'].
  { simpl in Hrun. injection Hrun as <- <-.
    split; [|split; [done|split; [|done]]].
    - exists []. rewrite app_nil_r. split; [done|]. split; [constructor|].
      intros t Ht. by apply elem_of_nil in Ht.
    - intros item Hitem. by apply elem_of_nil in Hitem. }
  set (items := first :: items') in *.
  set (n := Pos.to_nat concurrency).
  assert (0 < n) as Hn by apply Pos2Nat.is_pos.
  change (groupsOf (S fuel) concurrency items)
    with (take n items :: groupsOf fuel concurrency (drop n items)) in Hgroups.
  apply Forall_cons in Hgroups as [Hdistinct Hgroups].
  change (EmbeddingContext.batchLoop sharedPipeline (S fuel) concurrency items scores c)
    with (let '(ps, c1) := EmbeddingContext.startAll sharedPipeline (take n items) c in
          let '(rs, c2) := EmbeddingContext.finishAll ps c1 in
          match EmbeddingContext.promiseAll rs with
          | Err msg => (Err msg, c2)
          | Ok results =>
              EmbeddingContext.batchLoop sharedPipeline fuel concurrency (drop n items)
                (fold_left (λ m '(i, s), <[i := s]> m) results scores) c2
          end) in Hrun.
  assert (length (take n items) + length (drop n items) = length items) as Hsplit.
  { by rewrite <- length_app, take_drop. }
  assert (0 < length (take n items)) as Hpos.
  { rewrite length_take. subst items. simpl. lia. }
  pose proof (group_cached (take n items) c _ Hctx ltac:(lia)) as Hgroup.
  destruct (EmbeddingContext.startAll sharedPipeline (take n items) c) as [ps c1].
  destruct (EmbeddingContext.finishAll ps c1) as [rs c2].
  destruct (EmbeddingContext.promiseAll rs) as [results|msg]; [|done].
  destruct (Hgroup (λ it Hit, Hshort it (subseteq_take _ _ _ Hit)) Hdistinct results eq_refl)
    as (Hctx2 & Hroom2 & Hsize2 & Hpersist2 & (new1 & Hcalls1 & Hnd1 & Hnew1) & Hresults).
  pose proof (Forall2_fst_eq id fst _ _ _ Hresults) as Hids.
  rewrite <- (take_drop n items), fmap_app in Hnd.
  apply NoDup_app in Hnd as (Hnd_g & Hdisjoint & Hnd_rest).
  destruct (scores_set_lookup results scores ltac:(by rewrite Hids)) as [Hset Hkeep].
  destruct (IH (drop n items) (fold_left (λ m '(i, s), <[i := s]> m) results scores) c2
              Hctx2 ltac:(lia) ltac:(lia)
              (λ it Hit, Hshort it (subseteq_drop _ _ _ Hit)) Hnd_rest Hgroups Hrun)
    as ((new2 & Hcalls2 & Hnd2 & Hnew2) & Hpersist' & Hscores' & Hframe').
  split; [|split; [|split]].
  - exists (new1 ++ new2). split; [by rewrite Hcalls2, Hcalls1, app_assoc|]. split.
    + rewrite fmap_app. apply NoDup_app. split; [done|]. split; [|done].
      intros x (t1 & -> & Ht1)%list_elem_of_fmap (t2 & Hx & Ht2)%list_elem_of_fmap.
      destruct (Hnew1 t1 Ht1) as [_ [e He]]. rewrite Hx, (Hnew2 t2 Ht2) in He. done.
    + intros t [Ht|Ht]%elem_of_app; [by apply Hnew1|].
      destruct (JsMap.get (hashString t) (entriesOf c)) as [e|] eqn:Eget; [|done].
      apply Hpersist2 in Eget. rewrite (Hnew2 t Ht) in Eget. done.
  - intros k e Hk. by apply Hpersist', Hpersist2.
  - intros item Hitem. rewrite <- (take_drop n items) in Hitem.
    apply elem_of_app in Hitem as [Hitem|Hitem]; [|by apply Hscores'].
    destruct (Forall2_elem_l _ _ _ _ Hresults Hitem) as ([i s] & Hin & Hi & Hscore).
    simpl in Hi, Hscore. subst i. exists s. split.
    + rewrite Hframe'; [by apply Hset|]. apply Hdisjoint.
      apply list_elem_of_fmap. by exists item.
    + by eapply scoreIn_persists.
  - intros j Hj. rewrite <- (take_drop n items), fmap_app, not_elem_of_app in Hj.
    destruct Hj as [Hj_g Hj_rest]. rewrite (Hframe' j Hj_rest). apply Hkeep. by rewrite Hids.
Qed.

(** With width 1 every group is a single item. *)
Lemma groupsOf_one (fuel : nat) (items : list Item) :
  Forall distinctKeys (groupsOf fuel 1 items).
Proof.
  revert items. induction fuel as [|fuel IH]; intros [|item items]; simpl; try constructor.
  - unfold distinctKeys. cbn [filter list_filter]. case_decide; simpl.
    + apply NoDup_singleton.
    + constructor.
  - rewrite drop_0. apply IH.
Qed.

(** C8, amended: take an embedding context whose cache has room for all
    items of the batch, texts short enough for a single pipeline call,
    unique ids, and groups in which no two items with a text share a cache
    key (any batch when the width is 1).  Then two items with the same
    text receive the same score, and the texts handed to the pipeline
    during the run have pairwise distinct keys, none of which was cached
    before: every distinct text is embedded at most once. *)
Theorem batchRelevanceScores_embeds_once (items : list Item) (concurrency : positive)
    (scores : gmap string R) (c c' : EmbeddingContext.t) (contextEmbedding : Embedding) :
  EmbeddingContext.contextEmbedding c = Some contextEmbedding →
  JsMap.size (entriesOf c) + length items ≤ roomOf c →
  (∀ item, item ∈ items → String.length (trim (itemText item)) ≤ CHUNK_SIZE) →
  NoDup (id <$> items) →
  Forall distinctKeys (groupsOf (length items) concurrency items) →
  EmbeddingContext.batchRelevanceScores sharedPipeline items concurrency c = (Ok scores, c') →
  (∀ item1 item2, item1 ∈ items → item2 ∈ items →
                  trim (itemText item1) = trim (itemText item2) →
                  is_Some (scores !! id item1) ∧ scores !! id item1 = scores !! id item2)
  ∧ ∃ new,
      EmbeddingContext.calls c' = EmbeddingContext.calls c ++ new
      ∧ NoDup new
      ∧ NoDup (hashString <$> new)
      ∧ ∀ t, t ∈ new → hashString t ∉ (keysOf c).
Proof.
  intros Hctx Hroom Hshort Hnd Hgroups Hrun.
  destruct (batchLoop_cached (length items) concurrency items ∅ scores c c' _ Hctx (le_n _)
              Hroom Hshort Hnd Hgroups Hrun)
    as ((new & Hcalls & Hnew & Hfresh) & _ & Hscores & _).
  split.
  - intros item1 item2 H1 H2 Htext.
    destruct (Hscores item1 H1) as (s1 & Hs1 & Hin1).
    destruct (Hscores item2 H2) as (s2 & Hs2 & Hin2).
    rewrite Hs1, Hs2. split; [done|]. f_equal. by eapply scoreIn_functional.
  - exists new. split; [done|]. split; [by eapply NoDup_fmap_1|]. split; [done|].
    intros t Ht. by apply JsMap_get_None, Hfresh.
Qed.

End Groups.

(** [NoDup] of a list of string literals. *)
Ltac distinct_strings :=
  vm_compute;
  repeat (apply NoDup_cons; split;
          [ let Hin := fresh "Hin" in
            intros Hin;
            repeat (apply elem_of_cons in Hin as [Hin|Hin]; [discriminate Hin|]);
            by apply elem_of_nil in Hin
          | ]);
  apply NoDup_nil_2.

Lemma batchRelevanceScores_embeds_once_witness :
  match (EmbeddingContext.batchRelevanceScores failsOnBad abacItems 2 (boundContext 1000)).1 with
  | Ok scores => is_Some (scores !! "1") ∧ scores !! "1" = scores !! "3"
  | Err _ => False
  end.
Proof.
  destruct (EmbeddingContext.batchRelevanceScores failsOnBad abacItems 2 (boundContext 1000))
    as [[scores|msg] c'] eqn:Erun.
  - simpl.
    destruct (batchRelevanceScores_embeds_once failsOnBad abacItems 2 scores
                (boundContext 1000) c' [1%R] eq_refl) as [Hsame _].
    + apply Nat.leb_le. vm_compute. reflexivity.
    + intros item Hitem. repeat (apply elem_of_cons in Hitem as [->|Hitem]);
        [apply Nat.leb_le; vm_compute; reflexivity ..|destruct (not_elem_of_nil _ Hitem)].
    + distinct_strings.
    + change (Forall distinctKeys [[bareItem "1" "a"; bareItem "2" "b"];
                                   [bareItem "3" "a"; bareItem "4" "c"]]).
      repeat (apply Forall_cons; split; [unfold distinctKeys; distinct_strings|]).
      apply Forall_nil_2.
    + exact Erun.
    + apply (Hsame (bareItem "1" "a") (bareItem "3" "a")).
      * apply list_elem_of_here.
      * do 2 apply list_elem_of_further. apply list_elem_of_here.
      * reflexivity.
  - assert (is_ok (EmbeddingContext.batchRelevanceScores failsOnBad abacItems 2
                     (boundContext 1000)).1 = true) as Hok by (vm_compute; reflexivity).
    rewrite Erun in Hok. discriminate Hok.
Defined.

(** * More of the sources *)

(** ** embeddings.js: the LRU cache *)

Lemma JsMap_delete_absent {V} (k : string) (m : JsMap.t V) :
  k ∉ JsMap.keys m → JsMap.delete k m = m.
Proof.
  unfold JsMap.keys, JsMap.delete. induction m as [|[k0 v0] m IH]; [done|].
  rewrite fmap_cons. intros [Hne Hk]%not_elem_of_cons.
  cbn [filter list_filter]. case_decide as Hk0; simpl in Hk0.
  - f_equal. by apply IH.
  - by destruct Hk0.
Qed.

Lemma JsMap_set_absent {V} (k : string) (v : V) (m : JsMap.t V) :
  k ∉ JsMap.keys m → JsMap.set k v m = m ++ [(k, v)].
Proof.
  unfold JsMap.keys. induction m as [|[k0 v0] m IH]; [done|].
  rewrite fmap_cons. intros [Hne Hk]%not_elem_of_cons. simpl.
  rewrite bool_decide_eq_false_2 by done. by rewrite IH.
Qed.

Lemma JsMap_delete_keys {V} (k : string) (m : JsMap.t V) :
  JsMap.keys (JsMap.delete k m) = filter (λ j, j ≠ k) (JsMap.keys m).
Proof.
  unfold JsMap.keys, JsMap.delete. induction m as [|[k0 v0] m IH]; [done|].
  rewrite fmap_cons. cbn [filter list_filter]. simpl.
  destruct (decide (k0 ≠ k)); [rewrite fmap_cons; simpl; f_equal|]; exact IH.
Qed.

Lemma JsMap_delete_first {V} (k : string) (v : V) (m : JsMap.t V) :
  NoDup (JsMap.keys ((k, v) :: m)) → JsMap.delete k ((k, v) :: m) = m.
Proof.
  unfold JsMap.keys. rewrite fmap_cons. intros [Hk _]%NoDup_cons.
  unfold JsMap.delete. cbn [filter list_filter]. case_decide as Hk0; simpl in *; [done|].
  by apply JsMap_delete_absent.
Qed.

Lemma JsMap_NoDup_delete {V} (k : string) (m : JsMap.t V) :
  NoDup (JsMap.keys m) → NoDup (JsMap.keys (JsMap.delete k m)).
Proof. rewrite JsMap_delete_keys. apply NoDup_filter. Qed.

Lemma JsMap_size_delete_le {V} (k : string) (m : JsMap.t V) :
  JsMap.size (JsMap.delete k m) ≤ JsMap.size m.
Proof. apply length_filter. Qed.

Lemma JsMap_size_set_le {V} (k : string) (v : V) (m : JsMap.t V) :
  JsMap.size (JsMap.set k v m) ≤ S (JsMap.size m).
Proof.
  unfold JsMap.size. induction m as [|[k0 v0] m IH]; simpl; [done|].
  destruct (bool_decide (k0 = k)); simpl; [lia|]. by apply le_n_S.
Qed.

(** What [set] does to the map, case by case. *)
Lemma LRUCache_set_cases (k : string) (v : Embedding) (c : LRUCache.t) :
  ∃ m,
    LRUCache.set k v c = LRUCache.mk (LRUCache.maxSize c) (m ++ [(k, v)])
    ∧ k ∉ JsMap.keys m
    ∧ ((k ∈ JsMap.keys (LRUCache.cache c) ∧ m = JsMap.delete k (LRUCache.cache c))
       ∨ (k ∉ JsMap.keys (LRUCache.cache c)
          ∧ JsMap.size (LRUCache.cache c) < LRUCache.maxSize c
          ∧ m = LRUCache.cache c)
       ∨ (k ∉ JsMap.keys (LRUCache.cache c)
          ∧ LRUCache.maxSize c ≤ JsMap.size (LRUCache.cache c)
          ∧ m = match LRUCache.cache c with
                | [] => []
                | (firstKey, _) :: _ => JsMap.delete firstKey (LRUCache.cache c)
                end)).
Proof.
  unfold LRUCache.set. destruct (JsMap.has k (LRUCache.cache c)) eqn:Ehas.
  - apply JsMap_has_keys in Ehas. exists (JsMap.delete k (LRUCache.cache c)).
    assert (k ∉ JsMap.keys (JsMap.delete k (LRUCache.cache c))) as Hk.
    { rewrite JsMap_keys_delete. naive_solver. }
    rewrite JsMap_set_absent by done. eauto.
  - assert (k ∉ JsMap.keys (LRUCache.cache c)) as Hk.
    { intros Hin. apply JsMap_has_keys in Hin. congruence. }
    destruct (LRUCache.maxSize c <=? JsMap.size (LRUCache.cache c))%nat eqn:Efull.
    + apply Nat.leb_le in Efull.
      destruct (LRUCache.cache c) as [|[firstKey v0] m] eqn:Ec; simpl.
      * exists []. eauto 10.
      * exists (JsMap.delete firstKey ((firstKey, v0) :: m)).
        assert (k ∉ JsMap.keys (JsMap.delete firstKey ((firstKey, v0) :: m))) as Hk'.
        { rewrite JsMap_keys_delete. naive_solver. }
        rewrite JsMap_set_absent by done. eauto 10.
    + apply Nat.leb_gt in Efull. exists (LRUCache.cache c).
      rewrite JsMap_set_absent by done. eauto 10.
Qed.

Lemma JsMap_keys_snoc {V} (k : string) (v : V) (m : JsMap.t V) :
  JsMap.keys (m ++ [(k, v)]) = JsMap.keys m ++ [k].
Proof. unfold JsMap.keys. by rewrite fmap_app. Qed.

Lemma JsMap_size_snoc {V} (k : string) (v : V) (m : JsMap.t V) :
  JsMap.size (m ++ [(k, v)]) = S (JsMap.size m).
Proof. unfold JsMap.size. rewrite length_app. simpl. lia. Qed.

Lemma NoDup_snoc_2 {A} (l : list A) (x : A) : NoDup l → x ∉ l → NoDup (l ++ [x]).
Proof.
  intros Hl Hx. apply NoDup_app. split; [done|]. split; [|apply NoDup_singleton].
  intros y Hy Hin. apply list_elem_of_singleton in Hin. by subst.
Qed.

Lemma JsMap_delete_snoc {V} (k : string) (v : V) (m : JsMap.t V) :
  k ∉ JsMap.keys m → JsMap.delete k (m ++ [(k, v)]) = m.
Proof.
  unfold JsMap.keys, JsMap.delete. induction m as [|[k0 v0] m IH].
  - intros _. cbn [app filter list_filter]. case_decide as Hne; simpl in Hne; done.
  - rewrite fmap_cons. intros [Hne Hk]%not_elem_of_cons.
    rewrite <- app_comm_cons. cbn [filter list_filter]. case_decide as Hk0; simpl in Hk0.
    + f_equal. by apply IH.
    + by destruct Hk0.
Qed.

(** One operation keeps the cache within its bound. *)
Lemma runOp_bounded (c : LRUCache.t) (op : LRUOp) :
  1 ≤ LRUCache.maxSize c →
  LRUCache.size c ≤ LRUCache.maxSize c →
  NoDup (JsMap.keys (LRUCache.cache c)) →
  LRUCache.maxSize (runOp c op) = LRUCache.maxSize c
  ∧ LRUCache.size (runOp c op) ≤ LRUCache.maxSize c
  ∧ NoDup (JsMap.keys (LRUCache.cache (runOp c op))).
Proof.
  unfold LRUCache.size. intros Hpos Hsize Hnd. destruct op as [key|key value|]; cbn [runOp].
  - destruct (JsMap.get key (LRUCache.cache c)) as [e|] eqn:Eget.
    + destruct (LRUCache_get_hit key e c Eget) as (c1 & Hget & Hmax & Hle & _).
      rewrite Hget. simpl. split; [done|]. split; [lia|].
      unfold LRUCache.get in Hget.
      destruct (JsMap.has key (LRUCache.cache c)); simpl in Hget; [|done].
      rewrite Eget in Hget. injection Hget as <-. simpl.
      by apply JsMap_NoDup_set, JsMap_NoDup_delete.
    + by rewrite (LRUCache_get_none key c Eget).
  - destruct (LRUCache_set_cases key value c) as (m & -> & Hkey & Hcases). simpl.
    rewrite JsMap_size_snoc, JsMap_keys_snoc. split; [done|].
    destruct Hcases as [[Hin ->]|[(Hnotin & Hroom & ->)|(Hnotin & Hfull & ->)]].
    + split; [|by apply NoDup_snoc_2; [apply JsMap_NoDup_delete|]].
      pose proof (JsMap_size_delete key (LRUCache.cache c) Hin). lia.
    + split; [lia|by apply NoDup_snoc_2].
    + destruct (LRUCache.cache c) as [|[firstKey v0] m] eqn:Ec.
      * split; [simpl; lia|]. by apply NoDup_snoc_2.
      * split; [|by apply NoDup_snoc_2; [apply JsMap_NoDup_delete|]].
        assert (firstKey ∈ JsMap.keys ((firstKey, v0) :: m)) as Hfirst
          by apply list_elem_of_here.
        pose proof (JsMap_size_delete firstKey _ Hfirst). lia.
  - split; [done|]. split; [unfold JsMap.size; simpl; lia|]. apply NoDup_nil_2.
Qed.

(** A cache made with room for [n >= 1] entries never holds more than
    [n], whatever is read, written or cleared, and no key twice. *)
Theorem LRUCache_never_exceeds_maxSize (n : nat) (ops : list LRUOp) :
  1 ≤ n →
  LRUCache.maxSize (runOps ops (LRUCache.new n)) = n
  ∧ LRUCache.size (runOps ops (LRUCache.new n)) ≤ n
  ∧ NoDup (JsMap.keys (LRUCache.cache (runOps ops (LRUCache.new n)))).
Proof.
  intros Hn. induction ops as [|op ops IH] using rev_ind.
  - simpl. split; [done|]. split; [unfold LRUCache.size, JsMap.size; simpl; lia|].
    apply NoDup_nil_2.
  - unfold runOps in *. rewrite fold_left_app. simpl.
    destruct IH as (Hmax & Hsize & Hnd).
    destruct (runOp_bounded (fold_left runOp ops (LRUCache.new n)) op) as (Hmax' & Hsize' & Hnd');
      [lia|lia|done|].
    rewrite Hmax' , Hmax in *. done.
Qed.

Lemma LRUCache_never_exceeds_maxSize_witness :
  LRUCache.size
    (runOps [OpSet "a" []; OpSet "b" []; OpGet "a"; OpSet "c" []] (LRUCache.new 2)) ≤ 2.
Proof.
  destruct (LRUCache_never_exceeds_maxSize 2
              [OpSet "a" []; OpSet "b" []; OpGet "a"; OpSet "c" []]) as (_ & Hsize & _).
  - lia.
  - exact Hsize.
Defined.

(** A vector written under a key is what a read of the key returns next,
    and the read leaves the cache as it is. *)
Theorem LRUCache_get_after_set (k : string) (v : Embedding) (c : LRUCache.t) :
  LRUCache.get k (LRUCache.set k v c) = (Some v, LRUCache.set k v c).
Proof.
  destruct (LRUCache_set_cases k v c) as (m & -> & Hk & _).
  unfold LRUCache.get. simpl.
  assert (JsMap.has k (m ++ [(k, v)]) = true) as ->.
  { apply JsMap_has_keys. rewrite JsMap_keys_snoc. apply elem_of_app. right.
    apply list_elem_of_here. }
  simpl. rewrite <- (JsMap_set_absent k v m Hk), JsMap_get_set_eq.
  rewrite (JsMap_set_absent k v m Hk), (JsMap_delete_snoc k v m Hk).
  by rewrite (JsMap_set_absent k v m Hk).
Qed.

(** The order of eviction.  Keys are listed oldest first.  A hit moves its
    key to the young end; so does writing a key that is present; a new key
    goes to the young end, and in a full cache it takes the place of the
    oldest key, which alone is dropped.  No vector changes but that of the
    key written. *)
Theorem LRUCache_eviction_order (k : string) (v : Embedding) (c : LRUCache.t) :
  NoDup (JsMap.keys (LRUCache.cache c)) →
  let keys := JsMap.keys (LRUCache.cache c) in
  (k ∈ keys →
   JsMap.keys (LRUCache.cache (LRUCache.get k c).2) = filter (λ j, j ≠ k) keys ++ [k])
  ∧ JsMap.keys (LRUCache.cache (LRUCache.set k v c))
    = (if bool_decide (k ∈ keys) then filter (λ j, j ≠ k) keys
       else if bool_decide (JsMap.size (LRUCache.cache c) < LRUCache.maxSize c) then keys
       else tail keys) ++ [k]
  ∧ ∀ j, j ≠ k → j ∈ JsMap.keys (LRUCache.cache (LRUCache.set k v c)) →
         JsMap.get j (LRUCache.cache (LRUCache.set k v c)) = JsMap.get j (LRUCache.cache c).
Proof.
  intros Hnd keys. split; [|split].
  - intros Hin. destruct (JsMap_get_keys k _ Hin) as [e He].
    unfold LRUCache.get. rewrite (proj2 (JsMap_has_keys k _) Hin), He. simpl.
    rewrite JsMap_set_absent, JsMap_keys_snoc, JsMap_delete_keys; [done|].
    rewrite JsMap_keys_delete. naive_solver.
  - destruct (LRUCache_set_cases k v c) as (m & -> & Hk & Hcases). simpl.
    rewrite JsMap_keys_snoc. f_equal.
    destruct Hcases as [[Hin ->]|[(Hnotin & Hroom & ->)|(Hnotin & Hfull & ->)]].
    + rewrite bool_decide_eq_true_2 by done. apply JsMap_delete_keys.
    + rewrite bool_decide_eq_false_2 by done. by rewrite bool_decide_eq_true_2.
    + rewrite bool_decide_eq_false_2 by done. rewrite bool_decide_eq_false_2 by lia.
      subst keys. destruct (LRUCache.cache c) as [|[firstKey v0] m]; [done|].
      by rewrite JsMap_delete_first.
  - intros j Hne. destruct (LRUCache_set_cases k v c) as (m & E & Hk & Hcases).
    rewrite E. simpl. rewrite <- (JsMap_set_absent k v m Hk), JsMap_get_set_ne by done.
    rewrite JsMap_keys_set. intros [?|Hj]; [done|].
    destruct Hcases as [[Hin ->]|[(Hnotin & Hroom & ->)|(Hnotin & Hfull & ->)]].
    + by apply JsMap_get_delete_ne.
    + done.
    + destruct (LRUCache.cache c) as [|[firstKey v0] m]; [done|].
      apply JsMap_get_delete_ne. intros ->. apply JsMap_keys_delete in Hj. naive_solver.
Qed.

Lemma LRUCache_eviction_order_witness :
  JsMap.keys (LRUCache.cache
                (LRUCache.set "c" [] (runOps [OpSet "a" []; OpSet "b" []; OpGet "a"]
                                        (LRUCache.new 2))))
  = ["a"; "c"].
Proof.
  destruct (LRUCache_eviction_order "c" []
              (runOps [OpSet "a" []; OpSet "b" []; OpGet "a"] (LRUCache.new 2)))
    as (_ & Hset & _).
  - vm_compute. apply NoDup_cons. split.
    + intros [Hin|Hin]%elem_of_cons; [discriminate Hin|by apply elem_of_nil in Hin].
    + apply NoDup_singleton.
  - rewrite Hset. reflexivity.
Defined.

(** ** embeddings.js: the cache key *)

Lemma to_int32_mod (z : Z) : (to_int32 z mod 4294967296 = z mod 4294967296)%Z.
Proof.
  unfold to_int32. rewrite Zminus_mod_idemp_l. f_equal. lia.
Qed.

Lemma to_int32_ext (x y : Z) :
  (x mod 4294967296 = y mod 4294967296)%Z → to_int32 x = to_int32 y.
Proof.
  intros E. unfold to_int32. f_equal.
  rewrite <- (Zplus_mod_idemp_l x), <- (Zplus_mod_idemp_l y). by rewrite E.
Qed.

(** A step of the hash is [31 * hash + char], reduced to 32 bits. *)
Lemma hashStep_eq (hash : Z) (c : ascii) :
  hashStep hash c = to_int32 (31 * hash + charCode c).
Proof.
  unfold hashStep. apply to_int32_ext. rewrite Z.shiftl_mul_pow2 by lia.
  replace (to_int32 (hash * 2 ^ 5) - hash + charCode c)%Z
    with (to_int32 (hash * 2 ^ 5) + (charCode c - hash))%Z by lia.
  rewrite <- Zplus_mod_idemp_l, to_int32_mod, Zplus_mod_idemp_l. f_equal. lia.
Qed.

Lemma hashStep_twice (hash : Z) (c1 c2 : ascii) :
  hashStep (hashStep hash c1) c2
  = to_int32 (961 * hash + 31 * charCode c1 + charCode c2).
Proof.
  rewrite (hashStep_eq _ c2), (hashStep_eq hash c1). apply to_int32_ext.
  rewrite <- Zplus_mod_idemp_l, <- Zmult_mod_idemp_r, to_int32_mod,
    Zmult_mod_idemp_r, Zplus_mod_idemp_l.
  f_equal. lia.
Qed.

Lemma chars_app (s1 s2 : string) : chars (s1 +:+ s2) = chars s1 ++ chars s2.
Proof.
  unfold chars. induction s1 as [|a s1 IH]; simpl; [done|]. by rewrite IH.
Qed.

(** The key is not injective: writing "BB" for "Aa" anywhere in a text
    leaves its key as it is. *)
Theorem hashString_collides (before after : string) :
  hashString (before +:+ "Aa" +:+ after) = hashString (before +:+ "BB" +:+ after).
Proof.
  unfold hashString. f_equal. rewrite !chars_app, !fold_left_app. f_equal.
  change (chars "Aa") with ["A"; "a"]%char. change (chars "BB") with ["B"; "B"]%char.
  cbn [fold_left]. rewrite !hashStep_twice.
  change (charCode "A") with 65%Z. change (charCode "a") with 97%Z.
  change (charCode "B") with 66%Z. f_equal. lia.
Qed.

Section Collisions.
Variable sharedPipeline : string → Result Embedding.

(** The cache does not compare texts: once [embed] has returned a vector
    for a text, [embed] returns that vector for every text with the same
    key, without a call of the pipeline. *)
Theorem embed_returns_vector_under_key (text1 text2 : string) (c c1 : EmbeddingContext.t)
    (e : Embedding) :
  hashString text1 = hashString text2 →
  EmbeddingContext.embed sharedPipeline text1 c = (Ok e, c1) →
  ∃ c2,
    EmbeddingContext.embed sharedPipeline text2 c1 = (Ok e, c2)
    ∧ EmbeddingContext.calls c2 = EmbeddingContext.calls c1.
Proof.
  intros Hkey Hembed.
  assert (JsMap.get (hashString text1) (LRUCache.cache (EmbeddingContext.cache c1)) = Some e)
    as Hcached.
  { unfold EmbeddingContext.embed, EmbeddingContext.embed_start in Hembed.
    destruct (JsMap.get (hashString text1) (LRUCache.cache (EmbeddingContext.cache c)))
      as [cached|] eqn:Eget.
    - destruct (LRUCache_get_hit _ _ _ Eget) as (cache1 & Hget & _ & _ & Hsame).
      rewrite Hget in Hembed. simpl in Hembed. injection Hembed as <- <-. simpl.
      by rewrite Hsame.
    - rewrite (LRUCache_get_none _ _ Eget) in Hembed.
      destruct (EmbeddingContext._computeEmbedding sharedPipeline text1)
        as [[computed|msg] requested]; simpl in Hembed; [|done].
      injection Hembed as <- <-. simpl.
      unfold LRUCache.set. simpl. apply JsMap_get_set_eq. }
  rewrite Hkey in Hcached.
  destruct (LRUCache_get_hit _ _ _ Hcached) as (cache2 & Hget & _).
  unfold EmbeddingContext.embed, EmbeddingContext.embed_start. rewrite Hget. simpl. eauto.
Qed.

End Collisions.

Lemma embed_returns_vector_under_key_witness :
  (EmbeddingContext.embed byFirstLetter "BB"
     (EmbeddingContext.embed byFirstLetter "Aa" (EmbeddingContext.new 10)).2).1
  = Ok [1%R; 0%R].
Proof.
  destruct (EmbeddingContext.embed byFirstLetter "Aa" (EmbeddingContext.new 10))
    as [r c1] eqn:E1.
  assert (r = Ok [1%R; 0%R]) as ->.
  { apply (f_equal fst) in E1. simpl in E1. rewrite <- E1. vm_compute. reflexivity. }
  destruct (embed_returns_vector_under_key byFirstLetter "Aa" "BB"
              (EmbeddingContext.new 10) c1 [1%R; 0%R]) as (c2 & Hrun & _).
  - vm_compute. reflexivity.
  - exact E1.
  - cbn [snd]. rewrite Hrun. reflexivity.
Defined.

(** ** embeddings.js: cosine similarity *)

Lemma sumSquares_nonneg (a : Embedding) : (0 <= sumSquares a)%R.
Proof.
  unfold sumSquares. induction a as [|x a IH]; simpl; [lra|].
  pose proof (Rle_0_sqr x) as Hx. unfold Rsqr in Hx. lra.
Qed.

Lemma cosineSums_eq (a b : Embedding) (d na nb : R) :
  length a = length b →
  cosineSums a b (d, na, nb) = (d + dotOf a b, na + sumSquares a, nb + sumSquares b)%R.
Proof.
  unfold sumSquares. revert b d na nb. induction a as [|x a IH]; intros [|y b] d na nb Hlen;
    try discriminate Hlen; simpl.
  - f_equal; [f_equal|]; lra.
  - rewrite IH by (simpl in Hlen; lia). f_equal; [f_equal|]; lra.
Qed.

Lemma dotOf_comm (a b : Embedding) : dotOf a b = dotOf b a.
Proof.
  revert b. induction a as [|x a IH]; intros [|y b]; simpl; try done.
  rewrite IH. lra.
Qed.

Lemma cosineSimilarity_eq (a b : Embedding) :
  length a = length b →
  cosineSimilarity a b
  = if Req_dec_T (sqrt (sumSquares a) * sqrt (sumSquares b)) 0 then 0%R
    else Rmax (-1) (Rmin 1 (dotOf a b / (sqrt (sumSquares a) * sqrt (sumSquares b)))).
Proof.
  intros Hlen. unfold cosineSimilarity. rewrite cosineSums_eq by done.
  rewrite !Rplus_0_l. done.
Qed.

(** For vectors of one length the similarity lies in [-1, 1], does not
    depend on the order of its arguments, and is 0 when either vector is
    all zeros. *)
Theorem cosineSimilarity_range (a b : Embedding) :
  length a = length b →
  (-1 <= cosineSimilarity a b <= 1)%R
  ∧ cosineSimilarity a b = cosineSimilarity b a
  ∧ (sumSquares a = 0%R ∨ sumSquares b = 0%R → cosineSimilarity a b = 0%R).
Proof.
  intros Hlen. rewrite (cosineSimilarity_eq a b Hlen), (cosineSimilarity_eq b a) by done.
  split; [|split].
  - destruct (Req_dec_T _ _); [lra|]. apply clamp_range. lra.
  - rewrite (dotOf_comm b a), (Rmult_comm (sqrt (sumSquares b))). done.
  - intros Hzero. destruct (Req_dec_T _ _) as [|Hne]; [done|]. exfalso. apply Hne.
    destruct Hzero as [-> | ->]; rewrite sqrt_0; lra.
Qed.

Lemma cosineSimilarity_range_witness :
  (-1 <= cosineSimilarity [1%R; 0%R] [0%R; 1%R] <= 1)%R.
Proof. apply (cosineSimilarity_range [1%R; 0%R] [0%R; 1%R]). reflexivity. Defined.

Lemma cosineSimilarity_same (a : Embedding) :
  sumSquares a ≠ 0%R → cosineSimilarity a a = 1%R.
Proof.
  intros Hne. rewrite cosineSimilarity_eq by done.
  pose proof (sumSquares_nonneg a) as Hpos.
  rewrite sqrt_sqrt by done. destruct (Req_dec_T _ _) as [|_]; [done|].
  replace (dotOf a a) with (sumSquares a) by done.
  replace (sumSquares a / sumSquares a)%R with 1%R by (field; done).
  rewrite Rmin_left by lra. apply Rmax_right. lra.
Qed.

(** ** embeddings.js: long texts *)

Lemma length_chars (s : string) : length (chars s) = String.length s.
Proof. unfold chars. induction s as [|a s IH]; simpl; [done|]. by rewrite IH. Qed.

Lemma chars_of_list (l : list ascii) : chars (String.string_of_list_ascii l) = l.
Proof. apply String.list_ascii_of_string_of_list_ascii. Qed.

(** The characters of the [k]-th chunk. *)
Lemma chunksOf_lookup (text : string) (k : nat) (chunk : string) :
  chunksOf text !! k = Some chunk →
  k * (CHUNK_SIZE - CHUNK_OVERLAP) < String.length text
  ∧ chars chunk = take CHUNK_SIZE (drop (k * (CHUNK_SIZE - CHUNK_OVERLAP)) (chars text)).
Proof.
  unfold chunksOf. rewrite list_lookup_fmap. intros Hk.
  destruct (seq 0 _ !! k) as [k'|] eqn:Eseq; [|done]. simpl in Hk. injection Hk as <-.
  apply lookup_seq in Eseq as [-> Hlt]. rewrite length_chars in Hlt. cbn [plus Nat.add].
  split.
  - change (CHUNK_SIZE - CHUNK_OVERLAP) with 1600 in *.
    pose proof (Nat.div_mod_eq (String.length text + 1600 - 1) 1600) as Hdm.
    revert Hlt Hdm. generalize ((String.length text + 1600 - 1) / 1600).
    generalize ((String.length text + 1600 - 1) mod 1600). lia.
  - rewrite chars_of_list. unfold slice. f_equal. lia.
Qed.

Lemma concat_steps {A} (step n : nat) (l : list A) :
  0 < step → length l ≤ n * step →
  concat ((λ k, take step (drop (k * step) l)) <$> seq 0 n) = l.
Proof.
  intros Hstep. revert l. induction n as [|n IH]; intros l Hlen.
  - simpl in *. by destruct l; [|simpl in Hlen; lia].
  - rewrite <- cons_seq, <- fmap_S_seq, fmap_cons, <- list_fmap_compose. simpl.
    rewrite drop_0. transitivity (take step l ++ drop step l); [|apply take_drop]. f_equal.
    etransitivity; [|apply (IH (drop step l)); rewrite length_drop; lia].
    f_equal. apply list_fmap_ext. intros _ k _. simpl. rewrite drop_drop. by rewrite Nat.add_comm.
Qed.

(** The chunks of a text: every chunk has between 1 and [CHUNK_SIZE]
    characters; there is one chunk per started stretch of
    [CHUNK_SIZE - CHUNK_OVERLAP] characters; the first
    [CHUNK_SIZE - CHUNK_OVERLAP] characters of the chunks, put together,
    are the text; and a chunk followed by another ends with the
    [CHUNK_OVERLAP] characters the next one begins with. *)
Theorem chunksOf_covers (text : string) :
  let step := CHUNK_SIZE - CHUNK_OVERLAP in
  (∀ chunk, chunk ∈ chunksOf text → 1 ≤ String.length chunk ≤ CHUNK_SIZE)
  ∧ length (chunksOf text) = (String.length text + step - 1) / step
  ∧ concat ((λ chunk, take step (chars chunk)) <$> chunksOf text) = chars text
  ∧ ∀ k chunk next,
      chunksOf text !! k = Some chunk → chunksOf text !! S k = Some next →
      drop step (chars chunk) = take CHUNK_OVERLAP (chars next).
Proof.
  intros step. split; [|split; [|split]].
  - intros chunk [k Hk]%list_elem_of_lookup.
    apply chunksOf_lookup in Hk as [Hlt Hchars].
    rewrite <- length_chars, Hchars, length_take, length_drop, length_chars.
    change (CHUNK_SIZE - CHUNK_OVERLAP) with 1600 in *. change CHUNK_SIZE with 1800. lia.
  - unfold chunksOf. by rewrite length_fmap, length_seq, length_chars.
  - unfold chunksOf. rewrite <- list_fmap_compose. fold step.
    rewrite <- (concat_steps step ((length (chars text) + step - 1) / step) (chars text)) at 2.
    + f_equal. apply list_fmap_ext. intros _ k _. simpl.
      rewrite chars_of_list. unfold slice. rewrite take_take. f_equal.
      change CHUNK_SIZE with 1800. change step with 1600. lia.
    + change step with 1600. lia.
    + change step with 1600.
      pose proof (Nat.div_mod_eq (length (chars text) + 1600 - 1) 1600) as Hdm.
      pose proof (Nat.mod_upper_bound (length (chars text) + 1600 - 1) 1600) as Hub.
      revert Hdm Hub. generalize ((length (chars text) + 1600 - 1) / 1600).
      generalize ((length (chars text) + 1600 - 1) mod 1600). lia.
  - intros k chunk next Hk Hnext.
    apply chunksOf_lookup in Hk as [_ ->]. apply chunksOf_lookup in Hnext as [_ ->].
    fold step. rewrite take_take.
    replace (S k * step) with (k * step + step) by lia.
    rewrite <- drop_drop.
    replace (CHUNK_OVERLAP `min` CHUNK_SIZE) with CHUNK_OVERLAP by (vm_compute; reflexivity).
    generalize (drop (k * step) (chars text)). intros l.
    by rewrite (take_drop_commute l CHUNK_OVERLAP step).
Qed.

Lemma chunksOf_covers_witness :
  1 ≤ String.length "abc" ≤ CHUNK_SIZE.
Proof.
  destruct (chunksOf_covers "abc") as (Hlen & _).
  apply Hlen. vm_compute. apply list_elem_of_here.
Defined.

Section LongTexts.
Variable sharedPipeline : string → Result Embedding.

(** The chunk loop asks for the chunks in order and stops at the first
    one that fails. *)
Lemma embedChunks_calls (chunks : list string) :
  let '(r, requested) := EmbeddingContext.embedChunks sharedPipeline chunks in
  match r with
  | Ok es => requested = chunks ∧ Forall2 (λ chunk e, sharedPipeline chunk = Ok e) chunks es
  | Err msg =>
      ∃ before chunk rest,
        chunks = before ++ chunk :: rest
        ∧ requested = before ++ [chunk]
        ∧ sharedPipeline chunk = Err msg
        ∧ Forall (λ c, is_ok (sharedPipeline c) = true) before
  end.
Proof.
  induction chunks as [|chunk chunks IH]; simpl; [by split|].
  destruct (sharedPipeline chunk) as [data|msg] eqn:Echunk.
  - destruct (EmbeddingContext.embedChunks sharedPipeline chunks) as [[es|msg] requested].
    + destruct IH as [-> Hall]. split; [done|]. by constructor.
    + destruct IH as (before & failing & rest & -> & -> & Hfail & Hbefore).
      exists (chunk :: before), failing, rest. split; [done|]. split; [done|].
      split; [done|]. constructor; [by rewrite Echunk | done].
  - exists [], chunk, chunks. split; [done|]. split; [done|]. split; [done|]. constructor.
Qed.

(** The calls [_computeEmbedding] makes.  A text of at most [CHUNK_SIZE]
    characters is handed to the pipeline as it is, once.  A longer text is
    handed over chunk by chunk, in order: when every chunk succeeds, all
    chunks are requested and the result is their weighted average; when
    one fails, the result is its error, and the chunks after it are
    never requested. *)
Theorem computeEmbedding_calls (text : string) :
  (String.length text ≤ CHUNK_SIZE →
   EmbeddingContext._computeEmbedding sharedPipeline text = (sharedPipeline text, [text]))
  ∧ (CHUNK_SIZE < String.length text →
     match EmbeddingContext._computeEmbedding sharedPipeline text with
     | (Ok e, requested) =>
         requested = chunksOf text
         ∧ ∃ es, Forall2 (λ chunk e, sharedPipeline chunk = Ok e) (chunksOf text) es
                 ∧ e = weightedAverage es
     | (Err msg, requested) =>
         ∃ before chunk rest,
           chunksOf text = before ++ chunk :: rest
           ∧ requested = before ++ [chunk]
           ∧ sharedPipeline chunk = Err msg
           ∧ Forall (λ c, is_ok (sharedPipeline c) = true) before
     end).
Proof.
  unfold EmbeddingContext._computeEmbedding. split; intros Hlen.
  - by rewrite (proj2 (Nat.leb_le _ _) Hlen).
  - rewrite (proj2 (Nat.leb_gt _ _) Hlen).
    pose proof (embedChunks_calls (chunksOf text)) as Hcalls.
    destruct (EmbeddingContext.embedChunks sharedPipeline (chunksOf text))
      as [[es|msg] requested]; [|done].
    destruct Hcalls as [-> Hall]. eauto.
Qed.

End LongTexts.

Lemma computeEmbedding_calls_witness :
  (EmbeddingContext._computeEmbedding unitPipeline longText).2 = chunksOf longText
  ∧ length (chunksOf longText) = 2.
Proof.
  destruct (computeEmbedding_calls unitPipeline longText) as [_ Hlong].
  assert (CHUNK_SIZE < String.length longText) as Hlen.
  { apply Nat.ltb_lt. vm_compute. reflexivity. }
  specialize (Hlong Hlen).
  destruct (EmbeddingContext._computeEmbedding unitPipeline longText) as [[e|msg] requested].
  - destruct Hlong as [-> _]. split; [reflexivity|]. vm_compute. reflexivity.
  - destruct Hlong as (before & chunk & rest & _ & _ & Hfail & _). discriminate Hfail.
Defined.

(** ** embeddings.js: the context *)

Section Context.
Variable sharedPipeline : string → Result Embedding.

(** What a call of [embed] leaves behind. *)
Lemma embed_outcome (text : string) (c : EmbeddingContext.t) :
  match EmbeddingContext.embed sharedPipeline text c with
  | (Ok e, c1) =>
      EmbeddingContext.contextEmbedding c1 = EmbeddingContext.contextEmbedding c
      ∧ JsMap.get (hashString text) (LRUCache.cache (EmbeddingContext.cache c1)) = Some e
  | (Err msg, c1) =>
      EmbeddingContext.contextEmbedding c1 = EmbeddingContext.contextEmbedding c
      ∧ EmbeddingContext.cache c1 = EmbeddingContext.cache c
      ∧ (EmbeddingContext._computeEmbedding sharedPipeline text).1 = Err msg
  end.
Proof.
  unfold EmbeddingContext.embed, EmbeddingContext.embed_start.
  destruct (JsMap.get (hashString text) (LRUCache.cache (EmbeddingContext.cache c)))
    as [cached|] eqn:Eget.
  - destruct (LRUCache_get_hit _ _ _ Eget) as (cache1 & -> & _ & _ & Hsame). simpl.
    split; [done|]. by rewrite Hsame.
  - rewrite (LRUCache_get_none _ _ Eget).
    destruct (EmbeddingContext._computeEmbedding sharedPipeline text)
      as [[computed|msg] requested]; simpl; [|done].
    split; [done|]. unfold LRUCache.set. simpl. apply JsMap_get_set_eq.
Qed.

(** [setContext]: on success the vector is the context's baseline and is
    cached under the key of the text; on failure the previous baseline (if
    any) stays, and so does the cache. *)
Theorem setContext_outcome (contextText : string) (c : EmbeddingContext.t) :
  match EmbeddingContext.setContext sharedPipeline contextText c with
  | (Ok e, c1) =>
      EmbeddingContext.contextEmbedding c1 = Some e
      ∧ JsMap.get (hashString contextText) (LRUCache.cache (EmbeddingContext.cache c1)) = Some e
  | (Err msg, c1) =>
      EmbeddingContext.contextEmbedding c1 = EmbeddingContext.contextEmbedding c
      ∧ EmbeddingContext.cache c1 = EmbeddingContext.cache c
      ∧ (EmbeddingContext._computeEmbedding sharedPipeline contextText).1 = Err msg
  end.
Proof.
  unfold EmbeddingContext.setContext.
  pose proof (embed_outcome contextText c) as Hembed.
  destruct (EmbeddingContext.embed sharedPipeline contextText c) as [[e|msg] c1]; [|done].
  simpl. by destruct Hembed as [_ Hcached].
Qed.

(** Scoring, right after [setContext], an item whose trimmed text is the
    context text makes no call of the pipeline: the vector comes from the
    cache, and the score is the similarity of the baseline with itself. *)
Theorem getRelevanceScore_of_context_text (contextText : string) (item : Item)
    (c c1 : EmbeddingContext.t) (e : Embedding) :
  EmbeddingContext.setContext sharedPipeline contextText c = (Ok e, c1) →
  trim (itemText item) = contextText →
  contextText ≠ "" →
  ∃ c2,
    EmbeddingContext.getRelevanceScore sharedPipeline item c1
    = (Ok (cosineSimilarity e e), c2)
    ∧ EmbeddingContext.calls c2 = EmbeddingContext.calls c1
    ∧ EmbeddingContext.contextEmbedding c2 = Some e.
Proof.
  intros Hset Htext Hne.
  assert (EmbeddingContext.contextEmbedding c1 = Some e
          ∧ JsMap.get (hashString contextText) (LRUCache.cache (EmbeddingContext.cache c1))
            = Some e) as [Hctx Hcached].
  { unfold EmbeddingContext.setContext in Hset.
    pose proof (embed_outcome contextText c) as Hembed.
    destruct (EmbeddingContext.embed sharedPipeline contextText c) as [[e'|msg] c'];
      [|done].
    injection Hset as -> <-. simpl. by destruct Hembed as [_ Hcached]. }
  unfold EmbeddingContext.getRelevanceScore, EmbeddingContext.getRelevanceScore_start.
  rewrite Hctx, Htext, bool_decide_eq_false_2 by done.
  unfold EmbeddingContext.embed_start.
  destruct (LRUCache_get_hit _ _ _ Hcached) as (cache2 & -> & _). simpl.
  rewrite Hctx. simpl. eauto.
Qed.

(** Without a baseline, a batch with at least one item is rejected at
    once, nothing being cached or asked of the pipeline -- also when
    the items have no text; a batch without items returns the empty map
    all the same. *)
Theorem batchRelevanceScores_without_context (items : list Item) (concurrency : positive)
    (c : EmbeddingContext.t) :
  EmbeddingContext.contextEmbedding c = None →
  EmbeddingContext.batchRelevanceScores sharedPipeline items concurrency c
  = (match items with
     | [] => Ok ∅
     | _ => Err "Context embedding not set. Call setContext first."
     end, c).
Proof.
  intros Hnone. unfold EmbeddingContext.batchRelevanceScores.
  destruct items as [|item items]; [done|].
  cbn [length EmbeddingContext.batchLoop].
  set (batch := take (Pos.to_nat concurrency) (item :: items)).
  assert (∃ rest, batch = item :: rest) as [rest ->].
  { unfold batch. destruct (Pos.to_nat concurrency) as [|n] eqn:E; [lia|]. simpl. eauto. }
  assert (∀ b, EmbeddingContext.startAll sharedPipeline b c
               = ((λ i, (id i, EmbeddingContext.Rejected
                                 "Context embedding not set. Call setContext first."))
                    <$> b, c)) as Hstart.
  { induction b as [|i b IH]; [done|]. simpl.
    unfold EmbeddingContext.getRelevanceScore_start. rewrite Hnone, IH. done. }
  rewrite Hstart.
  assert (∀ b, EmbeddingContext.finishAll
                 ((λ i, (id i, EmbeddingContext.Rejected
                                 "Context embedding not set. Call setContext first."))
                    <$> b) c
               = ((λ i, (id i, Err "Context embedding not set. Call setContext first."))
                    <$> b, c)) as Hfinish.
  { induction b as [|i b IH]; [done|]. rewrite fmap_cons. simpl. by rewrite IH. }
  rewrite Hfinish. done.
Qed.

End Context.

Lemma getRelevanceScore_of_context_text_witness :
  (EmbeddingContext.getRelevanceScore unitPipeline (bareItem "1" " ctx ")
     (EmbeddingContext.setContext unitPipeline "ctx" (EmbeddingContext.new 10)).2).1
  = Ok (cosineSimilarity [1%R] [1%R]).
Proof.
  destruct (EmbeddingContext.setContext unitPipeline "ctx" (EmbeddingContext.new 10))
    as [r c1] eqn:Eset.
  assert (r = Ok [1%R]) as ->.
  { apply (f_equal fst) in Eset. simpl in Eset. rewrite <- Eset. vm_compute. reflexivity. }
  destruct (getRelevanceScore_of_context_text unitPipeline "ctx" (bareItem "1" " ctx ")
              (EmbeddingContext.new 10) c1 [1%R] Eset) as (c2 & Hscore & _).
  - vm_compute. reflexivity.
  - discriminate.
  - cbn [snd]. rewrite Hscore. reflexivity.
Defined.

Lemma batchRelevanceScores_without_context_witness :
  (EmbeddingContext.batchRelevanceScores unitPipeline [bareItem "1" ""] 10
     (EmbeddingContext.new 10)).1
  = Err "Context embedding not set. Call setContext first.".
Proof.
  rewrite (batchRelevanceScores_without_context unitPipeline [bareItem "1" ""] 10
             (EmbeddingContext.new 10) eq_refl).
  reflexivity.
Defined.

(** ** novelty.js: storage *)

Lemma save_data_lookup (records : list NoveltyRecord) (d : gmap string NoveltyRecord)
    (i : string) :
  fold_left (λ d record, <[itemId record := record]> d) records d !! i
  = match last (filter (λ r, itemId r = i) records) with
    | Some r => Some r
    | None => d !! i
    end.
Proof.
  induction records as [|r records IH] using rev_ind; [done|].
  rewrite fold_left_app, filter_app. simpl. cbn [filter list_filter].
  destruct (decide (itemId r = i)) as [Hi|Hne].
  - rewrite last_snoc. subst i. apply lookup_insert_eq.
  - rewrite app_nil_r, lookup_insert_ne by done. exact IH.
Qed.

Lemma load_data_lookup (d : gmap string NoveltyRecord) (ids : list string) (j : string) :
  fold_left (λ (result : gmap string NoveltyRecord) i,
               match d !! i with
               | Some r => <[i := r]> result
               | None => result
               end) ids ∅ !! j
  = if bool_decide (j ∈ ids) then d !! j else None.
Proof.
  induction ids as [|i ids IH] using rev_ind; [done|].
  rewrite fold_left_app. simpl.
  destruct (decide (j = i)) as [->|Hne].
  - rewrite (bool_decide_eq_true_2 (i ∈ ids ++ [i])) by set_solver.
    destruct (d !! i) as [r|] eqn:Ei; [apply lookup_insert_eq|].
    rewrite IH. by destruct (bool_decide (i ∈ ids)).
  - assert (bool_decide (j ∈ ids ++ [i]) = bool_decide (j ∈ ids)) as ->.
    { apply bool_decide_ext. set_solver. }
    destruct (d !! i) as [r|]; [rewrite lookup_insert_ne by done|]; exact IH.
Qed.

(** The in-memory store: [save] never fails and files each record under
    its [itemId], the last record of an id winning and the records of other
    ids staying; [load] never fails, changes nothing and returns exactly the
    stored records of the ids asked for. *)
Theorem MemoryStorageAdapter_round_trip (records : list NoveltyRecord) (ids : list string)
    (s : MemoryStorageAdapter.t) :
  (MemoryStorageAdapter.save records s).1 = Ok ()
  ∧ (∀ i, MemoryStorageAdapter.data (MemoryStorageAdapter.save records s).2 !! i
          = match last (filter (λ r, itemId r = i) records) with
            | Some r => Some r
            | None => MemoryStorageAdapter.data s !! i
            end)
  ∧ ∃ found,
      MemoryStorageAdapter.load ids s = (Ok found, s)
      ∧ ∀ i, found !! i
             = if bool_decide (i ∈ ids) then MemoryStorageAdapter.data s !! i else None.
Proof.
  split; [done|]. split.
  - intros i. apply save_data_lookup.
  - eexists. split; [reflexivity|]. intros i. apply load_data_lookup.
Qed.

(** ** novelty.js: the tracker across restarts *)




Section Restart.


End Restart.


(** ** novelty.js: batches and statistics *)

Section ProcessItems.
Context {B : Type} `{!StorageAdapter B}.
Variable clock : nat → Z.

Lemma getNoveltyScore_markSeen_other (now seen : Z) (i j : string) (md : CallerMetadata)
    (tr : NoveltyTracker.t B) :
  j ≠ i →
  NoveltyTracker.getNoveltyScore now j (NoveltyTracker.markSeen seen i md tr)
  = NoveltyTracker.getNoveltyScore now j tr.
Proof.
  intros Hne. unfold NoveltyTracker.getNoveltyScore.
  rewrite markSeen_cache_other by done.
  unfold NoveltyTracker.markSeen. by destruct (NoveltyTracker.cache tr !! i).
Qed.

Lemma processLoop_spec (items : list Item) (scores : JsMap.t R) (tick : nat)
    (tr : NoveltyTracker.t B) :
  NoDup (id <$> items) →
  (∀ item, item ∈ items → id item ∉ JsMap.keys scores) →
  ∃ calls,
    (NoveltyTracker.processLoop clock items scores tick tr).2 = markAll calls tr
    ∧ calls.*1.*2 = id <$> items
    ∧ (∀ seen, seen ∈ calls.*1.*1 → ∃ k, tick ≤ k ∧ seen = clock k)
    ∧ JsMap.keys (NoveltyTracker.processLoop clock items scores tick tr).1.1
      = JsMap.keys scores ++ (id <$> items)
    ∧ (∀ j, j ∉ id <$> items →
            JsMap.get j (NoveltyTracker.processLoop clock items scores tick tr).1.1
            = JsMap.get j scores)
    ∧ ∀ item, item ∈ items →
        ∃ k, tick ≤ k
             ∧ JsMap.get (id item) (NoveltyTracker.processLoop clock items scores tick tr).1.1
               = Some (NoveltyTracker.getNoveltyScore (clock k) (id item) tr).
Proof.
  revert scores tick tr. induction items as [|item items IH]; intros scores tick tr Hnd Hfresh.
  - exists []. simpl. rewrite app_nil_r. repeat split; try done.
    + intros seen Hseen. by apply elem_of_nil in Hseen.
    + intros item Hitem. by apply elem_of_nil in Hitem.
  - rewrite fmap_cons in Hnd. apply NoDup_cons in Hnd as [Hitem Hnd].
    cbn [NoveltyTracker.processLoop].
    set (tick1 := match NoveltyTracker.cache tr !! id item ≫= firstSeen with
                  | Some _ => S tick
                  | None => tick
                  end).
    assert (tick ≤ tick1) as Htick by (unfold tick1; destruct (_ ≫= _); lia).
    set (md := {| mdTitle := Some (title item); mdSource := source item |}).
    set (tr1 := NoveltyTracker.markSeen (clock tick1) (id item) (titleAndSource md) tr).
    set (scores1 := JsMap.set (id item)
                      (NoveltyTracker.getNoveltyScore (clock tick) (id item) tr) scores).
    destruct (IH scores1 (S tick1) tr1 Hnd) as (calls & Htr & Hids & Hclock & Hkeys & Hframe & Hget).
    { intros item' Hin'. unfold scores1. rewrite JsMap_keys_set. intros [Heq|Hin''].
      - apply Hitem. rewrite <- Heq. apply list_elem_of_fmap. by exists item'.
      - apply (Hfresh item'); [by apply list_elem_of_further|done]. }
    exists ((clock tick1, id item, md) :: calls). split; [exact Htr|].
    split; [by rewrite !fmap_cons, Hids|]. split; [|split; [|split]].
    + rewrite !fmap_cons. intros seen [->|Hseen]%elem_of_cons; [eauto|].
      destruct (Hclock seen Hseen) as (k & Hk & ->). exists k. split; [lia|done].
    + rewrite Hkeys. unfold scores1.
      rewrite JsMap_set_absent by (apply Hfresh, list_elem_of_here).
      rewrite JsMap_keys_snoc, fmap_cons, <- app_assoc. done.
    + intros j Hj. rewrite fmap_cons in Hj. apply not_elem_of_cons in Hj as [Hne Hj].
      rewrite (Hframe j Hj). unfold scores1. by apply JsMap_get_set_ne.
    + intros item' [->|Hin']%elem_of_cons.
      * exists tick. split; [done|]. rewrite (Hframe (id item) Hitem).
        unfold scores1. apply JsMap_get_set_eq.
      * destruct (Hget item' Hin') as (k & Hk & ->). exists k. split; [lia|].
        f_equal. unfold tr1. apply getNoveltyScore_markSeen_other.
        intros Heq. apply Hitem. rewrite <- Heq. apply list_elem_of_fmap. by exists item'.
Qed.

(** [processItems] on items with distinct ids: the map returned has
    exactly the ids of the items, in item order; the score of an id is the
    score it had before the batch, at a clock reading of the batch -- 1
    for an id without a record; afterwards every id has been marked seen,
    once, in item order. *)
Theorem processItems_scores (tick : nat) (items : list Item) (tr : NoveltyTracker.t B) :
  NoDup (id <$> items) →
  let '(scores, _, tr') := NoveltyTracker.processItems clock tick items tr in
  JsMap.keys scores = id <$> items
  ∧ (∀ item, item ∈ items →
       ∃ k, tick ≤ k
            ∧ JsMap.get (id item) scores
              = Some (NoveltyTracker.getNoveltyScore (clock k) (id item) tr))
  ∧ (∀ item, item ∈ items → NoveltyTracker.cache tr !! id item = None →
             JsMap.get (id item) scores = Some 1%R)
  ∧ (∃ calls, tr' = markAll calls tr ∧ calls.*1.*2 = id <$> items)
  ∧ ∀ item, item ∈ items → NoveltyTracker.hasSeen (id item) tr' = true.
Proof.
  intros Hnd. unfold NoveltyTracker.processItems.
  destruct (processLoop_spec items [] tick tr Hnd)
    as (calls & Htr & Hids & _ & Hkeys & _ & Hget).
  { intros item _ Hin. by apply elem_of_nil in Hin. }
  destruct (NoveltyTracker.processLoop clock items [] tick tr) as [[scores tick'] tr'].
  simpl in *. subst tr'. split; [done|]. split; [done|]. split; [|split; [eauto|]].
  - intros item Hitem Hnone. destruct (Hget item Hitem) as (k & _ & ->).
    unfold NoveltyTracker.getNoveltyScore. by rewrite Hnone.
  - intros item Hitem. unfold NoveltyTracker.hasSeen. apply bool_decide_eq_true_2.
    destruct (markAll_touched calls (id item) tr) as (r & _ & -> & _); [|done].
    rewrite Hids. apply list_elem_of_fmap. by exists item.
Qed.

End ProcessItems.

Lemma processItems_scores_witness :
  JsMap.keys (NoveltyTracker.processItems stillClock 0
                [bareItem "a" "one"; bareItem "b" "two"] freshTracker).1.1
  = ["a"; "b"].
Proof.
  pose proof (@processItems_scores MemoryStorageAdapter.t stillClock 0
                [bareItem "a" "one"; bareItem "b" "two"] freshTracker) as Hscores.
  destruct (NoveltyTracker.processItems stillClock 0
              [bareItem "a" "one"; bareItem "b" "two"] freshTracker) as [[scores tick] tr].
  apply Hscores. vm_compute.
  apply NoDup_cons. split.
  - intros [Hin|Hin]%elem_of_cons; [discriminate Hin|by apply elem_of_nil in Hin].
  - apply NoDup_singleton.
Defined.

Section Stats.
Context {B : Type}.

Lemma filter_length_le {A} (p q : A → bool) (l : list A) :
  (∀ x, p x = true → q x = true) →
  length (List.filter p l) ≤ length (List.filter q l).
Proof.
  intros Hpq. induction l as [|x l IH]; simpl; [done|].
  destruct (p x) eqn:Ep.
  - rewrite (Hpq x Ep). simpl. lia.
  - destruct (q x); simpl; lia.
Qed.

Lemma filter_length_bound {A} (p : A → bool) (l : list A) :
  length (List.filter p l) ≤ length l.
Proof. induction l as [|x l IH]; simpl; [done|]. destruct (p x); simpl; lia. Qed.

Lemma filter_length_Permutation {A} (p : A → bool) (l k : list A) :
  l ≡ₚ k → length (List.filter p l) = length (List.filter p k).
Proof.
  induction 1 as [|x l k _ IH|x y l|l k m _ IH1 _ IH2]; simpl; [done| | |congruence].
  - destruct (p x); simpl; by rewrite IH.
  - destruct (p x), (p y); simpl; done.
Qed.

(** The statistics: the items first seen in the last day are among those
    first seen in the last week, and these among all items cached; the
    pending count is the number of records waiting for a flush.  Marking
    an id without a record adds one to each of the four numbers, when
    the statistics are read within a day of the marking. *)
Theorem getStats_counts (now : Z) (tr : NoveltyTracker.t B) :
  let stats := NoveltyTracker.getStats now tr in
  NoveltyTracker.newToday stats ≤ NoveltyTracker.newThisWeek stats
  ∧ NoveltyTracker.newThisWeek stats ≤ NoveltyTracker.total stats
  ∧ NoveltyTracker.total stats = size (NoveltyTracker.cache tr)
  ∧ NoveltyTracker.pendingCount stats = JsMap.size (NoveltyTracker.pendingUpdates tr)
  ∧ ∀ seen i (md : SeenMetadata),
      NoveltyTracker.cache tr !! i = None →
      i ∉ JsMap.keys (NoveltyTracker.pendingUpdates tr) →
      (now - 24 * 60 * 60 * 1000 < seen)%Z →
      NoveltyTracker.getStats now (NoveltyTracker.markSeen seen i (titleAndSource md) tr)
      = {| NoveltyTracker.total := S (NoveltyTracker.total stats);
           NoveltyTracker.newToday := S (NoveltyTracker.newToday stats);
           NoveltyTracker.newThisWeek := S (NoveltyTracker.newThisWeek stats);
           NoveltyTracker.pendingCount := S (NoveltyTracker.pendingCount stats) |}.
Proof.
  intros stats. unfold stats, NoveltyTracker.getStats. simpl.
  split; [|split; [|split; [done|split; [done|]]]].
  - apply filter_length_le. intros r. unfold NoveltyTracker.firstSeenAfter.
    destruct (firstSeen r) as [t|]; [|done].
    intros Ht%bool_decide_eq_true_1. apply bool_decide_eq_true_2. lia.
  - etransitivity; [apply filter_length_bound|].
    by rewrite length_fmap, length_map_to_list.
  - intros seen i md Hnone Hpending Hrecent.
    unfold NoveltyTracker.markSeen. rewrite Hnone. simpl.
    set (r := {| itemId := i; firstSeen := Some seen; lastSeen := Some seen;
                 seenCount := Some 1%Z; recTitle := mdTitle md; recSource := mdSource md |}).
    assert ((map_to_list (<[i := r]> (NoveltyTracker.cache tr))).*2
            ≡ₚ r :: (map_to_list (NoveltyTracker.cache tr)).*2) as Hperm.
    { rewrite map_to_list_insert by done. done. }
    rewrite !(filter_length_Permutation _ _ _ Hperm). simpl.
    assert (∀ cutoff, (cutoff < seen)%Z → NoveltyTracker.firstSeenAfter cutoff r = true)
      as Hafter.
    { intros cutoff Hlt. unfold NoveltyTracker.firstSeenAfter. simpl.
      by apply bool_decide_eq_true_2. }
    rewrite !Hafter by lia. simpl.
    rewrite map_size_insert_None by done.
    by rewrite JsMap_size_set_new.
Qed.

End Stats.

Lemma getStats_counts_witness :
  NoveltyTracker.getStats 2000
    (NoveltyTracker.markSeen 1000 "a" (titleAndSource noSeenMetadata) freshTracker)
  = {| NoveltyTracker.total := 1; NoveltyTracker.newToday := 1;
       NoveltyTracker.newThisWeek := 1; NoveltyTracker.pendingCount := 1 |}.
Proof.
  destruct (@getStats_counts MemoryStorageAdapter.t 2000 freshTracker) as (_ & _ & _ & _ & Hmark).
  rewrite (Hmark 1000%Z "a" noSeenMetadata).
  - reflexivity.
  - reflexivity.
  - intros Hin. by apply elem_of_nil in Hin.
  - lia.
Defined.

(** ** scoring.js: sorting *)

Section Sorting.
Context {A : Type}.
Variable after : A → A → bool.

Lemma insertSorted_Permutation (x : A) (l : list A) : insertSorted after x l ≡ₚ x :: l.
Proof.
  induction l as [|y l IH]; simpl; [done|].
  destruct (after x y); [|done]. rewrite IH. apply Permutation_swap.
Qed.

Lemma stableSort_Permutation (l : list A) : stableSort after l ≡ₚ l.
Proof.
  unfold stableSort. induction l as [|x l IH]; simpl; [done|].
  by rewrite insertSorted_Permutation, IH.
Qed.

(** The order [after] defines need only be one on the elements sorted:
    on those with [P]. *)
Variable P : A → Prop.
Hypothesis after_asym : ∀ x y, P x → P y → after x y = true → after y x = false.
Hypothesis after_trans :
  ∀ x y z, P x → P y → P z →
           after x y = false → after y z = false → after x z = false.

Lemma insertSorted_sorted (x : A) (l : list A) :
  P x → Forall P l →
  StronglySorted (λ a b, after a b = false) l →
  StronglySorted (λ a b, after a b = false) (insertSorted after x l).
Proof.
  intros Hx HP. induction 1 as [|y l Hl IH Hy]; simpl.
  - repeat constructor.
  - apply Forall_cons in HP as [HPy HP]. destruct (after x y) eqn:Exy.
    + constructor; [by apply IH|].
      rewrite Forall_forall. intros z Hz.
      apply list_elem_of_In, (Permutation_in _ (insertSorted_Permutation x l)) in Hz.
      destruct Hz as [<-|Hz]; [by apply after_asym|].
      rewrite Forall_forall in Hy. apply Hy. by apply list_elem_of_In.
    + constructor; [by constructor|]. constructor; [done|].
      rewrite Forall_forall in Hy, HP. rewrite Forall_forall. intros z Hz.
      apply (after_trans x y z); auto.
Qed.

Lemma stableSort_sorted (l : list A) :
  Forall P l → StronglySorted (λ a b, after a b = false) (stableSort after l).
Proof.
  unfold stableSort. induction l as [|x l IH]; simpl; [constructor|].
  intros [Hx HP]%Forall_cons. apply insertSorted_sorted; [done| |by apply IH].
  fold (stableSort after l). by rewrite stableSort_Permutation.
Qed.

(** A list that is in order already is left as it is. *)
Lemma stableSort_sorted_id (l : list A) :
  StronglySorted (λ a b, after a b = false) l → stableSort after l = l.
Proof.
  unfold stableSort. induction 1 as [|x l Hl IH Hx]; simpl; [done|].
  rewrite IH. destruct l as [|y l']; simpl; [done|].
  apply Forall_cons in Hx as [-> _]. done.
Qed.

End Sorting.

Lemma StronglySorted_app_inv {A} (R0 : A → A → Prop) (l1 l2 : list A) (x y : A) :
  StronglySorted R0 (l1 ++ l2) → x ∈ l1 → y ∈ l2 → R0 x y.
Proof.
  induction l1 as [|z l1 IH]; intros Hs Hx Hy; [by apply elem_of_nil in Hx|].
  simpl in Hs. apply StronglySorted_inv in Hs as [Hs Hz].
  apply elem_of_cons in Hx as [->|Hx]; [|by apply IH].
  rewrite Forall_forall in Hz. apply Hz, elem_of_app. by right.
Qed.

Lemma StronglySorted_weaken {A} (R1 R2 : A → A → Prop) (l : list A) :
  (∀ a b, R1 a b → R2 a b) → StronglySorted R1 l → StronglySorted R2 l.
Proof.
  intros Himpl. induction 1 as [|x l Hl IH Hx]; constructor; [done|].
  eapply Forall_impl; [exact Hx|]. intros y. apply Himpl.
Qed.

Lemma descendingBy_asym {A} (key : A → R) (x y : A) :
  descendingBy key x y = true → descendingBy key y x = false.
Proof. unfold descendingBy. do 2 destruct (Rlt_dec _ _); try done. lra. Qed.

Lemma descendingBy_trans {A} (key : A → R) (x y z : A) :
  descendingBy key x y = false → descendingBy key y z = false →
  descendingBy key x z = false.
Proof. unfold descendingBy. do 3 destruct (Rlt_dec _ _); try done. lra. Qed.

Lemma descendingBy_false {A} (key : A → R) (x y : A) :
  descendingBy key x y = false ↔ (key y <= key x)%R.
Proof. unfold descendingBy. destruct (Rlt_dec _ _); split; try done; lra. Qed.

Lemma scoreAll_items (clock : nat → Z) (tick : nat) (signals : list Item)
    (options : ScoringOptions) :
  scoredItem <$> (scoreAll clock tick signals options).1 = signals.
Proof.
  revert tick. induction signals as [|signal signals IH]; intros tick; simpl; [done|].
  specialize (IH (afterReading (getRelevantTimestamp signal ∅) tick)).
  destruct (scoreAll clock _ signals options) as [more tick']. simpl in *. by f_equal.
Qed.

(** [scoreAndSortSignals] returns every signal it was given, scored,
    exactly once, in non-increasing order of the key chosen by [sortBy]
    (the composite score unless [sortBy] is recency, engagement or
    relevance); signals that are in that order already keep their places. *)
Theorem scoreAndSortSignals_sorted (clock : nat → Z) (tick : nat) (signals : list Item)
    (options : ScoringOptions) :
  let sorted := (scoreAndSortSignals clock tick signals options).1 in
  let key := sortKeyOf (sortBy options) in
  sorted ≡ₚ (scoreAll clock tick signals options).1
  ∧ scoredItem <$> sorted ≡ₚ signals
  ∧ StronglySorted (λ a b, key b <= key a)%R sorted
  ∧ (StronglySorted (λ a b, key b <= key a)%R (scoreAll clock tick signals options).1 →
     scoredItem <$> sorted = signals).
Proof.
  intros sorted key.
  assert (sorted = stableSort (descendingBy key) (scoreAll clock tick signals options).1)
    as Hsorted.
  { unfold sorted, scoreAndSortSignals.
    destruct (scoreAll clock tick signals options) as [scored tick']. simpl.
    reflexivity. }
  rewrite Hsorted. split; [apply stableSort_Permutation|]. split; [|split].
  - rewrite stableSort_Permutation. by rewrite scoreAll_items.
  - apply (StronglySorted_weaken (λ a b, descendingBy key a b = false)).
    + intros a b. apply descendingBy_false.
    + apply (stableSort_sorted _ (λ _, True)).
      * intros x y _ _. apply descendingBy_asym.
      * intros x y z _ _ _. apply descendingBy_trans.
      * by apply Forall_forall.
  - intros Hin. rewrite stableSort_sorted_id; [apply scoreAll_items|].
    apply (StronglySorted_weaken (λ a b, key b <= key a)%R); [|exact Hin].
    intros a b. apply descendingBy_false.
Qed.

Lemma scoreAndSortSignals_sorted_witness :
  scoredItem <$> (scoreAndSortSignals stillClock 0 [bareItem "1" "a"; bareItem "2" "b"]
                    defaultScoringOptions).1
  = [bareItem "1" "a"; bareItem "2" "b"].
Proof.
  apply (scoreAndSortSignals_sorted stillClock 0 [bareItem "1" "a"; bareItem "2" "b"]
           defaultScoringOptions).
  cbn [scoreAll fst]. apply SSorted_cons.
  - apply SSorted_cons; [apply SSorted_nil | apply List.Forall_nil].
  - apply List.Forall_cons; [|apply List.Forall_nil]. apply Req_le. reflexivity.
Defined.

(** ** scoring.js: recency and engagement *)

(** Recency, with the half-life of 7 days that [calculateSignalScore]
    leaves to the default: an item without a timestamp scores 50, whatever
    the clock reads; an item stamped now or in the future scores exactly
    100; and no item scores below 0 or above 100. *)
Theorem calculateRecencyScore_bounds (now : Z) (timestamp : option Z) :
  calculateRecencyScore now None 7 = 50%R
  ∧ (∀ itemDate, timestamp = Some itemDate → (now <= itemDate)%Z →
       calculateRecencyScore now timestamp 7 = 100%R)
  ∧ (0 <= calculateRecencyScore now timestamp 7 <= 100)%R.
Proof.
  split; [done|]. split; [|apply calculateRecencyScore_range].
  intros itemDate -> Hle. unfold calculateRecencyScore.
  change (1000 * 60 * 60 * 24)%R with MS_PER_DAY.
  pose proof MS_PER_DAY_pos as Hday. pose proof ln_2_pos as Hln.
  assert (0 < ln 2 / 7)%R as Hrate by lra.
  assert (IZR (now - itemDate) / MS_PER_DAY <= 0)%R as Hage.
  { assert (IZR (now - itemDate) <= 0)%R as Hneg by (apply IZR_le; lia).
    pose proof (Rinv_0_lt_compat _ Hday) as Hinv. unfold Rdiv. nra. }
  assert (1 <= exp (- (ln 2 / 7) * (IZR (now - itemDate) / MS_PER_DAY)))%R.
  { rewrite <- exp_0.
    destruct (Req_dec (IZR (now - itemDate) / MS_PER_DAY) 0) as [->|Hne].
    - rewrite Rmult_0_r. lra.
    - left. apply exp_increasing. nra. }
  rewrite Rmin_left, Rmax_right by lra. done.
Qed.

Lemma calculateRecencyScore_bounds_witness :
  calculateRecencyScore 1000 (Some 2000%Z) 7 = 100%R.
Proof.
  destruct (calculateRecencyScore_bounds 1000 (Some 2000%Z)) as (_ & Hfuture & _).
  apply (Hfuture 2000%Z); [reflexivity | lia].
Defined.

(** ** scoring.js: time ranges *)

Lemma filter_filter_narrow {A} (p q : A → bool) (l : list A) :
  (∀ x, p x = true → q x = true) →
  List.filter p (List.filter q l) = List.filter p l.
Proof.
  intros Hpq. induction l as [|x l IH]; simpl; [done|].
  destruct (q x) eqn:Eq; simpl.
  - by rewrite IH.
  - destruct (p x) eqn:Ep; [|done]. rewrite (Hpq x Ep) in Eq. done.
Qed.

Lemma notBefore_earlier (c1 c2 : Z) (signal : Item) :
  (c2 <= c1)%Z → notBefore c1 signal = true → notBefore c2 signal = true.
Proof.
  unfold notBefore. intros Hle. destruct (getRelevantTimestamp signal ∅) as [t|]; [|done].
  intros Ht%bool_decide_eq_true_1. apply bool_decide_eq_true_2. lia.
Qed.

(** [filterByTimeRange]: without a range, with "all", and with any range
    other than "24h", "7d" and "30d", every signal is returned.  With one
    of these three, the signals returned are those with a timestamp not
    older than 1, 7 or 30 days, in their order; a signal without a
    timestamp is never among them.  Filtering by a range what was filtered
    by a wider range is filtering by the range itself. *)
Theorem filterByTimeRange_ranges (now : Z) (signals : list Item) :
  filterByTimeRange now signals None = signals
  ∧ filterByTimeRange now signals (Some "all") = signals
  ∧ (∀ since, since ∉ ["24h"; "7d"; "30d"] →
              filterByTimeRange now signals (Some since) = signals)
  ∧ (∀ since days, (since, days) ∈ [("24h", 1%Z); ("7d", 7%Z); ("30d", 30%Z)] →
       filterByTimeRange now signals (Some since)
       = List.filter (notBefore (now - days * 24 * 60 * 60 * 1000)) signals
       ∧ ∀ signal,
           signal ∈ filterByTimeRange now signals (Some since)
           ↔ signal ∈ signals
             ∧ ∃ t, getRelevantTimestamp signal ∅ = Some t
                    ∧ (now - days * 24 * 60 * 60 * 1000 <= t)%Z)
  ∧ (∀ narrow wide, (narrow, wide) ∈ [("24h", "7d"); ("24h", "30d"); ("7d", "30d")] →
       filterByTimeRange now (filterByTimeRange now signals (Some wide)) (Some narrow)
       = filterByTimeRange now signals (Some narrow)).
Proof.
  split; [done|]. split; [done|]. split; [|split].
  - intros since Hsince. unfold filterByTimeRange. simpl.
    destruct (bool_decide (since = "all")); [done|].
    unfold cutoffOf. rewrite !bool_decide_eq_false_2; [done|set_solver..].
  - intros since days Hin.
    assert (filterByTimeRange now signals (Some since)
            = List.filter (notBefore (now - days * 24 * 60 * 60 * 1000)) signals) as ->.
    { repeat (apply elem_of_cons in Hin as [[= -> ->]|Hin]; [reflexivity|]).
      by apply elem_of_nil in Hin. }
    split; [done|]. intros signal.
    rewrite list_elem_of_In, filter_In, <- list_elem_of_In. unfold notBefore.
    destruct (getRelevantTimestamp signal ∅) as [t|].
    + rewrite bool_decide_eq_true. naive_solver.
    + naive_solver.
  - intros narrow wide Hin.
    repeat (apply elem_of_cons in Hin as [[= -> ->]|Hin];
            [apply filter_filter_narrow; intros x; apply notBefore_earlier; lia|]).
    by apply elem_of_nil in Hin.
Qed.

Lemma filterByTimeRange_ranges_witness :
  filterByTimeRange 0 [bareItem "1" "a"] (Some "week") = [bareItem "1" "a"]
  ∧ filterByTimeRange 0 [bareItem "1" "a"] (Some "7d") = [].
Proof.
  destruct (filterByTimeRange_ranges 0 [bareItem "1" "a"]) as (_ & _ & Hother & Hrange & _).
  split.
  - apply Hother. intros Hin.
    repeat (apply elem_of_cons in Hin as [Hin|Hin]; [discriminate Hin|]).
    by apply elem_of_nil in Hin.
  - destruct (Hrange "7d" 7%Z) as [-> _]; [|reflexivity].
    apply list_elem_of_further, list_elem_of_here.
Defined.

(** ** novelty.js: pruning in the persistent adapters *)

Lemma fold_set_keys (records : list NoveltyRecord) (d : JsMap.t NoveltyRecord) :
  NoDup (JsMap.keys d) →
  NoDup (JsMap.keys (fold_left (λ d record, JsMap.set (itemId record) record d) records d)).
Proof.
  revert d. induction records as [|r records IH]; intros d Hnd; simpl; [done|].
  by apply IH, JsMap_NoDup_set.
Qed.

Lemma fold_delete_keys (ks : list (string * NoveltyRecord)) (d : JsMap.t NoveltyRecord)
    (j : string) :
  j ∈ JsMap.keys (fold_left (λ d e, JsMap.delete e.1 d) ks d)
  ↔ j ∈ JsMap.keys d ∧ j ∉ ks.*1.
Proof.
  revert d. induction ks as [|[k r] ks IH]; intros d; simpl.
  - set_solver.
  - rewrite IH, JsMap_keys_delete. set_solver.
Qed.

Lemma fold_delete_get (ks : list (string * NoveltyRecord)) (d : JsMap.t NoveltyRecord)
    (j : string) :
  j ∉ ks.*1 → JsMap.get j (fold_left (λ d e, JsMap.delete e.1 d) ks d) = JsMap.get j d.
Proof.
  revert d. induction ks as [|[k r] ks IH]; intros d; simpl; [done|].
  intros [Hne Hj]%not_elem_of_cons. rewrite IH by done. by apply JsMap_get_delete_ne.
Qed.

Lemma fold_delete_NoDup (ks : list (string * NoveltyRecord)) (d : JsMap.t NoveltyRecord) :
  NoDup (JsMap.keys d) → NoDup (JsMap.keys (fold_left (λ d e, JsMap.delete e.1 d) ks d)).
Proof.
  revert d. induction ks as [|[k r] ks IH]; intros d Hnd; simpl; [done|].
  by apply IH, JsMap_NoDup_delete.
Qed.

Lemma fold_delete_size (ks : list (string * NoveltyRecord)) (d : JsMap.t NoveltyRecord) :
  NoDup ks.*1 → (∀ k, k ∈ ks.*1 → k ∈ JsMap.keys d) →
  JsMap.size (fold_left (λ d e, JsMap.delete e.1 d) ks d) + length ks ≤ JsMap.size d.
Proof.
  revert d. induction ks as [|[k r] ks IH]; intros d Hnd Hin; simpl; [lia|].
  rewrite fmap_cons in Hnd. apply NoDup_cons in Hnd as [Hk Hnd].
  pose proof (JsMap_size_delete k d (Hin k (list_elem_of_here _ _))) as Hsize.
  specialize (IH (JsMap.delete k d) Hnd). simpl in *.
  assert (∀ k0, k0 ∈ ks.*1 → k0 ∈ JsMap.keys (JsMap.delete k d)) as Hin'.
  { intros k0 Hk0. apply JsMap_keys_delete. split.
    - apply Hin. by apply list_elem_of_further.
    - intros ->. done. }
  specialize (IH Hin'). lia.
Qed.

Lemma later_asym (a b : string * NoveltyRecord) :
  LocalStorageAdapter.later a b = true → LocalStorageAdapter.later b a = false.
Proof.
  unfold LocalStorageAdapter.later.
  destruct (LocalStorageAdapter.seenTime a.2), (LocalStorageAdapter.seenTime b.2); try done.
  intros H%bool_decide_eq_true_1. apply bool_decide_eq_false_2. lia.
Qed.

Lemma later_trans (a b c : string * NoveltyRecord) :
  is_Some (LocalStorageAdapter.seenTime b.2) →
  LocalStorageAdapter.later a b = false → LocalStorageAdapter.later b c = false →
  LocalStorageAdapter.later a c = false.
Proof.
  unfold LocalStorageAdapter.later. intros [tb ->].
  destruct (LocalStorageAdapter.seenTime a.2), (LocalStorageAdapter.seenTime c.2); try done.
  intros H1%bool_decide_eq_false_1 H2%bool_decide_eq_false_1.
  apply bool_decide_eq_false_2. lia.
Qed.

(** What [prune] removes and what it keeps. *)
Lemma prune_spec (maxEntries : nat) (d : JsMap.t NoveltyRecord) :
  NoDup (JsMap.keys d) →
  ∃ removed kept,
    stableSort LocalStorageAdapter.later d = removed ++ kept
    ∧ length removed = JsMap.size d - maxEntries
    ∧ (∀ j, j ∈ JsMap.keys (LocalStorageAdapter.prune maxEntries d)
            ↔ j ∈ JsMap.keys d ∧ j ∉ removed.*1)
    ∧ (∀ j, j ∉ removed.*1 →
            JsMap.get j (LocalStorageAdapter.prune maxEntries d) = JsMap.get j d)
    ∧ NoDup (JsMap.keys (LocalStorageAdapter.prune maxEntries d))
    ∧ JsMap.size (LocalStorageAdapter.prune maxEntries d) + length removed ≤ JsMap.size d.
Proof.
  intros Hnd. unfold LocalStorageAdapter.prune.
  pose proof (stableSort_Permutation LocalStorageAdapter.later d) as Hperm.
  destruct (maxEntries <? JsMap.size d)%nat eqn:Eover.
  - apply Nat.ltb_lt in Eover.
    set (entries := stableSort LocalStorageAdapter.later d) in *.
    assert (length entries = JsMap.size d) as Hlen by (by rewrite Hperm).
    exists (take (length entries - maxEntries) entries),
           (drop (length entries - maxEntries) entries).
    split; [by rewrite take_drop|]. split; [rewrite length_take; lia|].
    split; [apply fold_delete_keys|]. split; [apply fold_delete_get|].
    split; [by apply fold_delete_NoDup|].
    apply fold_delete_size.
    + assert (NoDup entries.*1) as Hnd' by (by rewrite Hperm).
      rewrite <- (take_drop (length entries - maxEntries) entries), fmap_app in Hnd'.
      by apply NoDup_app in Hnd' as [? _].
    + intros k [[k' r] [-> Hin]]%list_elem_of_fmap. simpl.
      assert ((k', r) ∈ entries) as Hin'.
      { rewrite <- (take_drop (length entries - maxEntries) entries).
        apply elem_of_app. by left. }
      unfold JsMap.keys. apply list_elem_of_fmap. exists (k', r). split; [done|].
      by rewrite <- Hperm.
  - apply Nat.ltb_ge in Eover. exists [], (stableSort LocalStorageAdapter.later d).
    split; [done|]. split; [simpl; lia|]. split; [set_solver|]. split; [done|].
    split; [done|]. simpl. lia.
Qed.

(** [save] of the file adapter.  When the file cannot be read, [save] is
    rejected with the error of the read and nothing changes.  Otherwise it
    sets and prunes the data before it writes: it resolves or rejects as
    the write of the pruned data does, and holds the same data afterwards
    as the local-storage adapter, whose [save] always resolves.  Whether or
    not the write fails, the adapter then holds at most [maxEntries]
    records, each of them as it was saved or held before; and when every
    record has a time, the records dropped are the ones seen longest ago:
    no record dropped was seen later than a record kept. *)
Theorem FileStorageAdapter_save_prunes (records : list NoveltyRecord)
    (s : FileStorageAdapter.t) :
  match (FileStorageAdapter._ensureLoaded s).1 with
  | Err msg => FileStorageAdapter.save records s = (Err msg, s)
  | Ok loaded =>
      NoDup (JsMap.keys loaded) →
      let saved := fold_left (λ d record, JsMap.set (itemId record) record d) records loaded in
      let s' := (FileStorageAdapter.save records s).2 in
      ∃ kept,
        FileStorageAdapter.data s' = Some kept
        ∧ (FileStorageAdapter.save records s).1 = FileStorageAdapter.writeFile s kept
        ∧ LocalStorageAdapter.save records
            (LocalStorageAdapter.mk (FileStorageAdapter.maxEntries s) loaded)
          = (Ok (), LocalStorageAdapter.mk (FileStorageAdapter.maxEntries s) kept)
        ∧ FileStorageAdapter.maxEntries s' = FileStorageAdapter.maxEntries s
        ∧ NoDup (JsMap.keys kept)
        ∧ JsMap.size kept ≤ FileStorageAdapter.maxEntries s
        ∧ (∀ j r, JsMap.get j kept = Some r → JsMap.get j saved = Some r)
        ∧ ((∀ e, e ∈ saved → is_Some (LocalStorageAdapter.seenTime e.2)) →
           ∀ j r j' r',
             JsMap.get j saved = Some r →
             JsMap.get j kept = None →
             JsMap.get j' kept = Some r' →
             ∃ t t', LocalStorageAdapter.seenTime r = Some t
                     ∧ LocalStorageAdapter.seenTime r' = Some t' ∧ (t <= t')%Z)
  end.
Proof.
  unfold FileStorageAdapter.save.
  destruct (FileStorageAdapter._ensureLoaded s) as [[loaded|msg] s1] eqn:Eload; simpl; [|].
  2:{ unfold FileStorageAdapter._ensureLoaded in Eload.
      destruct (FileStorageAdapter.data s); [done|].
      destruct (FileStorageAdapter.readFile s); [done|]. by injection Eload as -> ->. }
  intros Hnd. set (saved := fold_left _ records loaded).
  assert (NoDup (JsMap.keys saved)) as Hsaved by (by apply fold_set_keys).
  destruct (prune_spec (FileStorageAdapter.maxEntries s) saved Hsaved)
    as (removed & rest & Hsorted & Hlen & Hkeys & Hget & Hnd' & Hsize).
  pose proof (stableSort_Permutation LocalStorageAdapter.later saved) as Hperm.
  set (kept := LocalStorageAdapter.prune (FileStorageAdapter.maxEntries s) saved) in *.
  exists kept.
  split; [done|]. split; [done|]. split; [done|]. split; [done|]. split; [done|].
  split; [lia|].
  assert (∀ j r, JsMap.get j kept = Some r → j ∉ removed.*1 ∧ JsMap.get j saved = Some r)
    as Hkept.
  { intros j r Hj.
    assert (j ∈ JsMap.keys kept) as Hin.
    { destruct (decide (j ∈ JsMap.keys kept)) as [|Hn]; [done|].
      apply JsMap_get_None in Hn. congruence. }
    apply Hkeys in Hin as [_ Hnot]. split; [done|]. by rewrite <- Hget. }
  split; [intros j r Hj; by apply Hkept|].
  intros Htimes j r j' r' Hj Hdropped Hj'.
  apply Hkept in Hj' as [Hnot' Hj'].
  assert (j ∈ removed.*1) as Hrem.
  { apply JsMap_get_None in Hdropped.
    destruct (decide (j ∈ removed.*1)) as [|Hn]; [done|]. exfalso. apply Hdropped, Hkeys.
    split; [|done]. apply JsMap_get_elem in Hj.
    unfold JsMap.keys. apply list_elem_of_fmap. by exists (j, r). }
  assert ((j, r) ∈ removed) as Hin.
  { apply list_elem_of_fmap in Hrem as ([j0 r0] & -> & Hin0). simpl in *.
    assert ((j0, r0) ∈ saved) as Hin1.
    { rewrite <- Hperm, Hsorted. apply elem_of_app. by left. }
    apply (JsMap_elem_get _ _ _ Hsaved) in Hin1. by replace r with r0 by congruence. }
  assert ((j', r') ∈ rest) as Hin'.
  { apply JsMap_get_elem in Hj'. rewrite <- Hperm, Hsorted in Hj'.
    apply elem_of_app in Hj' as [Hr|]; [|done]. exfalso. apply Hnot'.
    apply list_elem_of_fmap. by exists (j', r'). }
  assert (StronglySorted (λ a b, LocalStorageAdapter.later a b = false) (removed ++ rest))
    as Hss.
  { rewrite <- Hsorted.
    apply (stableSort_sorted _ (λ e, is_Some (LocalStorageAdapter.seenTime e.2))).
    - intros x y _ _. apply later_asym.
    - intros x y z _ Hy _. by apply later_trans.
    - by apply Forall_forall. }
  pose proof (StronglySorted_app_inv _ _ _ _ _ Hss Hin Hin') as Hlater.
  destruct (Htimes (j, r)) as [t Ht].
  { rewrite <- Hperm, Hsorted. apply elem_of_app. by left. }
  destruct (Htimes (j', r')) as [t' Ht'].
  { rewrite <- Hperm, Hsorted. apply elem_of_app. by right. }
  simpl in Ht, Ht'. exists t, t'. split; [done|]. split; [done|].
  unfold LocalStorageAdapter.later in Hlater. simpl in Hlater. rewrite Ht, Ht' in Hlater.
  apply bool_decide_eq_false_1 in Hlater. lia.
Qed.

Lemma FileStorageAdapter_save_prunes_witness :
  let s := FileStorageAdapter.new 2 noFile readOnly in
  ∃ kept,
    FileStorageAdapter.data (FileStorageAdapter.save threeRecords s).2 = Some kept
    ∧ (FileStorageAdapter.save threeRecords s).1 = Err "EACCES: permission denied"
    ∧ JsMap.size kept ≤ 2.
Proof.
  intros s.
  pose proof (FileStorageAdapter_save_prunes threeRecords s) as Hsave.
  cbn [FileStorageAdapter._ensureLoaded FileStorageAdapter.new FileStorageAdapter.data
       FileStorageAdapter.readFile noFile fst default from_option Nat.eqb s] in Hsave.
  destruct (Hsave (NoDup_nil_2 (A := string))) as (kept & Hdata & Hwrite & _ & _ & _ & Hsize & _).
  exists kept. split; [exact Hdata|]. split; [exact Hwrite|exact Hsize].
Defined.

(** The run of the witness on a file that can be written: the record seen
    longest ago is the one dropped, the others keep their order. *)
Lemma FileStorageAdapter_save_drops_oldest :
  JsMap.keys
    (default []
       (FileStorageAdapter.data
          (FileStorageAdapter.save threeRecords (FileStorageAdapter.new 2 noFile writable)).2))
  = ["a"; "c"].
Proof. vm_compute. reflexivity. Qed.

(** ** filter.js: keywords in a text *)


Lemma is_alnum_lower (c : ascii) : is_alnum (toLowerChar c) = is_alnum c.
Proof. destruct c as [[] [] [] [] [] [] [] []]; vm_compute; reflexivity. Qed.


Lemma alnum_not_special (c : ascii) : is_alnum c = true → regexSpecial c = false.
Proof. destruct c as [[] [] [] [] [] [] [] []]; vm_compute; done. Qed.


Lemma chars_toLowerCase (s : string) : chars (toLowerCase s) = toLowerChar <$> chars s.
Proof. unfold toLowerCase. apply chars_of_list. Qed.

Lemma string_of_chars (s : string) : String.string_of_list_ascii (chars s) = s.
Proof. apply String.string_of_list_ascii_of_string. Qed.




Lemma forallb_alnum_lower (l : list ascii) :
  forallb is_alnum (toLowerChar <$> l) = forallb is_alnum l.
Proof.
  induction l as [|c l IH]; [done|].
  rewrite fmap_cons. cbn [forallb]. by rewrite is_alnum_lower, IH.
Qed.

(** [escapeRegExp] is only applied to keywords of letters and digits, and
    leaves them as they are. *)
Theorem escapeRegExp_alnum (keyword : string) :
  forallb is_alnum (chars keyword) = true →
  escapeRegExp keyword = keyword
  ∧ escapeRegExp (toLowerCase keyword) = toLowerCase keyword.
Proof.
  assert (∀ s, forallb is_alnum (chars s) = true → escapeRegExp s = s) as Hid.
  { intros s Hs. unfold escapeRegExp. rewrite <- (string_of_chars s) at 2. f_equal.
    induction (chars s) as [|c l IH]; [done|]. simpl in *.
    apply andb_true_iff in Hs as [Hc Hl]. rewrite (alnum_not_special c Hc). simpl.
    f_equal. by apply IH. }
  intros Halnum. split; [by apply Hid|]. apply Hid.
  by rewrite chars_toLowerCase, forallb_alnum_lower.
Qed.

Lemma escapeRegExp_alnum_witness :
  escapeRegExp "Rust2024" = "Rust2024".
Proof. apply (escapeRegExp_alnum "Rust2024"). reflexivity. Defined.

(** A character the class does hold gets its backslash. *)
Lemma escapeRegExp_special :
  escapeRegExp "c++" = String "c" (String backslash (String "+" (String backslash "+"))).
Proof. vm_compute. reflexivity. Qed.











(** Inside a longer word a keyword is not found. *)
Lemma hasKeyword_not_inside_word :
  hasKeyword "a trusty tool" "rust" = false ∧ hasKeyword "Rust, at last" "rust" = true.
Proof. split; vm_compute; reflexivity. Qed.

(** ** filter.js: what a run returns *)


Section Returned.
Context {B : Type} `{!StorageAdapter B}.
Variable sharedPipeline : string → Result Embedding.
Variable clock : nat → Z.
Variable parseContextForSignalKeywords : string → SignalKeywords.
Variable extractContextKeywords : string → list string.
Variable firstTitleWord : string → option string.

Lemma addLabels_spec (tick : nat) (scoredItems : list ScoredItem) :
  scored <$> (addLabels clock tick scoredItems).1 = scoredItems
  ∧ ∀ s, s ∈ (addLabels clock tick scoredItems).1 → signalValue s = signalScore (scored s).
Proof.
  revert tick. induction scoredItems as [|item rest IH]; intros tick; simpl.
  - split; [done|]. intros s Hs. by apply elem_of_nil in Hs.
  - specialize (IH (afterReading (getRelevantTimestamp (scoredItem item) ∅) tick)).
    destruct (addLabels clock _ rest) as [more tick']. simpl in *. destruct IH as [IH1 IH2].
    split; [by f_equal|]. intros s [->|Hs]%elem_of_cons; [done|by apply IH2].
Qed.

(** A run that returns a list has either stopped early, with the empty
    list, or set the baseline, scored the items with an id in a batch, and
    gone through the filter loop, the scoring and the labelling. *)
Lemma filterItems_Ok_inv (items : list Item) (context : option string)
    (options : FilterOptions B) (out : list Signal) (final : Run B) :
  filterItems sharedPipeline clock parseContextForSignalKeywords extractContextKeywords
    firstTitleWord (Some items) context options = (Ok out, final) →
  out = []
  ∨ ∃ contextText e ectx scores ectx2 (tracker : option (NoveltyTracker.t B)) filterCtx,
      context = Some contextText
      ∧ EmbeddingContext.setContext sharedPipeline contextText
          (default (EmbeddingContext.new 1000) (embeddingContext options)) = (Ok e, ectx)
      ∧ EmbeddingContext.batchRelevanceScores sharedPipeline
          (filter (λ item, id item ≠ "") items) (default 10%positive (concurrency options))
          ectx = (Ok scores, ectx2)
      ∧ FilterContext.seenIds filterCtx = list_to_set (existingIds options)
      ∧ (noveltyTracker options = None → tracker = None)
      ∧ let st :=
          fold_left
            (filterStep clock firstTitleWord
               (default DEFAULT_RELEVANCE_THRESHOLD (relevanceThreshold options))
               (default DEFAULT_NOVELTY_THRESHOLD (noveltyThreshold options)) scores)
            (filter (λ item, id item ≠ "") items)
            {| loopTick := 1; loopTracker := tracker; loopFilter := filterCtx;
               filteredItems := [] |} in
        scored <$> out = stableSort (descendingBy signalScore) (scoreAll clock (loopTick st)
                                       (filteredItems st)
                                       {| relevanceWeight := None; recencyWeight := None;
                                          engagementWeight := None; engagementBaselines := ∅;
                                          sortBy := Some "score" |}).1
        ∧ ∀ s, s ∈ out → signalValue s = signalScore (scored s).
Proof.
  intros Hrun. unfold filterItems in Hrun.
  destruct items as [|first items']; [injection Hrun as <- _; by left|].
  set (items := first :: items') in *.
  destruct context as [context|]; [|done].
  destruct context as [|a context']; [done|].
  set (context := String a context') in *.
  set (validItems := filter (λ item, id item ≠ "") items) in *.
  destruct validItems as [|v validItems'] eqn:Ev; [injection Hrun as <- _; by left|].
  rewrite <- Ev in *. clear Ev.
  destruct (EmbeddingContext.setContext _ _ _) as [[e|msg] ectx] eqn:Eset; [|done].
  set (fc0 := FilterContext.setContextKeywords _ _) in *.
  right.
  destruct (noveltyTracker options) as [tr0|] eqn:Etr.
  - destruct (NoveltyTracker.loadBatch (id <$> validItems) tr0) as [[[]|msg] tr1]; [|done].
    destruct (EmbeddingContext.batchRelevanceScores _ _ _ _) as [[scores|msg] ectx2] eqn:Ebatch;
      [|done].
    exists context, e, ectx, scores, ectx2, (Some tr1), fc0.
    split; [done|]. split; [done|]. split; [done|]. split; [done|]. split; [done|].
    cbv zeta. set (st := fold_left _ validItems _) in *.
    destruct (loopTracker st) as [tr|]; [|].
    + destruct (NoveltyTracker.flush tr) as [[[]|msg] tr2]; [|done].
      unfold scoreAndSortSignals in Hrun.
      destruct (scoreAll clock (loopTick st) (filteredItems st) _) as [scoredSignals tick1].
      pose proof (addLabels_spec tick1 (stableSort (descendingBy signalScore) scoredSignals))
        as [Hscored Hvalue].
      destruct (addLabels clock tick1 _) as [itemsWithLabels tick2].
      injection Hrun as <- _. done.
    + unfold scoreAndSortSignals in Hrun.
      destruct (scoreAll clock (loopTick st) (filteredItems st) _) as [scoredSignals tick1].
      pose proof (addLabels_spec tick1 (stableSort (descendingBy signalScore) scoredSignals))
        as [Hscored Hvalue].
      destruct (addLabels clock tick1 _) as [itemsWithLabels tick2].
      injection Hrun as <- _. done.
  - destruct (EmbeddingContext.batchRelevanceScores _ _ _ _) as [[scores|msg] ectx2] eqn:Ebatch;
      [|done].
    exists context, e, ectx, scores, ectx2, None, fc0.
    split; [done|]. split; [done|]. split; [done|]. split; [done|]. split; [done|].
    cbv zeta. set (st := fold_left _ validItems _) in *.
    destruct (loopTracker st) as [tr|]; [|].
    + destruct (NoveltyTracker.flush tr) as [[[]|msg] tr2]; [|done].
      unfold scoreAndSortSignals in Hrun.
      destruct (scoreAll clock (loopTick st) (filteredItems st) _) as [scoredSignals tick1].
      pose proof (addLabels_spec tick1 (stableSort (descendingBy signalScore) scoredSignals))
        as [Hscored Hvalue].
      destruct (addLabels clock tick1 _) as [itemsWithLabels tick2].
      injection Hrun as <- _. done.
    + unfold scoreAndSortSignals in Hrun.
      destruct (scoreAll clock (loopTick st) (filteredItems st) _) as [scoredSignals tick1].
      pose proof (addLabels_spec tick1 (stableSort (descendingBy signalScore) scoredSignals))
        as [Hscored Hvalue].
      destruct (addLabels clock tick1 _) as [itemsWithLabels tick2].
      injection Hrun as <- _. done.
Qed.

(** What one turn of the filter loop does to the list of accepted
    items. *)
Lemma filterStep_filtered (rt nt : R) (scores : gmap string R) (st : Loop B) (item : Item) :
  let st' := filterStep clock firstTitleWord rt nt scores st item in
  let relevance := default 0%R (scores !! id item) in
  FilterContext.seenIds (loopFilter st') = {[id item]} ∪ FilterContext.seenIds (loopFilter st)
  ∧ (loopTracker st = None → loopTracker st' = None)
  ∧ (filteredItems st' = filteredItems st
     ∨ ∃ fr at_,
         filteredItems st' = filteredItems st ++ [withFilterResult item fr at_]
         ∧ (rt <= relevance)%R
         ∧ relevance_score fr = Some (Math_round (relevance * 100))
         ∧ confidence fr = Some (getConfidence relevance)
         ∧ (loopTracker st = None → id item ∉ FilterContext.seenIds (loopFilter st))).
Proof.
  unfold filterStep. destruct (loopTracker st) as [tr|] eqn:Etr.
  - cbv zeta. cbn [fst snd].
    destruct (bool_decide (rt <= default 0%R (scores !! id item))%R) eqn:Erel; simpl.
    + destruct (bool_decide (nt <= _)%R); simpl.
      * split; [done|]. split; [done|]. right. eexists _, _. split; [reflexivity|].
        apply bool_decide_eq_true_1 in Erel. done.
      * split; [done|]. split; [done|]. by left.
    + split; [done|]. split; [done|]. by left.
  - cbv zeta.
    destruct (bool_decide (rt <= default 0%R (scores !! id item))%R) eqn:Erel; simpl.
    + unfold FilterContext.getNoveltyScore.
      destruct (bool_decide (id item ∈ FilterContext.seenIds (loopFilter st))) eqn:Eseen.
      * rewrite (bool_decide_eq_false_2 (0 < 0)%R) by lra. simpl.
        split; [done|]. split; [done|]. by left.
      * rewrite (bool_decide_eq_true_2 (0 < 1)%R) by lra. simpl.
        split; [done|]. split; [done|]. right. eexists _, _. split; [reflexivity|].
        apply bool_decide_eq_true_1 in Erel. apply bool_decide_eq_false_1 in Eseen. done.
    + split; [done|]. split; [done|]. by left.
Qed.


(** Without a tracker no id is accepted twice, and none that was seen
    before the loop. *)
Lemma filterLoop_distinct (rt nt : R) (scores : gmap string R) (items : list Item)
    (st : Loop B) :
  loopTracker st = None →
  NoDup (id <$> filteredItems st) →
  (∀ x, x ∈ filteredItems st → id x ∈ FilterContext.seenIds (loopFilter st)) →
  let st' := fold_left (filterStep clock firstTitleWord rt nt scores) items st in
  NoDup (id <$> filteredItems st')
  ∧ ∀ x, x ∈ filteredItems st' →
         x ∈ filteredItems st ∨ id x ∉ FilterContext.seenIds (loopFilter st).
Proof.
  revert st. induction items as [|item items IH]; intros st Hnone Hnd Hseen; simpl.
  - split; [done|]. intros x Hx. by left.
  - destruct (filterStep_filtered rt nt scores st item) as (Hids & Htr & Hfiltered).
    set (st1 := filterStep clock firstTitleWord rt nt scores st item) in *.
    destruct (IH st1) as [Hnd' Hnew].
    + by apply Htr.
    + destruct Hfiltered as [->|(fr & at_ & -> & _ & _ & _ & Hfresh)]; [done|].
      rewrite fmap_app. apply NoDup_snoc_2; [done|]. simpl.
      intros (x & Hid & Hx)%list_elem_of_fmap. apply (Hfresh Hnone).
      rewrite Hid. by apply Hseen.
    + intros x Hx. rewrite Hids.
      destruct Hfiltered as [Heq|(fr & at_ & Heq & _)]; rewrite Heq in Hx.
      * apply elem_of_union. right. by apply Hseen.
      * apply elem_of_app in Hx as [Hx|Hx%list_elem_of_singleton].
        -- apply elem_of_union. right. by apply Hseen.
        -- subst x. simpl. apply elem_of_union. left. by apply elem_of_singleton.
    + split; [done|]. intros x Hx. apply Hnew in Hx as [Hx|Hx].
      * destruct Hfiltered as [Heq|(fr & at_ & Heq & _ & _ & _ & Hfresh)]; rewrite Heq in Hx.
        -- by left.
        -- apply elem_of_app in Hx as [Hx|Hx%list_elem_of_singleton]; [by left|].
           right. subst x. simpl. by apply Hfresh.
      * right. rewrite Hids in Hx. set_solver.
Qed.

(** The ids of the signals returned are, up to order, the ids of the
    items the loop accepted. *)
Lemma returned_items (tick : nat) (filtered : list Item) (options : ScoringOptions)
    (out : list Signal) :
  scored <$> out = stableSort (descendingBy signalScore) (scoreAll clock tick filtered options).1 →
  (λ s, scoredItem (scored s)) <$> out ≡ₚ filtered.
Proof.
  intros Hout. rewrite (list_fmap_compose scored scoredItem), Hout.
  rewrite stableSort_Permutation. by rewrite scoreAll_items.
Qed.


(** Without a novelty tracker a run returns no id twice, and no id that
    is among [existingIds]: of several items with one id the first that
    is looked at can pass, the others are taken as seen. *)
Theorem filterItems_no_duplicates (items : list Item) (context : option string)
    (options : FilterOptions B) (out : list Signal) (final : Run B) :
  noveltyTracker options = None →
  filterItems sharedPipeline clock parseContextForSignalKeywords extractContextKeywords
    firstTitleWord (Some items) context options = (Ok out, final) →
  NoDup ((λ s, id (scoredItem (scored s))) <$> out)
  ∧ ∀ s, s ∈ out → id (scoredItem (scored s)) ∉ existingIds options.
Proof.
  intros Hnone Hrun.
  apply filterItems_Ok_inv in Hrun
    as [->|(contextText & e & ectx & scores & ectx2 & tr & fc & _ & _ & _
            & Hseen & Htr & Hout & _)].
  { split; [constructor|]. intros s Hs. by apply elem_of_nil in Hs. }
  cbv zeta in Hout. rewrite (Htr Hnone) in Hout.
  set (st0 := {| loopTick := 1; loopTracker := None; loopFilter := fc; filteredItems := [] |})
    in *.
  destruct (filterLoop_distinct
              (default DEFAULT_RELEVANCE_THRESHOLD (relevanceThreshold options))
              (default DEFAULT_NOVELTY_THRESHOLD (noveltyThreshold options)) scores
              (filter (λ item, id item ≠ "") items) st0) as [Hnd Hnew]; [done|constructor| |].
  { intros x Hx. by apply elem_of_nil in Hx. }
  pose proof (returned_items _ _ _ _ Hout) as Hperm.
  split.
  - rewrite (list_fmap_compose (λ s, scoredItem (scored s)) id), Hperm. exact Hnd.
  - intros s Hs.
    assert (scoredItem (scored s) ∈ (λ s, scoredItem (scored s)) <$> out) as Hin.
    { apply list_elem_of_fmap. by exists s. }
    rewrite Hperm in Hin. apply Hnew in Hin as [Hin|Hin]; [by apply elem_of_nil in Hin|].
    simpl in Hin. rewrite Hseen in Hin. intros Hex. apply Hin. by apply elem_of_list_to_set.
Qed.

End Returned.


Lemma filterItems_no_duplicates_witness :
  ∃ out final,
    sampleRun (Some [bareItem "x" "ctx"; bareItem "x" "ctx"]) (Some "ctx") noOptions
    = (Ok out, final)
    ∧ NoDup ((λ s, id (scoredItem (scored s))) <$> out).
Proof.
  destruct (@filterItems_completes MemoryStorageAdapter.t memoryStorage unitPipeline stillClock
              defaultKeywords noContextKeywords
              noTitleWord (λ _, eq_refl) (λ _ _, eq_refl) (λ _ _, eq_refl)
              (Some [bareItem "x" "ctx"; bareItem "x" "ctx"]) "c" "tx" noOptions)
    as (out & final & Hrun).
  exists out, final. split; [exact Hrun|].
  by destruct (filterItems_no_duplicates unitPipeline stillClock defaultKeywords
                 noContextKeywords noTitleWord [bareItem "x" "ctx"; bareItem "x" "ctx"]
                 (Some "ctx") noOptions out final eq_refl Hrun) as [Hnd _].
Defined.

(** ** filter.js: the keyword table *)

Lemma uniqueFrom_spec (seen l : list string) :
  NoDup (uniqueFrom seen l)
  ∧ ∀ x, x ∈ uniqueFrom seen l ↔ x ∈ l ∧ x ∉ seen.
Proof.
  revert seen. induction l as [|y l IH]; intros seen; simpl.
  - split; [constructor|]. set_solver.
  - case_bool_decide as Hy.
    + destruct (IH seen) as [Hnd Hin]. split; [done|]. intros x. rewrite Hin. set_solver.
    + destruct (IH (y :: seen)) as [Hnd Hin]. split.
      * apply NoDup_cons. split; [|done]. rewrite Hin. set_solver.
      * intros x. rewrite elem_of_cons, Hin. destruct (decide (x = y)); set_solver.
Qed.

(** [setSignalKeywords] builds the table of the five signal types, in
    their order.  The exact keywords of a type are the user's keywords
    for it, in lower case, and the exact keywords read from the context,
    each once; the generic keywords are those read from the context.  The
    global keywords are the user's, in lower case.  Keywords the user
    gives under any other name are not used; the seen ids and the context
    keywords stay. *)
Theorem setSignalKeywords_table (parsedKeywords : SignalKeywords)
    (userKeywords : gmap string (list string)) (c : FilterContext.t) :
  let c' := FilterContext.setSignalKeywords parsedKeywords userKeywords c in
  (FilterContext.signalKeywords c').*1 = SIGNAL_TYPES
  ∧ FilterContext.userGlobalKeywords c'
    = toLowerCase <$> default [] (userKeywords !! "global")
  ∧ FilterContext.seenIds c' = FilterContext.seenIds c
  ∧ FilterContext.contextKeywords c' = FilterContext.contextKeywords c
  ∧ (∀ type keywords, (type, keywords) ∈ FilterContext.signalKeywords c' →
       NoDup (exact keywords)
       ∧ (∀ k, k ∈ exact keywords
               ↔ (∃ u, u ∈ default [] (userKeywords !! type) ∧ k = toLowerCase u)
                 ∨ k ∈ default [] (exact <$> entry type parsedKeywords))
       ∧ generic keywords = default [] (generic <$> entry type parsedKeywords))
  ∧ ∀ other, (∀ type, type ∈ "global" :: SIGNAL_TYPES → userKeywords !! type = other !! type) →
             FilterContext.setSignalKeywords parsedKeywords other c = c'.
Proof.
  intros c'. unfold c', FilterContext.setSignalKeywords.
  cbn [FilterContext.signalKeywords FilterContext.userGlobalKeywords FilterContext.seenIds
       FilterContext.contextKeywords].
  split; [done|]. split; [done|]. split; [done|]. split; [done|].
  split.
  - intros type keywords [type' [[= -> ->] Hin]]%list_elem_of_fmap. simpl.
    unfold unique.
    destruct (uniqueFrom_spec []
                ((toLowerCase <$> default [] (userKeywords !! type'))
                 ++ default [] (exact <$> entry type' parsedKeywords))) as [Hnd Hmem].
    split; [done|]. split; [|done]. intros k. rewrite Hmem, elem_of_app, list_elem_of_fmap.
    set_solver.
  - intros other Hsame. f_equal.
    + apply list_fmap_ext. intros _ type Hin%list_elem_of_lookup_2.
      rewrite (Hsame type) by (by apply list_elem_of_further). done.
    + by rewrite (Hsame "global") by apply list_elem_of_here.
Qed.

Lemma setSignalKeywords_table_witness :
  ∃ keywords,
    ("trend", keywords) ∈ FilterContext.signalKeywords fooContext
    ∧ NoDup (exact keywords) ∧ "foo" ∈ exact keywords.
Proof.
  destruct (setSignalKeywords_table DEFAULT_SIGNAL_KEYWORDS {["trend" := ["Foo"]]}
              (FilterContext.new [])) as (_ & _ & _ & _ & Htable & _).
  assert (∃ keywords, ("trend", keywords) ∈ FilterContext.signalKeywords fooContext)
    as [keywords Hin].
  { eexists. unfold fooContext, FilterContext.setSignalKeywords. simpl.
    do 4 apply list_elem_of_further. apply list_elem_of_here. }
  exists keywords. split; [exact Hin|].
  destruct (Htable "trend" keywords Hin) as (Hnd & Hmem & _). split; [exact Hnd|].
  apply Hmem. left. exists "Foo". split; [|reflexivity].
  vm_compute. apply list_elem_of_here.
Defined.

(** ** embeddings.js: the best matching point *)

Lemma bestPoint_spec (itemEmbedding : Embedding) (points : list ContextPoint) :
  let score := λ point, cosineSimilarity itemEmbedding (pointEmbedding point) in
  match bestPoint itemEmbedding points with
  | (None, bestScore) => bestScore = 0%R ∧ ∀ p, p ∈ points → (score p <= 0)%R
  | (Some point, bestScore) =>
      bestScore = score point ∧ (0 < bestScore)%R
      ∧ ∃ before after,
          points = before ++ point :: after
          ∧ (∀ p, p ∈ before → (score p < bestScore)%R)
          ∧ (∀ p, p ∈ after → (score p <= bestScore)%R)
  end.
Proof.
  intros score. unfold bestPoint.
  induction points as [|point points IH] using rev_ind; simpl.
  - split; [done|]. intros p Hp. by apply elem_of_nil in Hp.
  - rewrite fold_left_app. simpl.
    destruct (fold_left _ points (None, 0%R)) as [[best|] bestScore].
    + destruct IH as (-> & Hpos & before & after & -> & Hbefore & Hafter).
      fold (score point). destruct (Rlt_dec (score best) (score point)) as [Hlt|Hge].
      * split; [done|]. split; [lra|].
        exists (before ++ best :: after), []. split; [by rewrite <- app_assoc|].
        split; [|intros p Hp; by apply elem_of_nil in Hp].
        intros p [Hp|[->|Hp]%elem_of_cons]%elem_of_app.
        -- specialize (Hbefore p Hp). lra.
        -- done.
        -- specialize (Hafter p Hp). lra.
      * split; [done|]. split; [done|].
        exists before, (after ++ [point]). split; [by rewrite <- app_assoc|].
        split; [done|]. intros p [Hp|Hp%list_elem_of_singleton]%elem_of_app.
        -- by apply Hafter.
        -- subst p. lra.
    + destruct IH as [-> Hall]. fold (score point).
      destruct (Rlt_dec 0 (score point)) as [Hlt|Hge].
      * split; [done|]. split; [done|]. exists points, []. split; [done|].
        split; [|intros p Hp; by apply elem_of_nil in Hp].
        intros p Hp. specialize (Hall p Hp). lra.
      * split; [done|]. intros p [Hp|Hp%list_elem_of_singleton]%elem_of_app.
        -- by apply Hall.
        -- subst p. lra.
Qed.

Section Points.
Variable sharedPipeline : string → Result Embedding.

(** [findBestMatchingPoint]: without points, or for an item without
    text, the answer is null and nothing is embedded.  Otherwise the item
    is embedded; a failure of that is the only way to fail.  A message is
    returned exactly when some point has a similarity of at least
    [MIN_POINT_MATCH_SCORE]: it is the message of the first point whose
    similarity is the highest. *)
Theorem findBestMatchingPoint_best (contextPoints : option (list ContextPoint)) (item : Item)
    (c : EmbeddingContext.t) :
  let text := trim (itemText item) in
  let points := default [] contextPoints in
  (points = [] ∨ text = "" →
   findBestMatchingPoint sharedPipeline contextPoints item c = (Ok None, c))
  ∧ (points ≠ [] → text ≠ "" →
     match EmbeddingContext.embed sharedPipeline text c with
     | (Err msg, c') =>
         findBestMatchingPoint sharedPipeline contextPoints item c = (Err msg, c')
     | (Ok itemEmbedding, c') =>
         let score := λ point, cosineSimilarity itemEmbedding (pointEmbedding point) in
         (∃ before point after,
            points = before ++ point :: after
            ∧ (MIN_POINT_MATCH_SCORE <= score point)%R
            ∧ (∀ p, p ∈ before → (score p < score point)%R)
            ∧ (∀ p, p ∈ after → (score p <= score point)%R)
            ∧ findBestMatchingPoint sharedPipeline contextPoints item c
              = (Ok (Some (pointMessage point)), c'))
         ∨ ((∀ p, p ∈ points → (score p < MIN_POINT_MATCH_SCORE)%R)
            ∧ findBestMatchingPoint sharedPipeline contextPoints item c = (Ok None, c'))
     end).
Proof.
  intros text points. unfold findBestMatchingPoint. fold text. split.
  - intros [Hnone|Htext].
    + destruct contextPoints as [[|p ps]|]; done.
    + destruct contextPoints as [[|p ps]|]; try done. by rewrite bool_decide_eq_true_2.
  - intros Hpoints Htext.
    destruct contextPoints as [[|p0 ps]|]; try done.
    set (pts := p0 :: ps) in *. rewrite bool_decide_eq_false_2 by done.
    destruct (EmbeddingContext.embed sharedPipeline text c) as [[itemEmbedding|msg] c']; [|done].
    pose proof (bestPoint_spec itemEmbedding pts) as Hbest. simpl in Hbest.
    destruct (bestPoint itemEmbedding pts) as [[best|] bestScore].
    + destruct Hbest as (-> & Hpos & before & after & Hsplit & Hbefore & Hafter).
      destruct (Rlt_dec _ MIN_POINT_MATCH_SCORE) as [Hlow|Hhigh].
      * right. split; [|done]. intros p Hp. unfold points in Hp. simpl in Hp.
        rewrite Hsplit in Hp.
        apply elem_of_app in Hp as [Hp|[->|Hp]%elem_of_cons].
        -- specialize (Hbefore p Hp). lra.
        -- done.
        -- specialize (Hafter p Hp). lra.
      * left. exists before, best, after. split; [done|]. split; [lra|]. done.
    + destruct Hbest as [-> Hall]. unfold MIN_POINT_MATCH_SCORE.
      destruct (Rlt_dec 0 (35 / 100)) as [_|Hn]; [|lra].
      right. split; [|done]. intros p Hp. specialize (Hall p Hp). lra.
Qed.

End Points.

Lemma findBestMatchingPoint_best_witness :
  (findBestMatchingPoint unitPipeline (Some [rustPoint]) (bareItem "1" "rust")
     (EmbeddingContext.new 10)).1
  = Ok (Some (pointMessage rustPoint)).
Proof.
  destruct (findBestMatchingPoint_best unitPipeline (Some [rustPoint]) (bareItem "1" "rust")
              (EmbeddingContext.new 10)) as [_ Hsome].
  assert (EmbeddingContext.embed unitPipeline (trim (itemText (bareItem "1" "rust")))
            (EmbeddingContext.new 10)
          = (Ok [1%R], (EmbeddingContext.embed unitPipeline
                          (trim (itemText (bareItem "1" "rust")))
                          (EmbeddingContext.new 10)).2)) as Hembed.
  { rewrite (surjective_pairing (EmbeddingContext.embed _ _ _)) at 1.
    apply (f_equal2 pair); [vm_compute; reflexivity | reflexivity]. }
  assert (default [] (Some [rustPoint]) ≠ []) as Hpoints by discriminate.
  assert (trim (itemText (bareItem "1" "rust")) ≠ "") as Htext by (vm_compute; discriminate).
  specialize (Hsome Hpoints Htext). rewrite Hembed in Hsome.
  destruct Hsome as [(before & point & after & Hsplit & _ & _ & _ & ->)|[Hlow _]].
  - destruct before as [|p before]; simpl in Hsplit.
    + injection Hsplit as <- _. reflexivity.
    + injection Hsplit as _ Hsplit. destruct before; discriminate Hsplit.
  - exfalso. specialize (Hlow rustPoint (list_elem_of_here _ _)). simpl in Hlow.
    assert (cosineSimilarity [1%R] [1%R] = 1%R) as Hone.
    { apply cosineSimilarity_same. unfold sumSquares. simpl. lra. }
    rewrite Hone in Hlow. unfold MIN_POINT_MATCH_SCORE in Hlow. lra.
Defined.

(** ** scoring.js: the sources *)

(** The sources with a branch of their own in scoring.js. *)
Lemma source_cases (s : option string) :
  s ∈ [Some "github"; Some "hackernews"; Some "reddit"; Some "lobsters"; Some "devto";
       Some "huggingface"; Some "producthunt"]
  ∨ ∀ (T : Type) (a b c d e f g h : T),
      match s with
      | Some "github" => a
      | Some "hackernews" => b
      | Some "reddit" => c
      | Some "lobsters" => d
      | Some "devto" => e
      | Some "huggingface" => f
      | Some "producthunt" => g
      | _ => h
      end = h.
Proof.
  destruct s as [s|]; [|by right].
  repeat (destruct s as [|[[] [] [] [] [] [] [] []] s]; try (right; intros; reflexivity)).
  all: left; set_solver.
Qed.
Lemma cappedRatio_idle (item : Item) (customBaselines : gmap string (gmap string R))
    (value : option R) (field : string) :
  withoutEngagement item customBaselines value field →
  cappedRatio value (getBaseline (source item) customBaselines) field = Finite 0.
Proof.
  intros (Hvalue & b & Hb & Hne). unfold cappedRatio. rewrite Hb, Hvalue.
  destruct (Req_dec_T b 0) as [|_]; [done|]. f_equal.
  unfold Rdiv. rewrite !Rmult_0_l. apply Rmin_right. lra.
Qed.

Lemma cappedRatio_full (item : Item) (customBaselines : gmap string (gmap string R))
    (value : option R) (field : string) :
  saturated item customBaselines value field →
  cappedRatio value (getBaseline (source item) customBaselines) field = Finite 100.
Proof.
  intros (v & b & -> & Hb & Hpos & Hv & Htwice). unfold cappedRatio. rewrite Hb. simpl.
  destruct (Req_dec_T b 0) as [|Hne].
  - destruct (Rlt_dec 0 v); [done|lra].
  - f_equal. apply Rmin_left.
    assert (2 <= v / b)%R; [|lra].
    apply (Rmult_le_reg_r b); [lra|]. unfold Rdiv. rewrite Rmult_assoc, Rinv_l by done. lra.
Qed.

Section Engagement.
Variable item : Item.
Variable customBaselines : gmap string (gmap string R).

Abbreviation idle value field := (withoutEngagement item customBaselines value field).
Abbreviation full value field := (saturated item customBaselines value field).

Ltac engagement_at lemma :=
  let Hsource := fresh "Hsource" in
  let H1 := fresh "H1" in
  let H2 := fresh "H2" in
  intros Hsource H1 H2;
  unfold calculateEngagementScore; cbv zeta;
  rewrite !(lemma _ _ _ _ H1), !(lemma _ _ _ _ H2), Hsource; cbn [weighted];
  unfold Rmax, Rmin; repeat destruct (Rle_dec _ _); lra.

(** Engagement at its two ends.  An item of one of the seven known
    sources scores 0 when both of its metrics are absent or 0 (their
    baselines being other than 0, as the default ones are), and 100 when
    both are positive and at least twice their baselines.  An item of any
    other source scores 50 when it has none of the generic fields likes,
    reactions and upvotes. *)
Theorem calculateEngagementScore_extremes :
  let meta := metadata item in
  let result := calculateEngagementScore item customBaselines in
  ((source item = Some "github" →
    idle (stars meta) "stars" → idle (forks meta) "forks" → result = 0%R)
   ∧ (source item = Some "hackernews" →
      idle (points meta) "points" → idle (comments meta) "comments" → result = 0%R)
   ∧ (source item = Some "reddit" →
      idle (score meta) "score" → idle (comments meta) "comments" → result = 0%R)
   ∧ (source item = Some "lobsters" →
      idle (score meta) "score" → idle (comments meta) "comments" → result = 0%R)
   ∧ (source item = Some "devto" →
      idle (reactions meta) "reactions" → idle (comments meta) "comments" → result = 0%R)
   ∧ (source item = Some "huggingface" →
      idle (likes meta) "likes" → idle (downloads meta) "downloads" → result = 0%R)
   ∧ (source item = Some "producthunt" →
      idle (votes meta) "votes" → idle (comments meta) "comments" → result = 0%R))
  ∧ ((source item = Some "github" →
      full (stars meta) "stars" → full (forks meta) "forks" → result = 100%R)
     ∧ (source item = Some "hackernews" →
        full (points meta) "points" → full (comments meta) "comments" → result = 100%R)
     ∧ (source item = Some "reddit" →
        full (score meta) "score" → full (comments meta) "comments" → result = 100%R)
     ∧ (source item = Some "lobsters" →
        full (score meta) "score" → full (comments meta) "comments" → result = 100%R)
     ∧ (source item = Some "devto" →
        full (reactions meta) "reactions" → full (comments meta) "comments" → result = 100%R)
     ∧ (source item = Some "huggingface" →
        full (likes meta) "likes" → full (downloads meta) "downloads" → result = 100%R)
     ∧ (source item = Some "producthunt" →
        full (votes meta) "votes" → full (comments meta) "comments" → result = 100%R))
  ∧ (source item ∉ [Some "github"; Some "hackernews"; Some "reddit"; Some "lobsters";
                    Some "devto"; Some "huggingface"; Some "producthunt"] →
     truthyR (likes meta) = false → truthyR (reactions meta) = false →
     truthyR (upvotes meta) = false →
     result = 50%R).
Proof.
  intros meta result. unfold result, meta.
  split; [|split].
  - repeat split; engagement_at cappedRatio_idle.
  - repeat split; engagement_at cappedRatio_full.
  - intros Hother Hlikes Hreactions Hupvotes.
    unfold calculateEngagementScore.
    destruct (source_cases (source item)) as [Hin|Hdefault]; [done|].
    rewrite Hdefault, Hlikes, Hreactions, Hupvotes. simpl.
    unfold Rmax, Rmin. repeat destruct (Rle_dec _ _); lra.
Qed.

End Engagement.

Lemma calculateEngagementScore_extremes_witness :
  calculateEngagementScore githubAtTwiceBaseline ∅ = 100%R.
Proof.
  destruct (calculateEngagementScore_extremes githubAtTwiceBaseline ∅) as (_ & Hfull & _).
  destruct Hfull as [Hgithub _]. apply Hgithub.
  - reflexivity.
  - exists 2000%R, 1000%R. split; [reflexivity|]. split; [vm_compute; reflexivity|]. lra.
  - exists 200%R, 100%R. split; [reflexivity|]. split; [vm_compute; reflexivity|]. lra.
Defined.
